(** * Verification of the pool-hall worker-pool supervisor

    A shallow embedding of [src/internal/Supervisor.js]: the supervisor
    object is a record, its methods are computations in a state-and-exception
    monad over that record, and the Node.js event loop is an explicit step
    function over the inputs the supervisor can receive (API calls, process
    exits, worker messages, timers). *)

From stdpp Require Import gmap strings list pretty.
From Stdlib Require Import ZArith Lia.

Local Open Scope Z_scope.

(** ** Time: [process.hrtime] *)

(** A high-resolution timestamp is the pair [[seconds, nanoseconds]]. *)
Definition hrtime : Type := Z * Z.

(** [process.hrtime(past)]: the difference to an earlier reading, with the
    nanosecond borrow Node.js performs. *)
Definition hrtime_since (now past : hrtime) : hrtime :=
  let sec := now.1 - past.1 in
  let nsec := now.2 - past.2 in
  if nsec <? 0 then (sec - 1, nsec + 1000000000) else (sec, nsec).

(** [Math.floor(hrtime[0] * 1e3 + hrtime[1] / 1e6)], in exact arithmetic:
    the first summand is an integer, so the floor of the sum is the sum with
    the floored second summand, and [Z.div] rounds towards minus infinity
    like [Math.floor].  The code computes in double precision and rounds
    the sum before it takes the floor.  Below 2^34 ms (some 198 days) half
    the spacing of the doubles is less than the 1e-6 ms that a nanosecond
    timestamp keeps from the next whole millisecond, so the code returns
    this value; from there on it may return one millisecond more. *)
Definition hrtimeToMilliseconds (t : hrtime) : Z :=
  t.1 * 1000 + t.2 / 1000000.

(** ** Data model *)

Inductive Signal := SIGTERM | SIGKILL.

(** The [act] tag of a message of the internal protocol; [actName] is the
    string it stands for. *)
Inductive Act :=
| ready | heartbeat | shutdown | healthy | unhealthy
| otherAct (name : string).

Definition actName (a : Act) : string :=
  match a with
  | ready => "ready"
  | heartbeat => "heartbeat"
  | shutdown => "shutdown"
  | healthy => "healthy"
  | unhealthy => "unhealthy"
  | otherAct name => name
  end.

Inductive WorkerState := down | up.

(** The handle [fork] returns.  [exited] is what the liveness query of the
    worker wrapper reads; [exitListener] tells whether the
    [once('exit', ...)] handler of [connectWorkerProcessEvents] is attached
    (it is attached once per handle, right after the handle is created). *)
Record ChildProcess := {
  pid : nat;
  exited : bool;
  exitListener : bool;
}.

Record Worker := {
  worker_id : string;
  worker_state : WorkerState;
  worker_process : ChildProcess;
}.

(** Modelled from the spec: [BaseWorker.isDead], the liveness predicate of
    the worker wrapper ("whose process is not yet dead"); the wrapper's
    source is not part of [src/]. *)
Definition isDead (w : Worker) : bool := exited (worker_process w).

(** The settings object.  A key that is absent from the JavaScript object
    is [None]; reading it yields [undefined].  An object that holds a key
    with the value [undefined] has no counterpart here: [in] and the spread
    of [configure] go by the presence of a key, and see such a key as
    present. *)
Record Settings := {
  workerCount : option Z;
  minWorkerCount : option Z;
  workerEnv : option (string → gmap string string);
  exec : option string;
  args : option (list string);
  env : option (gmap string string);
  execArgv : option (list string);
  gentleStopTimeout : option Z;
  killTimeout : option Z;
  heartbeatWorkerInterval : option Z;
  heartbeatMonitorInterval : option Z;
  heartbeatStallTolerance : option Z;
}.

(** [{}] *)
Definition emptySettings : Settings :=
  {| workerCount := None; minWorkerCount := None; workerEnv := None;
     exec := None; args := None; env := None; execArgv := None;
     gentleStopTimeout := None; killTimeout := None;
     heartbeatWorkerInterval := None; heartbeatMonitorInterval := None;
     heartbeatStallTolerance := None |}.

Definition DEFAULT_SETTINGS : Settings :=
  {| workerCount := None; minWorkerCount := None; workerEnv := None;
     exec := None; args := None; env := None; execArgv := None;
     gentleStopTimeout := Some 5000; killTimeout := Some 2000;
     heartbeatWorkerInterval := Some 500; heartbeatMonitorInterval := Some 1000;
     heartbeatStallTolerance := Some 5000 |}.

(** One key of [{...a, ...b}]: the later source wins when it has the key. *)
Definition spreadKey {A} (a b : option A) : option A :=
  match b with Some _ => b | None => a end.

(** [{...a, ...b}] *)
Definition spread (a b : Settings) : Settings :=
  {| workerCount := spreadKey (workerCount a) (workerCount b);
     minWorkerCount := spreadKey (minWorkerCount a) (minWorkerCount b);
     workerEnv := spreadKey (workerEnv a) (workerEnv b);
     exec := spreadKey (exec a) (exec b);
     args := spreadKey (args a) (args b);
     env := spreadKey (env a) (env b);
     execArgv := spreadKey (execArgv a) (execArgv b);
     gentleStopTimeout := spreadKey (gentleStopTimeout a) (gentleStopTimeout b);
     killTimeout := spreadKey (killTimeout a) (killTimeout b);
     heartbeatWorkerInterval :=
       spreadKey (heartbeatWorkerInterval a) (heartbeatWorkerInterval b);
     heartbeatMonitorInterval :=
       spreadKey (heartbeatMonitorInterval a) (heartbeatMonitorInterval b);
     heartbeatStallTolerance :=
       spreadKey (heartbeatStallTolerance a) (heartbeatStallTolerance b) |}.

Definition set_minWorkerCount (v : option Z) (o : Settings) : Settings :=
  {| workerCount := workerCount o; minWorkerCount := v; workerEnv := workerEnv o;
     exec := exec o; args := args o; env := env o; execArgv := execArgv o;
     gentleStopTimeout := gentleStopTimeout o; killTimeout := killTimeout o;
     heartbeatWorkerInterval := heartbeatWorkerInterval o;
     heartbeatMonitorInterval := heartbeatMonitorInterval o;
     heartbeatStallTolerance := heartbeatStallTolerance o |}.

(** Events the supervisor emits on itself. *)
Inductive PoolEvent :=
| workerUp (workerId : string)
| workerDown (workerId : string) (exitCode : option Z) (signalCode : option string)
| workerTerminated (workerId : string)
| workerHeartbeat (workerId : string)
| workerAllUp
| workerStall (workerId : string)
| info_workersUpCount (workersUp : Z) (count minCount : option Z)
| info_workerHeartbeatDelta (workerId : string) (delta : Z)
| info_gentleStopTimeout (ms : option Z)
| info_killTimeout (signal : Signal) (ms : option Z)
| info_liveWorkersAtKill (signal : Signal) (live : Z).

(** What the supervisor does to the outside world, in program order. *)
Inductive Effect :=
| Emit (e : PoolEvent)
| Send (workerId : string) (a : Act)   (* [{act: a, poolHallInternal: true}] *)
| Fork (p : nat) (exe : option string) (argv : option (list string))
       (environment : gmap string string) (flags : list string)
| Kill (workerId : string) (p : nat) (signal : Signal).

(** A timer handle: [setTimeout(_, delay)], and whether [unref] was called. *)
Record Timer := { delay : option Z; hasRef : bool }.

(** ** Promises of the shutdown sequence

    Every promise the supervisor waits on is a conjunction of per-worker
    promises that resolve on that worker's next ['down'] (or first ['up'])
    event; it is represented by the ids still awaited.  The empty list is a
    resolved promise: [Promise.all([])] and [Promise.resolve()]. *)

Inductive Outcome :=
| Fulfilled (timedOut : bool)   (* [res === PROMISE_TIMEOUT] or not *)
| Rejected.

(** The two [onTimeout] closures of the source. *)
Inductive TimeoutCallback :=
| gentleStopTimedOut
| killTimedOut (signal : Signal).

(** A pending [raceTo]: the awaited promise, the delay of the armed timer
    and the [onTimeout] callback. *)
Record Race := {
  awaited : list string;
  timeout : option Z;
  onTimeout : TimeoutCallback;
}.

(** The callbacks handed to [.then]: [this.killSequence(signal)]. *)
Inductive Handler := killSequence (signal : Signal).

(** The promise [stop()] returns: a pending race and the [.then(onFulfilled,
    onRejected)] links still to run, or the settled result. *)
Inductive Promise :=
| Pending (race : Race) (thens : list (Handler * Handler))
| Settled (o : Outcome).

(** ** The supervisor object and its runtime *)

Record Supervisor := {
  configured : bool;
  initializing : bool;
  workerPoolCreated : bool;
  (* [this.workers]: keys in [Object.values] order, which for the integer
     keys "1", "2", ... is ascending and equal to insertion order *)
  workers : list (string * Worker);
  settings : Settings;
  closing : bool;
  heartbeatTimestamps : gmap string hrtime;
  heartbeatTimeout : option Timer;
  heartbeatStartedAt : option hrtime;
  (* the event loop *)
  readyJoin : option (list string);   (* [Promise.all(workerReadyPromises)] *)
  promises : list Promise;            (* results of [stop()], oldest first *)
  nextTickQueue : list string;        (* deferred [replaceWorkerProcess] calls *)
  nextPid : nat;                      (* handles allocated by [fork] *)
  hrtimeSource : nat → hrtime;        (* the successive clock readings *)
  hrtimeReads : nat;
  trace : list Effect;
}.

Definition set_configured (v : bool) (s : Supervisor) : Supervisor :=
  {| configured := v; initializing := initializing s;
     workerPoolCreated := workerPoolCreated s; workers := workers s;
     settings := settings s; closing := closing s;
     heartbeatTimestamps := heartbeatTimestamps s; heartbeatTimeout := heartbeatTimeout s;
     heartbeatStartedAt := heartbeatStartedAt s; readyJoin := readyJoin s;
     promises := promises s; nextTickQueue := nextTickQueue s; nextPid := nextPid s;
     hrtimeSource := hrtimeSource s; hrtimeReads := hrtimeReads s; trace := trace s |}.

Definition set_initializing (v : bool) (s : Supervisor) : Supervisor :=
  {| configured := configured s; initializing := v;
     workerPoolCreated := workerPoolCreated s; workers := workers s;
     settings := settings s; closing := closing s;
     heartbeatTimestamps := heartbeatTimestamps s; heartbeatTimeout := heartbeatTimeout s;
     heartbeatStartedAt := heartbeatStartedAt s; readyJoin := readyJoin s;
     promises := promises s; nextTickQueue := nextTickQueue s; nextPid := nextPid s;
     hrtimeSource := hrtimeSource s; hrtimeReads := hrtimeReads s; trace := trace s |}.

Definition set_workerPoolCreated (v : bool) (s : Supervisor) : Supervisor :=
  {| configured := configured s; initializing := initializing s; workerPoolCreated := v;
     workers := workers s; settings := settings s; closing := closing s;
     heartbeatTimestamps := heartbeatTimestamps s; heartbeatTimeout := heartbeatTimeout s;
     heartbeatStartedAt := heartbeatStartedAt s; readyJoin := readyJoin s;
     promises := promises s; nextTickQueue := nextTickQueue s; nextPid := nextPid s;
     hrtimeSource := hrtimeSource s; hrtimeReads := hrtimeReads s; trace := trace s |}.

Definition set_workers (v : list (string * Worker)) (s : Supervisor) : Supervisor :=
  {| configured := configured s; initializing := initializing s;
     workerPoolCreated := workerPoolCreated s; workers := v; settings := settings s;
     closing := closing s; heartbeatTimestamps := heartbeatTimestamps s;
     heartbeatTimeout := heartbeatTimeout s; heartbeatStartedAt := heartbeatStartedAt s;
     readyJoin := readyJoin s; promises := promises s; nextTickQueue := nextTickQueue s;
     nextPid := nextPid s; hrtimeSource := hrtimeSource s; hrtimeReads := hrtimeReads s;
     trace := trace s |}.

Definition set_settings (v : Settings) (s : Supervisor) : Supervisor :=
  {| configured := configured s; initializing := initializing s;
     workerPoolCreated := workerPoolCreated s; workers := workers s; settings := v;
     closing := closing s; heartbeatTimestamps := heartbeatTimestamps s;
     heartbeatTimeout := heartbeatTimeout s; heartbeatStartedAt := heartbeatStartedAt s;
     readyJoin := readyJoin s; promises := promises s; nextTickQueue := nextTickQueue s;
     nextPid := nextPid s; hrtimeSource := hrtimeSource s; hrtimeReads := hrtimeReads s;
     trace := trace s |}.

Definition set_closing (v : bool) (s : Supervisor) : Supervisor :=
  {| configured := configured s; initializing := initializing s;
     workerPoolCreated := workerPoolCreated s; workers := workers s;
     settings := settings s; closing := v; heartbeatTimestamps := heartbeatTimestamps s;
     heartbeatTimeout := heartbeatTimeout s; heartbeatStartedAt := heartbeatStartedAt s;
     readyJoin := readyJoin s; promises := promises s; nextTickQueue := nextTickQueue s;
     nextPid := nextPid s; hrtimeSource := hrtimeSource s; hrtimeReads := hrtimeReads s;
     trace := trace s |}.

Definition set_heartbeatTimestamps (v : gmap string hrtime) (s : Supervisor) : Supervisor :=
  {| configured := configured s; initializing := initializing s;
     workerPoolCreated := workerPoolCreated s; workers := workers s;
     settings := settings s; closing := closing s; heartbeatTimestamps := v;
     heartbeatTimeout := heartbeatTimeout s; heartbeatStartedAt := heartbeatStartedAt s;
     readyJoin := readyJoin s; promises := promises s; nextTickQueue := nextTickQueue s;
     nextPid := nextPid s; hrtimeSource := hrtimeSource s; hrtimeReads := hrtimeReads s;
     trace := trace s |}.

Definition set_heartbeatTimeout (v : option Timer) (s : Supervisor) : Supervisor :=
  {| configured := configured s; initializing := initializing s;
     workerPoolCreated := workerPoolCreated s; workers := workers s;
     settings := settings s; closing := closing s;
     heartbeatTimestamps := heartbeatTimestamps s; heartbeatTimeout := v;
     heartbeatStartedAt := heartbeatStartedAt s; readyJoin := readyJoin s;
     promises := promises s; nextTickQueue := nextTickQueue s; nextPid := nextPid s;
     hrtimeSource := hrtimeSource s; hrtimeReads := hrtimeReads s; trace := trace s |}.

Definition set_heartbeatStartedAt (v : option hrtime) (s : Supervisor) : Supervisor :=
  {| configured := configured s; initializing := initializing s;
     workerPoolCreated := workerPoolCreated s; workers := workers s;
     settings := settings s; closing := closing s;
     heartbeatTimestamps := heartbeatTimestamps s; heartbeatTimeout := heartbeatTimeout s;
     heartbeatStartedAt := v; readyJoin := readyJoin s; promises := promises s;
     nextTickQueue := nextTickQueue s; nextPid := nextPid s;
     hrtimeSource := hrtimeSource s; hrtimeReads := hrtimeReads s; trace := trace s |}.

Definition set_readyJoin (v : option (list string)) (s : Supervisor) : Supervisor :=
  {| configured := configured s; initializing := initializing s;
     workerPoolCreated := workerPoolCreated s; workers := workers s;
     settings := settings s; closing := closing s;
     heartbeatTimestamps := heartbeatTimestamps s; heartbeatTimeout := heartbeatTimeout s;
     heartbeatStartedAt := heartbeatStartedAt s; readyJoin := v; promises := promises s;
     nextTickQueue := nextTickQueue s; nextPid := nextPid s;
     hrtimeSource := hrtimeSource s; hrtimeReads := hrtimeReads s; trace := trace s |}.

Definition set_promises (v : list Promise) (s : Supervisor) : Supervisor :=
  {| configured := configured s; initializing := initializing s;
     workerPoolCreated := workerPoolCreated s; workers := workers s;
     settings := settings s; closing := closing s;
     heartbeatTimestamps := heartbeatTimestamps s; heartbeatTimeout := heartbeatTimeout s;
     heartbeatStartedAt := heartbeatStartedAt s; readyJoin := readyJoin s; promises := v;
     nextTickQueue := nextTickQueue s; nextPid := nextPid s;
     hrtimeSource := hrtimeSource s; hrtimeReads := hrtimeReads s; trace := trace s |}.

Definition set_nextTickQueue (v : list string) (s : Supervisor) : Supervisor :=
  {| configured := configured s; initializing := initializing s;
     workerPoolCreated := workerPoolCreated s; workers := workers s;
     settings := settings s; closing := closing s;
     heartbeatTimestamps := heartbeatTimestamps s; heartbeatTimeout := heartbeatTimeout s;
     heartbeatStartedAt := heartbeatStartedAt s; readyJoin := readyJoin s;
     promises := promises s; nextTickQueue := v; nextPid := nextPid s;
     hrtimeSource := hrtimeSource s; hrtimeReads := hrtimeReads s; trace := trace s |}.

Definition set_nextPid (v : nat) (s : Supervisor) : Supervisor :=
  {| configured := configured s; initializing := initializing s;
     workerPoolCreated := workerPoolCreated s; workers := workers s;
     settings := settings s; closing := closing s;
     heartbeatTimestamps := heartbeatTimestamps s; heartbeatTimeout := heartbeatTimeout s;
     heartbeatStartedAt := heartbeatStartedAt s; readyJoin := readyJoin s;
     promises := promises s; nextTickQueue := nextTickQueue s; nextPid := v;
     hrtimeSource := hrtimeSource s; hrtimeReads := hrtimeReads s; trace := trace s |}.

Definition set_hrtimeReads (v : nat) (s : Supervisor) : Supervisor :=
  {| configured := configured s; initializing := initializing s;
     workerPoolCreated := workerPoolCreated s; workers := workers s;
     settings := settings s; closing := closing s;
     heartbeatTimestamps := heartbeatTimestamps s; heartbeatTimeout := heartbeatTimeout s;
     heartbeatStartedAt := heartbeatStartedAt s; readyJoin := readyJoin s;
     promises := promises s; nextTickQueue := nextTickQueue s; nextPid := nextPid s;
     hrtimeSource := hrtimeSource s; hrtimeReads := v; trace := trace s |}.

Definition set_trace (v : list Effect) (s : Supervisor) : Supervisor :=
  {| configured := configured s; initializing := initializing s;
     workerPoolCreated := workerPoolCreated s; workers := workers s;
     settings := settings s; closing := closing s;
     heartbeatTimestamps := heartbeatTimestamps s; heartbeatTimeout := heartbeatTimeout s;
     heartbeatStartedAt := heartbeatStartedAt s; readyJoin := readyJoin s;
     promises := promises s; nextTickQueue := nextTickQueue s; nextPid := nextPid s;
     hrtimeSource := hrtimeSource s; hrtimeReads := hrtimeReads s; trace := v |}.

(** [new Supervisor(fork)], running against the clock [clock]. *)
Definition newSupervisor (clock : nat → hrtime) : Supervisor :=
  {| configured := false; initializing := true; workerPoolCreated := false;
     workers := []; settings := emptySettings; closing := false;
     heartbeatTimestamps := ∅; heartbeatTimeout := None;
     heartbeatStartedAt := None; readyJoin := None; promises := [];
     nextTickQueue := []; nextPid := 0%nat; hrtimeSource := clock;
     hrtimeReads := 0%nat; trace := [] |}.

(** ** The monad of supervisor methods: mutable [this] plus exceptions *)

Inductive JsError :=
| Error (message : string)
| TypeError (message : string).

Inductive Result (A : Type) :=
| Ok (a : A)
| Throw (e : JsError).
Arguments Ok {A} a.
Arguments Throw {A} e.

Definition M (A : Type) : Type := Supervisor → Result A * Supervisor.

#[global] Instance M_ret : MRet M := λ A a s, (Ok a, s).
#[global] Instance M_bind : MBind M := λ A B f m s,
  match m s with
  | (Ok a, s') => f a s'
  | (Throw e, s') => (Throw e, s')
  end.

Definition throw {A} (e : JsError) : M A := λ s, (Throw e, s).
Definition gets {A} (f : Supervisor → A) : M A := λ s, (Ok (f s), s).
Definition modify (f : Supervisor → Supervisor) : M unit := λ s, (Ok (), f s).

Fixpoint forEach {A} (f : A → M unit) (l : list A) : M unit :=
  match l with
  | [] => mret ()
  | x :: l' => f x;; forEach f l'
  end.

Definition perform (e : Effect) : M unit :=
  modify (λ s, set_trace (trace s ++ [e]) s).

(** [process.hrtime()] *)
Definition process_hrtime : M hrtime := λ s,
  (Ok (hrtimeSource s (hrtimeReads s)), set_hrtimeReads (S (hrtimeReads s)) s).

(** [process.hrtime(past)]; Node.js rejects an argument that is not an
    array, [null] included. *)
Definition process_hrtime_since (past : option hrtime) : M hrtime :=
  match past with
  | None => throw (TypeError "The time argument must be of type Array")
  | Some p => now ← process_hrtime; mret (hrtime_since now p)
  end.

(** ** The worker table [this.workers] *)

#[global] Instance WorkerState_eq_dec : EqDecision WorkerState.
Proof. solve_decision. Defined.
#[global] Instance Signal_eq_dec : EqDecision Signal.
Proof. solve_decision. Defined.
#[global] Instance Act_eq_dec : EqDecision Act.
Proof. solve_decision. Defined.
#[global] Instance PoolEvent_eq_dec : EqDecision PoolEvent.
Proof. solve_decision. Defined.

Definition Object_keys (o : list (string * Worker)) : list string := o.*1.
Definition Object_values (o : list (string * Worker)) : list Worker := o.*2.

Fixpoint obj_get (k : string) (o : list (string * Worker)) : option Worker :=
  match o with
  | [] => None
  | (k', w) :: o' => if decide (k' = k) then Some w else obj_get k o'
  end.

(** [o[k] = w] *)
Fixpoint obj_set (k : string) (w : Worker) (o : list (string * Worker))
  : list (string * Worker) :=
  match o with
  | [] => [(k, w)]
  | (k', w') :: o' =>
      if decide (k' = k) then (k, w) :: o' else (k', w') :: obj_set k w o'
  end.

(** Mutation of the worker object stored under [k]. *)
Fixpoint obj_alter (f : Worker → Worker) (k : string) (o : list (string * Worker))
  : list (string * Worker) :=
  match o with
  | [] => []
  | (k', w) :: o' =>
      if decide (k' = k) then (k', f w) :: o' else (k', w) :: obj_alter f k o'
  end.

Definition set_worker_state (v : WorkerState) (w : Worker) : Worker :=
  {| worker_id := worker_id w; worker_state := v;
     worker_process := worker_process w |}.

(** Modelled from the spec: [BaseWorker.setProcess], which "hot-swaps the
    underlying process on replacement"; the wrapper's source is not part of
    [src/]. *)
Definition setProcess (p : ChildProcess) (w : Worker) : Worker :=
  {| worker_id := worker_id w; worker_state := worker_state w;
     worker_process := p |}.

Definition markExited (p : ChildProcess) : ChildProcess :=
  {| pid := pid p; exited := true; exitListener := false |}.

(** A closure that captured the worker object stored under [key] runs on
    that object; ids that name no worker have no closures. *)
Definition withWorker (key : string) (f : Worker → M unit) : M unit :=
  o ← gets workers;
  match obj_get key o with
  | Some worker => f worker
  | None => mret ()
  end.

Definition alterWorker (key : string) (f : Worker → Worker) : M unit :=
  modify (λ s, set_workers (obj_alter f key (workers s)) s).

(** ** Health aggregation and heartbeats *)

(** [worker.send({...message, poolHallInternal: true})] *)
Definition worker_send (key : string) (message : Act) : M unit :=
  perform (Send key message).

Definition internalSend (message : Act) : M unit :=
  keys ← gets (λ s, Object_keys (workers s));
  forEach (λ key, worker_send key message) keys.

(** [a === b] and [a >= b] for a number [a] and a setting [b] that may be
    [undefined]. *)
Definition strictEq (a : Z) (b : option Z) : bool :=
  match b with Some b => bool_decide (a = b) | None => false end.
Definition geq (a : Z) (b : option Z) : bool :=
  match b with Some b => bool_decide (b ≤ a) | None => false end.

(** [this.emit] of an event for which the constructor registers no
    listener. *)
Definition emitInfo (e : PoolEvent) : M unit := perform (Emit e).

Definition setPoolHealth : M unit :=
  values ← gets (λ s, Object_values (workers s));
  let workersUp :=
    Z.of_nat (length (filter (λ w, worker_state w = up) values)) in
  cfg ← gets settings;
  emitInfo (info_workersUpCount workersUp (workerCount cfg) (minWorkerCount cfg));;
  init ← gets initializing;
  if init : bool then
    if strictEq workersUp (workerCount cfg) then
      internalSend healthy;;
      modify (set_initializing false)
    else
      internalSend unhealthy
  else if geq workersUp (minWorkerCount cfg) then
    internalSend healthy
  else
    internalSend unhealthy.

(** [a || b] for values that are a timestamp array, [undefined] or [null]. *)
Definition orElse {A} (a b : option A) : option A :=
  match a with Some _ => a | None => b end.

Definition recordHeartbeat (workerId : string) : M unit :=
  past ← gets (λ s, orElse (heartbeatTimestamps s !! workerId)
                           (heartbeatStartedAt s));
  match past with
  | Some _ =>
      elapsed ← process_hrtime_since past;
      emitInfo (info_workerHeartbeatDelta workerId (hrtimeToMilliseconds elapsed))
  | None => mret ()
  end;;
  now ← process_hrtime;
  modify (λ s, set_heartbeatTimestamps (<[workerId := now]> (heartbeatTimestamps s)) s).

(** [this.emit]: the event, then the listeners the constructor registered
    for it ([workerUp] and [workerDown]: [setPoolHealth]; [workerHeartbeat]:
    [recordHeartbeat]). *)
Definition emit (e : PoolEvent) : M unit :=
  perform (Emit e);;
  match e with
  | workerUp _ | workerDown _ _ _ => setPoolHealth
  | workerHeartbeat workerId => recordHeartbeat workerId
  | _ => mret ()
  end.

(** [setTimeout(this.monitorHeartbeat, interval)] followed by [unref()]. *)
Definition unref (t : Timer) : Timer := {| delay := delay t; hasRef := false |}.

Definition scheduleMonitor : M unit :=
  interval ← gets (λ s, heartbeatMonitorInterval (settings s));
  modify (set_heartbeatTimeout (Some {| delay := interval; hasRef := true |}));;
  modify (λ s, set_heartbeatTimeout (unref <$> heartbeatTimeout s) s).

Definition monitorHeartbeat : M unit :=
  entries ← gets (λ s, filter (λ kw, ¬ isDead kw.2) (workers s));
  forEach (λ kw : string * Worker,
    let workerId := kw.1 in
    workerHeartbeatTimestamp ←
      gets (λ s, orElse (heartbeatTimestamps s !! workerId) (heartbeatStartedAt s));
    elapsed ← process_hrtime_since workerHeartbeatTimestamp;
    let heartbeatDelta := hrtimeToMilliseconds elapsed in
    tolerance ← gets (λ s, heartbeatStallTolerance (settings s));
    if geq heartbeatDelta tolerance then
      emit (workerStall workerId);;
      emit (info_workerHeartbeatDelta workerId heartbeatDelta)
    else mret ()) entries;;
  scheduleMonitor.

(** ** Configuration *)

(** [prop in settings] for the two required properties. *)
Definition hasKey (prop : string) (o : Settings) : bool :=
  if decide (prop = "workerCount") then bool_decide (is_Some (workerCount o))
  else if decide (prop = "workerEnv") then bool_decide (is_Some (workerEnv o))
  else false.

Definition configure (settings' baseSettings : Settings) : M unit :=
  c ← gets configured;
  if c : bool then throw (Error "poolHall already configured") else
  modify (set_configured true);;
  forEach (λ prop,
    if hasKey prop settings' then mret ()
    else throw (Error ("Missing required setting '" +:+ prop +:+ "'")))
    ["workerCount"; "workerEnv"];;
  modify (set_settings (spread (spread DEFAULT_SETTINGS baseSettings) settings'));;
  cfg ← gets settings;
  match minWorkerCount cfg with
  | Some _ => mret ()
  | None =>
      let derived :=
        match workerCount cfg with
        | Some workerCount => Some (if bool_decide (4 ≤ workerCount)
                                    then workerCount - 2 else workerCount)
        | None => None   (* [undefined >= 4] is false: the value is [undefined] *)
        end in
      modify (set_settings (set_minWorkerCount derived cfg))
  end.

(** ** Worker processes *)

(** A setting inside a template literal. *)
Definition template (v : option Z) : string :=
  match v with Some z => pretty z | None => "undefined" end.

(** [this.fork(exec, args, {env, execArgv})]: the launch collaborator hands
    out a fresh handle. *)
Definition fork (exe : option string) (argv : option (list string))
    (environment : gmap string string) (flags : list string) : M ChildProcess :=
  p ← gets nextPid;
  modify (set_nextPid (S p));;
  perform (Fork p exe argv environment flags);;
  mret {| pid := p; exited := false; exitListener := false |}.

Definition createWorkerProcess (id : string) : M ChildProcess :=
  cfg ← gets settings;
  match workerEnv cfg with
  | None => throw (TypeError "this.settings.workerEnv is not a function")
  | Some perWorker =>
      let workerEnv' : gmap string string :=
        <["POOL_HALL_HEARTBEAT_INTERVAL" := template (heartbeatWorkerInterval cfg)]>
          (<["POOL_HALL_ID" := id]> (perWorker id ∪ default ∅ (env cfg))) in
      match execArgv cfg with
      | None => throw (TypeError "this.settings.execArgv is not iterable")
      | Some flags => fork (exec cfg) (args cfg) workerEnv' flags
      end
  end.

(** [worker.process.once('exit', handler)]: the registration.  The handler
    itself is [onExit] below. *)
Definition connectWorkerProcessEvents (worker : Worker) : Worker :=
  setProcess {| pid := pid (worker_process worker);
                exited := exited (worker_process worker);
                exitListener := true |} worker.

Definition replaceWorkerProcess (key : string) : M unit :=
  c ← gets closing;
  if negb c then
    withWorker key (λ worker,
      workerProcess ← createWorkerProcess (worker_id worker);
      alterWorker key (setProcess workerProcess);;
      alterWorker key connectWorkerProcessEvents)
  else mret ().

(** Removal of a resolved per-worker promise from a conjunction. *)
Definition resolveFor (key : string) (promise : list string) : list string :=
  filter (λ k, k ≠ key) promise.

Definition resolveDown (key : string) (p : Promise) : Promise :=
  match p with
  | Pending race thens =>
      Pending {| awaited := resolveFor key (awaited race);
                 timeout := timeout race; onTimeout := onTimeout race |} thens
  | Settled o => Settled o
  end.

(** The events of a worker object, with the listeners attached to them in
    registration order: the republishing listener of [createWorkerPool],
    then the [once] listeners that resolve promises. *)
Inductive WorkerEvent :=
| worker_up
| worker_down (exitCode : option Z) (signalCode : option string)
| worker_terminated
| worker_heartbeat.

Definition worker_emit (key : string) (e : WorkerEvent) : M unit :=
  match e with
  | worker_down exitCode signalCode =>
      emit (workerDown key exitCode signalCode);;
      modify (λ s, set_promises (resolveDown key <$> promises s) s)
  | worker_up =>
      emit (workerUp key);;
      modify (λ s, set_readyJoin (resolveFor key <$> readyJoin s) s)
  | worker_terminated => emit (workerTerminated key)
  | worker_heartbeat => emit (workerHeartbeat key)
  end.

Definition workerInternalMessageHandler (key : string) (message : Act) : M unit :=
  if decide (actName message = "ready") then
    alterWorker key (set_worker_state up);;
    worker_emit key worker_up
  else if decide (actName message = "heartbeat") then
    worker_emit key worker_heartbeat
  else mret ().

(** [process.nextTick(() => this.replaceWorkerProcess(worker))] *)
Definition process_nextTick (key : string) : M unit :=
  modify (λ s, set_nextTickQueue (nextTickQueue s ++ [key]) s).

(** The ['exit'] handler that [connectWorkerProcessEvents] installs. *)
Definition onExit (key : string) (exitCode : option Z) (signalCode : option string)
  : M unit :=
  alterWorker key (set_worker_state down);;
  worker_emit key (worker_down exitCode signalCode);;
  if decide (exitCode = Some 0) then worker_emit key worker_terminated
  else process_nextTick key.

Fixpoint createWorkers (ids : list Z) (workerReadyPromises : list string)
  : M (list string) :=
  match ids with
  | [] => mret workerReadyPromises
  | id :: ids' =>
      let strId := pretty id in
      workerProcess ← createWorkerProcess strId;
      let worker := {| worker_id := strId; worker_state := down;
                       worker_process := workerProcess |} in
      let worker := connectWorkerProcessEvents worker in
      modify (λ s, set_workers (obj_set strId worker (workers s)) s);;
      createWorkers ids' (workerReadyPromises ++ [strId])
  end.

Definition createWorkerPool : M unit :=
  created ← gets workerPoolCreated;
  if created : bool then mret () else
  modify (set_workerPoolCreated true);;
  count ← gets (λ s, workerCount (settings s));
  (* [for (let id = 1; id <= workerCount; id += 1)]; no iteration when the
     bound is [undefined] *)
  workerReadyPromises ← createWorkers (seqZ 1 (default 0 count)) [];
  modify (set_readyJoin (Some workerReadyPromises)).

(** The callback of [Promise.all(workerReadyPromises).then]. *)
Definition onAllReady : M unit :=
  now ← process_hrtime;
  modify (set_heartbeatStartedAt (Some now));;
  scheduleMonitor;;
  emit workerAllUp.

Definition start : M unit :=
  modify (set_closing false);;
  createWorkerPool.

(** ** Shutdown *)

Definition raceTo (promise : list string) (ms : option Z)
    (callback : TimeoutCallback) : Race :=
  {| awaited := promise; timeout := ms; onTimeout := callback |}.

Definition gentleStop : M (list string) :=
  promise ← gets (λ s, Object_keys (workers s));
  internalSend shutdown;;
  mret promise.

Definition killProcesses (signal : Signal) : M (list string) :=
  liveWorkers ← gets (λ s, filter (λ kw, ¬ isDead kw.2) (workers s));
  if bool_decide (0 < length liveWorkers)%nat then
    emit (info_liveWorkersAtKill signal (Z.of_nat (length liveWorkers)));;
    forEach (λ kw : string * Worker,
      perform (Kill kw.1 (pid (worker_process kw.2)) signal)) liveWorkers;;
    mret (Object_keys liveWorkers)
  else
    mret [].

(** The function [killSequence(signal)] returns, applied. *)
Definition runHandler (h : Handler) : M Race :=
  match h with
  | killSequence signal =>
      promise ← killProcesses signal;
      ms ← gets (λ s, killTimeout (settings s));
      mret (raceTo promise ms (killTimedOut signal))
  end.

Definition runTimeoutCallback (callback : TimeoutCallback) : M unit :=
  match callback with
  | gentleStopTimedOut =>
      ms ← gets (λ s, gentleStopTimeout (settings s));
      emit (info_gentleStopTimeout ms)
  | killTimedOut signal =>
      ms ← gets (λ s, killTimeout (settings s));
      emit (info_killTimeout signal ms)
  end.

(** [promise.then(onFulfilled, onRejected)]: which callback runs. *)
Definition then_ (onFulfilled onRejected : Handler) (o : Outcome) : Handler :=
  match o with
  | Fulfilled _ => onFulfilled
  | Rejected => onRejected
  end.

(** A race of the chain has settled with [o]: run the remaining [.then]
    links.  A link whose awaited promise is already resolved settles in
    the same turn. *)
Fixpoint settle (o : Outcome) (thens : list (Handler * Handler)) : M Promise :=
  match thens with
  | [] => mret (Settled o)
  | (onFulfilled, onRejected) :: thens' =>
      race ← runHandler (then_ onFulfilled onRejected o);
      match awaited race with
      | [] => settle (Fulfilled false) thens'
      | _ :: _ => mret (Pending race thens')
      end
  end.

(** [stop()]; the result is the index of the returned promise. *)
Definition stop : M nat :=
  modify (set_closing true);;
  promise ← gentleStop;
  ms ← gets (λ s, gentleStopTimeout (settings s));
  let race := raceTo promise ms gentleStopTimedOut in
  i ← gets (λ s, length (promises s));
  modify (λ s, set_promises
    (promises s ++ [Pending race [(killSequence SIGTERM, killSequence SIGTERM);
                                  (killSequence SIGKILL, killSequence SIGKILL)]]) s);;
  mret i.

Definition setPromise (i : nat) (p : Promise) : M unit :=
  modify (λ s, set_promises (<[i := p]> (promises s)) s).

(** The timer of the pending race of promise [i] fires: [PROMISE_TIMEOUT]
    wins, [onTimeout] runs, and the chain goes on; [listenerThrows] tells
    whether a listener of the emitted event throws, which rejects the
    race. *)
Definition onRaceTimeout (i : nat) (listenerThrows : bool) : M unit :=
  ps ← gets promises;
  match ps !! i with
  | Some (Pending race thens) =>
      runTimeoutCallback (onTimeout race);;
      p ← settle (if listenerThrows then Rejected else Fulfilled true) thens;
      setPromise i p
  | _ => mret ()
  end.

(** ** The event loop *)

(** The reactions of promise [i], if its awaited promise has resolved. *)
Definition runReactions (i : nat) : M unit :=
  ps ← gets promises;
  match ps !! i with
  | Some (Pending race thens) =>
      match awaited race with
      | [] => p ← settle (Fulfilled false) thens; setPromise i p
      | _ :: _ => mret ()
      end
  | _ => mret ()
  end.

Definition runNextTicks : M unit :=
  queue ← gets nextTickQueue;
  modify (set_nextTickQueue []);;
  forEach replaceWorkerProcess queue.

Definition runMicrotasks : M unit :=
  join ← gets readyJoin;
  match join with
  | Some [] => modify (set_readyJoin None);; onAllReady
  | _ => mret ()
  end;;
  n ← gets (λ s, length (promises s));
  forEach runReactions (seq 0 n).

(** What runs after the current callback returns: the [nextTick] queue,
    then the promise reactions. *)
Definition drain : M unit := runNextTicks;; runMicrotasks.

(** The inputs of the supervisor: calls of its API and the callbacks the
    runtime delivers. *)
Inductive Input :=
| CallConfigure (settings' baseSettings : Settings)
| CallStart
| CallStop
| ProcessExit (key : string) (exitCode : option Z) (signalCode : option string)
| ProcessMessage (key : string) (message : Act)
| MonitorTimer
| RaceTimer (promise : nat) (listenerThrows : bool).

Definition handle (i : Input) : M unit :=
  match i with
  | CallConfigure settings' baseSettings => configure settings' baseSettings
  | CallStart => start
  | CallStop => stop;; mret ()
  | ProcessExit key exitCode signalCode =>
      withWorker key (λ worker,
        let p := worker_process worker in
        if exited p then mret ()   (* a process exits once *)
        else
          alterWorker key (λ w, setProcess (markExited p) w);;
          if exitListener p then onExit key exitCode signalCode else mret ())
  | ProcessMessage key message =>
      withWorker key (λ _, workerInternalMessageHandler key message)
  | MonitorTimer =>
      t ← gets heartbeatTimeout;
      match t with Some _ => monitorHeartbeat | None => mret () end
  | RaceTimer i listenerThrows => onRaceTimeout i listenerThrows
  end.

(** One turn of the event loop.  An exception leaves the callback (to the
    caller of the API, or as an uncaught exception); what was queued runs
    all the same. *)
Definition step (i : Input) (s : Supervisor) : Supervisor :=
  (drain (handle i s).2).2.

Definition run (inputs : list Input) (s : Supervisor) : Supervisor :=
  foldl (λ s i, step i s) s inputs.

(** The states the supervisor can be in. *)
Definition reachable (s : Supervisor) : Prop :=
  ∃ clock inputs, s = run inputs (newSupervisor clock).

(** * Reasoning about the supervisor *)

Ltac munfold := cbv [mbind M_bind mret M_ret gets modify throw perform emitInfo].

Lemma bind_Ok {A B} (m : M A) (f : A → M B) s a s' :
  m s = (Ok a, s') → (m ≫= f) s = f a s'.
Proof. unfold mbind, M_bind. by intros ->. Qed.

Lemma bind_Throw {A B} (m : M A) (f : A → M B) s e s' :
  m s = (Throw e, s') → (m ≫= f) s = (Throw e, s').
Proof. unfold mbind, M_bind. by intros ->. Qed.

(** The two messages the handler acts on. *)
Lemma workerInternalMessageHandler_ready key :
  workerInternalMessageHandler key ready
  = (alterWorker key (set_worker_state up);; worker_emit key worker_up).
Proof. reflexivity. Qed.

Lemma workerInternalMessageHandler_heartbeat key :
  workerInternalMessageHandler key heartbeat = worker_emit key worker_heartbeat.
Proof. reflexivity. Qed.

(** ** Closed forms of the straight-line methods *)

Lemma forEach_perform {A} (f : A → Effect) (l : list A) s :
  forEach (λ x, perform (f x)) l s = (Ok (), set_trace (trace s ++ (f <$> l)) s).
Proof.
  revert s. induction l as [|x l IH]; intros s; simpl.
  - rewrite app_nil_r. by destruct s.
  - erewrite bind_Ok; [|reflexivity]. rewrite IH. simpl.
    by rewrite <- app_assoc.
Qed.

Lemma internalSend_eq (a : Act) s :
  internalSend a s
  = (Ok (), set_trace (trace s ++ ((λ k, Send k a) <$> Object_keys (workers s))) s).
Proof. unfold internalSend. erewrite bind_Ok; [|reflexivity]. apply forEach_perform. Qed.

Lemma configure_ok (s : Supervisor) (settings' baseSettings : Settings) :
  configured s = false → is_Some (workerCount settings') → is_Some (workerEnv settings') →
  configure settings' baseSettings s =
   (Ok (), set_settings (set_minWorkerCount
      match spreadKey (minWorkerCount baseSettings) (minWorkerCount settings') with
       | Some v => Some v
       | None => (λ wc, if bool_decide (4 ≤ wc) then wc - 2 else wc) <$> workerCount settings' end
       (spread (spread DEFAULT_SETTINGS baseSettings) settings')) (set_configured true s)).
Proof.
  intros Hc [wc Hwc] [we Hwe]. unfold configure.
  munfold. rewrite Hc. simpl. unfold hasKey. simpl. rewrite Hwc, Hwe. simpl.
  
  destruct (minWorkerCount settings') as [m|] eqn:Hm; simpl.
  - unfold spread, set_minWorkerCount, set_settings; simpl. rewrite Hm, Hwc. reflexivity.
  - destruct (minWorkerCount baseSettings) as [m|] eqn:Hb; simpl.
    + unfold spread, set_minWorkerCount, set_settings; simpl. rewrite Hm, Hb, Hwc. reflexivity.
    + reflexivity.
Qed.

Lemma configure_twice (s : Supervisor) (settings' baseSettings : Settings) :
  configured s = true →
  configure settings' baseSettings s = (Throw (Error "poolHall already configured"), s).
Proof. intros H. unfold configure. munfold. by rewrite H. Qed.

Lemma configure_missing_workerCount (s : Supervisor) (settings' baseSettings : Settings) :
  configured s = false → workerCount settings' = None →
  configure settings' baseSettings s
  = (Throw (Error "Missing required setting 'workerCount'"), set_configured true s).
Proof.
  intros Hc Hw. unfold configure. munfold. rewrite Hc. simpl.
  unfold hasKey. simpl. by rewrite Hw.
Qed.

Lemma configure_missing_workerEnv (s : Supervisor) (settings' baseSettings : Settings) :
  configured s = false → is_Some (workerCount settings') → workerEnv settings' = None →
  configure settings' baseSettings s
  = (Throw (Error "Missing required setting 'workerEnv'"), set_configured true s).
Proof.
  intros Hc [c Hw] He. unfold configure. munfold. rewrite Hc. simpl.
  unfold hasKey. simpl. by rewrite Hw, He.
Qed.

Definition upCount (s : Supervisor) : Z :=
  Z.of_nat (length (filter (λ w, worker_state w = up) (Object_values (workers s)))).

Definition poolHealth (workersUp : Z) (count minCount : option Z) (init : bool) : Act :=
  if init then (if strictEq workersUp count then healthy else unhealthy)
  else if geq workersUp minCount then healthy else unhealthy.

Lemma setPoolHealth_eq (s : Supervisor) :
  let status := poolHealth (upCount s) (workerCount (settings s))
                           (minWorkerCount (settings s)) (initializing s) in
  setPoolHealth s =
  (Ok (),
   set_initializing (initializing s && negb (strictEq (upCount s) (workerCount (settings s))))
     (set_trace (trace s
        ++ Emit (info_workersUpCount (upCount s) (workerCount (settings s))
                                     (minWorkerCount (settings s)))
        :: ((λ k, Send k status) <$> Object_keys (workers s))) s)).
Proof.
  unfold setPoolHealth, poolHealth. munfold. simpl. fold (upCount s).
  destruct (initializing s) eqn:Hi; simpl.
  - destruct (strictEq (upCount s) (workerCount (settings s))) eqn:He; simpl.
    + rewrite internalSend_eq. simpl. unfold set_initializing, set_trace. simpl.
      rewrite <- app_assoc. reflexivity.
    + rewrite internalSend_eq. simpl. unfold set_initializing, set_trace. simpl.
      rewrite <- app_assoc, Hi. reflexivity.
  - destruct (geq (upCount s) (minWorkerCount (settings s))) eqn:He; simpl;
      rewrite internalSend_eq; simpl; unfold set_initializing, set_trace; simpl;
      rewrite <- app_assoc, Hi; reflexivity.
Qed.

Lemma recordHeartbeat_eq (workerId : string) (s : Supervisor) :
  let n := hrtimeReads s in
  recordHeartbeat workerId s =
  match orElse (heartbeatTimestamps s !! workerId) (heartbeatStartedAt s) with
  | Some past =>
      (Ok (),
       set_heartbeatTimestamps (<[workerId := hrtimeSource s (S n)]> (heartbeatTimestamps s))
         (set_hrtimeReads (S (S n))
           (set_trace (trace s ++ [Emit (info_workerHeartbeatDelta workerId
              (hrtimeToMilliseconds (hrtime_since (hrtimeSource s n) past)))]) s)))
  | None =>
      (Ok (),
       set_heartbeatTimestamps (<[workerId := hrtimeSource s n]> (heartbeatTimestamps s))
         (set_hrtimeReads (S n) s))
  end.
Proof.
  unfold recordHeartbeat, process_hrtime_since, process_hrtime. munfold. simpl.
  destruct (orElse _ _); reflexivity.
Qed.

(** ** Relational reasoning about methods *)

Section Respects.
Context (R : relation Supervisor) `{!PreOrder R}.

(** Whatever the method returns or throws, the state it leaves is related
    to the state it started from. *)
Definition respects {A} (m : M A) : Prop := ∀ s, R s (m s).2.

Lemma respects_ret {A} (a : A) : respects (mret a).
Proof. intros s. reflexivity. Qed.

Lemma respects_throw {A} (e : JsError) : respects (throw (A:=A) e).
Proof. intros s. reflexivity. Qed.

Lemma respects_gets {A} (f : Supervisor → A) : respects (gets f).
Proof. intros s. reflexivity. Qed.

Lemma respects_bind {A B} (m : M A) (f : A → M B) :
  respects m → (∀ a, respects (f a)) → respects (m ≫= f).
Proof.
  intros Hm Hf s. unfold mbind, M_bind. specialize (Hm s).
  destruct (m s) as [[a|e] s']; simpl in *; [|done].
  etrans; [exact Hm|apply Hf].
Qed.

Lemma respects_modify (g : Supervisor → Supervisor) :
  (∀ s, R s (g s)) → respects (modify g).
Proof. intros H s. apply H. Qed.

Lemma respects_forEach {A} (f : A → M unit) (l : list A) :
  (∀ x, respects (f x)) → respects (forEach f l).
Proof.
  intros Hf. induction l as [|x l IH]; simpl.
  - apply respects_ret.
  - apply respects_bind; auto.
Qed.

Lemma respects_withWorker (key : string) (f : Worker → M unit) :
  (∀ w, respects (f w)) → respects (withWorker key f).
Proof.
  intros Hf. unfold withWorker. apply respects_bind; [apply respects_gets|].
  intros o. destruct (obj_get key o); [apply Hf|apply respects_ret].
Qed.
End Respects.

Create HintDb respects discriminated.

Ltac respects_step :=
  lazymatch goal with
  | |- respects ?R (mbind _ _) => apply (respects_bind R); [|intros ?; cbv beta]
  | |- respects ?R (mret _) => apply (respects_ret R)
  | |- respects ?R (throw _) => apply (respects_throw R)
  | |- respects ?R (gets _) => apply (respects_gets R)
  | |- respects ?R (forEach _ _) => apply (respects_forEach R); intros ?; cbv beta
  | |- respects ?R (withWorker _ _) => apply (respects_withWorker R); intros ?; cbv beta
  | |- respects ?R (modify _) => apply (respects_modify R); intros ?
  | |- respects ?R (perform _) => apply (respects_modify R); intros ?
  | |- respects ?R (emitInfo _) => apply (respects_modify R); intros ?
  | |- respects ?R (setPromise _ _) => apply (respects_modify R); intros ?
  | |- respects ?R (process_nextTick _) => apply (respects_modify R); intros ?
  | |- respects _ process_hrtime => intros ?; simpl
  | |- respects _ (match ?x with _ => _ end) => destruct x
  | |- respects _ (let _ := _ in _) => cbv zeta
  end.

Ltac respects_go := repeat first [ solve [auto 1 with respects] | respects_step ].

(** ** How the state evolves *)

(** Links of the [stop()] chain still to settle. *)
Definition rank (p : option Promise) : nat :=
  match p with
  | Some (Pending _ thens) => S (length thens)
  | Some (Settled _) => 0
  | None => 3
  end.

(** What every method guarantees about the state it leaves.  [polite]
    restricts the guarantee to the methods that run no throwing listener. *)
Record evolves (polite : bool) (s s' : Supervisor) : Prop := {
  ev_initializing : initializing s = false → initializing s' = false;
  ev_clock : hrtimeSource s' = hrtimeSource s;
  ev_created : workerPoolCreated s = true → workerPoolCreated s' = true;
  ev_trace : trace s `prefix_of` trace s';
  ev_promises : (length (promises s) ≤ length (promises s'))%nat;
  ev_rank : ∀ i, (rank (promises s' !! i) ≤ rank (promises s !! i))%nat;
  ev_settled : ∀ i o,
    promises s !! i = Some (Settled o) → promises s' !! i = Some (Settled o);
  (* as long as no listener of a timeout event throws, no promise is rejected *)
  ev_rejected : polite = true → ∀ i,
    promises s' !! i = Some (Settled Rejected) →
    promises s !! i = Some (Settled Rejected);
}.

#[global] Instance evolves_preorder polite : PreOrder (evolves polite).
Proof.
  split.
  - intros s. split; auto.
  - intros s1 s2 s3 [] []. split; auto.
    + congruence.
    + by etrans.
    + lia.
    + intros i. etrans; eauto.
Qed.

(** The worker table keeps its keys and every worker its id. *)
Record steady (polite : bool) (s s' : Supervisor) : Prop := {
  steady_evolves : evolves polite s s';
  steady_keys : Object_keys (workers s') = Object_keys (workers s);
  steady_ids : ∀ k,
    worker_id <$> obj_get k (workers s') = worker_id <$> obj_get k (workers s);
}.

#[global] Instance steady_preorder polite : PreOrder (steady polite).
Proof.
  split.
  - intros s. split; auto. reflexivity.
  - intros s1 s2 s3 [] []. split.
    + by etrans.
    + congruence.
    + intros k. congruence.
Qed.

Lemma obj_alter_keys f k o : Object_keys (obj_alter f k o) = Object_keys o.
Proof.
  unfold Object_keys. induction o as [|[k' w] o IH]; [done|]. simpl.
  destruct (decide (k' = k)); csimpl; [done|by rewrite IH].
Qed.

Lemma obj_get_alter f k k' o :
  obj_get k' (obj_alter f k o)
  = if decide (k = k') then f <$> obj_get k' o else obj_get k' o.
Proof.
  induction o as [|[k0 w] o IH]; simpl.
  - by destruct (decide _).
  - destruct (decide (k0 = k)) as [->|]; simpl.
    + destruct (decide (k = k')); simpl; [done|].
      destruct (decide (k = k')); done.
    + destruct (decide (k0 = k')) as [->|]; simpl.
      * destruct (decide (k = k')); [congruence|done].
      * done.
Qed.

Lemma rank_resolveDown key (ps : list Promise) i :
  rank ((resolveDown key <$> ps) !! i) = rank (ps !! i).
Proof. rewrite list_lookup_fmap. by destruct (ps !! i) as [[]|]. Qed.

Section Evolving.
Context (polite : bool).

Ltac evolves_leaf :=
  split; simpl; intros;
  try first [ done | by apply prefix_app_r | lia ].

Ltac steady_leaf :=
  split; [evolves_leaf| simpl; rewrite ?obj_alter_keys; done
         | intros; simpl; done].

Lemma steady_perform e : respects (steady polite) (perform e).
Proof. respects_go. steady_leaf. Qed.
Lemma steady_emitInfo e : respects (steady polite) (emitInfo e).
Proof. apply steady_perform. Qed.
Lemma steady_process_hrtime : respects (steady polite) process_hrtime.
Proof. intros s. simpl. steady_leaf. Qed.
#[local] Hint Resolve steady_perform steady_emitInfo steady_process_hrtime : respects.

Lemma steady_process_hrtime_since past : respects (steady polite) (process_hrtime_since past).
Proof. unfold process_hrtime_since. respects_go. Qed.
#[local] Hint Resolve steady_process_hrtime_since : respects.

Lemma steady_alterWorker key f :
  (∀ w, worker_id (f w) = worker_id w) → respects (steady polite) (alterWorker key f).
Proof.
  intros Hf. respects_go. split; [evolves_leaf|apply obj_alter_keys|].
  intros k. simpl. rewrite obj_get_alter. destruct (decide (key = k)); [|done].
  destruct (obj_get k (workers s)); simpl; [|done]. by rewrite Hf.
Qed.

Lemma steady_alter_state key v : respects (steady polite) (alterWorker key (set_worker_state v)).
Proof. by apply steady_alterWorker. Qed.
Lemma steady_alter_process key p : respects (steady polite) (alterWorker key (setProcess p)).
Proof. by apply steady_alterWorker. Qed.
Lemma steady_alter_connect key :
  respects (steady polite) (alterWorker key connectWorkerProcessEvents).
Proof. by apply steady_alterWorker. Qed.
#[local] Hint Resolve steady_alter_state steady_alter_process steady_alter_connect
  : respects.

Lemma steady_internalSend a : respects (steady polite) (internalSend a).
Proof. unfold internalSend, worker_send. respects_go. Qed.
#[local] Hint Resolve steady_internalSend : respects.

Lemma steady_setPoolHealth : respects (steady polite) setPoolHealth.
Proof. unfold setPoolHealth. respects_go. steady_leaf. Qed.
#[local] Hint Resolve steady_setPoolHealth : respects.

Lemma steady_recordHeartbeat workerId : respects (steady polite) (recordHeartbeat workerId).
Proof. unfold recordHeartbeat. respects_go. steady_leaf. Qed.
#[local] Hint Resolve steady_recordHeartbeat : respects.

Lemma steady_emit e : respects (steady polite) (emit e).
Proof. unfold emit. respects_go. Qed.
#[local] Hint Resolve steady_emit : respects.

Lemma steady_scheduleMonitor : respects (steady polite) scheduleMonitor.
Proof. unfold scheduleMonitor. respects_go; steady_leaf. Qed.
#[local] Hint Resolve steady_scheduleMonitor : respects.

Lemma steady_monitorHeartbeat : respects (steady polite) monitorHeartbeat.
Proof. unfold monitorHeartbeat. respects_go. Qed.
#[local] Hint Resolve steady_monitorHeartbeat : respects.

Lemma steady_configure settings' baseSettings :
  respects (steady polite) (configure settings' baseSettings).
Proof. unfold configure. respects_go; steady_leaf. Qed.
#[local] Hint Resolve steady_configure : respects.

Lemma steady_createWorkerProcess id : respects (steady polite) (createWorkerProcess id).
Proof. unfold createWorkerProcess, fork. respects_go; steady_leaf. Qed.
#[local] Hint Resolve steady_createWorkerProcess : respects.

Lemma steady_replaceWorkerProcess key : respects (steady polite) (replaceWorkerProcess key).
Proof.
  unfold replaceWorkerProcess. respects_go.
Qed.
#[local] Hint Resolve steady_replaceWorkerProcess : respects.

Lemma steady_worker_emit key e : respects (steady polite) (worker_emit key e).
Proof.
  unfold worker_emit. respects_go.
  - steady_leaf.
  - split; [|done..]. split; simpl; intros; try done.
    + by rewrite length_fmap.
    + by rewrite rank_resolveDown.
    + rewrite list_lookup_fmap. by rewrite H.
    + rewrite list_lookup_fmap in H0.
      by destruct (promises s !! i) as [[]|].
Qed.
#[local] Hint Resolve steady_worker_emit : respects.

Lemma steady_workerInternalMessageHandler key message :
  respects (steady polite) (workerInternalMessageHandler key message).
Proof. unfold workerInternalMessageHandler. respects_go. Qed.
#[local] Hint Resolve steady_workerInternalMessageHandler : respects.

Lemma steady_onExit key exitCode signalCode :
  respects (steady polite) (onExit key exitCode signalCode).
Proof. unfold onExit. respects_go. steady_leaf. Qed.
#[local] Hint Resolve steady_onExit : respects.

Lemma steady_onAllReady : respects (steady polite) onAllReady.
Proof. unfold onAllReady. respects_go. steady_leaf. Qed.
#[local] Hint Resolve steady_onAllReady : respects.

Lemma steady_gentleStop : respects (steady polite) gentleStop.
Proof. unfold gentleStop. respects_go. Qed.
Lemma steady_killProcesses signal : respects (steady polite) (killProcesses signal).
Proof. unfold killProcesses. respects_go. Qed.
#[local] Hint Resolve steady_gentleStop steady_killProcesses : respects.

Lemma steady_runHandler h : respects (steady polite) (runHandler h).
Proof. unfold runHandler. respects_go. Qed.
Lemma steady_runTimeoutCallback callback : respects (steady polite) (runTimeoutCallback callback).
Proof. unfold runTimeoutCallback. respects_go. Qed.
#[local] Hint Resolve steady_runHandler steady_runTimeoutCallback : respects.

Lemma steady_settle o thens : respects (steady polite) (settle o thens).
Proof.
  revert o. induction thens as [|[h1 h2] thens IH]; intros o; simpl; respects_go.
Qed.
#[local] Hint Resolve steady_settle : respects.

Lemma steady_stop : respects (steady polite) stop.
Proof.
  unfold stop. respects_go; try steady_leaf.
  - rewrite length_app. lia.
  - destruct (decide (i < length (promises s))%nat).
    + by rewrite lookup_app_l.
    + rewrite (lookup_ge_None_2 (promises s)) by lia. simpl.
      destruct (decide (i = length (promises s))) as [->|].
      * rewrite list_lookup_middle; [simpl; lia|done].
      * rewrite lookup_ge_None_2; [done|]. rewrite length_app. simpl. lia.
  - apply lookup_app_l_Some. done.
  - apply lookup_app_Some in H0 as [?|[_ H0]]; [done|].
    by destruct (i - length (promises s))%nat as [|[]].
Qed.
#[local] Hint Resolve steady_stop : respects.

(** The workers a kill sweep signals. *)
Definition liveWorkers (s : Supervisor) : list (string * Worker) :=
  filter (λ kw, ¬ isDead kw.2) (workers s).

Lemma killProcesses_eq signal s :
  killProcesses signal s =
  match liveWorkers s with
  | [] => (Ok [], s)
  | _ :: _ =>
      (Ok (Object_keys (liveWorkers s)),
       set_trace (trace s
         ++ Emit (info_liveWorkersAtKill signal (Z.of_nat (length (liveWorkers s))))
         :: ((λ kw : string * Worker, Kill kw.1 (pid (worker_process kw.2)) signal)
               <$> liveWorkers s)) s)
  end.
Proof.
  unfold killProcesses. erewrite bind_Ok; [|reflexivity]. fold (liveWorkers s).
  destruct (liveWorkers s) as [|kw l] eqn:Hl; [done|].
  rewrite bool_decide_eq_true_2 by (simpl; lia).
  erewrite bind_Ok; [|reflexivity].
  erewrite bind_Ok; [|apply forEach_perform].
  simpl. unfold set_trace. simpl. by rewrite <- app_assoc.
Qed.

Lemma runHandler_total h s :
  ∃ race s', runHandler h s = (Ok race, s') ∧ promises s' = promises s.
Proof.
  destruct h as [signal]. unfold runHandler, mbind, M_bind.
  rewrite killProcesses_eq. destruct (liveWorkers s); simpl; eauto.
Qed.

Lemma settle_total o thens s :
  ∃ p s', settle o thens s = (Ok p, s')
          ∧ promises s' = promises s
          ∧ (rank (Some p) ≤ length thens)%nat
          ∧ (o ≠ Rejected → p ≠ Settled Rejected).
Proof.
  revert o s. induction thens as [|[h1 h2] thens IH]; intros o s; simpl.
  - eexists _, _. repeat split; eauto. congruence.
  - destruct (runHandler_total (then_ h1 h2 o) s) as (race & s1 & Hr & Hp).
    erewrite bind_Ok; [|exact Hr].
    destruct (awaited race).
    + destruct (IH (Fulfilled false) s1) as (p & s2 & -> & Hp' & Hk & Hj).
      exists p, s2. split; [done|]. split; [congruence|].
      split; [simpl in *; lia|]. intros _. by apply Hj.
    + simpl. eexists _, _. split; [done|]. split; [done|]. simpl.
      split; [lia|done].
Qed.

Lemma rank_insert (ps : list Promise) i p j :
  (rank (Some p) ≤ rank (ps !! i))%nat →
  (rank (<[i := p]> ps !! j) ≤ rank (ps !! j))%nat.
Proof.
  intros H. destruct (decide (i = j)) as [->|].
  - destruct (decide (j < length ps)%nat).
    + by rewrite list_lookup_insert_eq.
    + by rewrite list_insert_ge by lia.
  - by rewrite list_lookup_insert_ne.
Qed.

(** Replacing a pending promise by what its chain settles to. *)
Lemma steady_setPromise s s' i p race thens :
  steady polite s s' → promises s' = promises s →
  promises s !! i = Some (Pending race thens) →
  (rank (Some p) ≤ length thens)%nat →
  (polite = true → p ≠ Settled Rejected) →
  steady polite s (set_promises (<[i := p]> (promises s')) s').
Proof.
  intros Hs Hp Hi Hr Hj. etrans; [exact Hs|]. rewrite Hp.
  split; [|done..]. split; simpl; intros; try done.
  - rewrite Hp. by rewrite length_insert.
  - rewrite Hp. apply rank_insert. etrans; [exact Hr|]. rewrite Hi. simpl. lia.
  - rewrite Hp in H. rewrite list_lookup_insert_ne; [done|]. congruence.
  - rewrite Hp in *. destruct (decide (i = i0)) as [<-|].
    + apply list_lookup_insert_Some in H0 as [(_ & Hx & _)|[? _]]; [|done].
      by destruct (Hj H Hx).
    + by rewrite list_lookup_insert_ne in H0.
Qed.

Lemma steady_runReactions i : respects (steady polite) (runReactions i).
Proof.
  intros s. unfold runReactions. erewrite bind_Ok; [|reflexivity].
  destruct (promises s !! i) as [[race thens|]|] eqn:Hi; try reflexivity.
  destruct (awaited race); [|reflexivity].
  pose proof (steady_settle (Fulfilled false) thens s) as Hst.
  destruct (settle_total (Fulfilled false) thens s) as (p & s' & Hs & Hp & Hr & Hj).
  rewrite Hs in Hst. erewrite bind_Ok; [|exact Hs]. simpl.
  eapply steady_setPromise; eauto.
Qed.
#[local] Hint Resolve steady_runReactions : respects.

Lemma runTimeoutCallback_total callback s :
  ∃ s', runTimeoutCallback callback s = (Ok (), s') ∧ promises s' = promises s.
Proof. destruct callback; eexists; split; reflexivity. Qed.

Lemma steady_onRaceTimeout i listenerThrows :
  (polite = true → listenerThrows = false) →
  respects (steady polite) (onRaceTimeout i listenerThrows).
Proof.
  intros Hpolite s. unfold onRaceTimeout. erewrite bind_Ok; [|reflexivity].
  destruct (promises s !! i) as [[race thens|]|] eqn:Hi; try reflexivity.
  pose proof (steady_runTimeoutCallback (onTimeout race) s) as Hst1.
  destruct (runTimeoutCallback_total (onTimeout race) s) as (s1 & Hc & Hcp).
  rewrite Hc in Hst1. erewrite bind_Ok; [|exact Hc].
  set (o := if listenerThrows then Rejected else Fulfilled true).
  pose proof (steady_settle o thens s1) as Hst2.
  destruct (settle_total o thens s1) as (p & s2 & Hs & Hp & Hr & Hj).
  rewrite Hs in Hst2. erewrite bind_Ok; [|exact Hs]. simpl.
  eapply steady_setPromise; eauto.
  - by etrans.
  - congruence.
  - intros H. apply Hj. unfold o. by rewrite (Hpolite H).
Qed.

Lemma steady_runNextTicks : respects (steady polite) runNextTicks.
Proof. unfold runNextTicks. respects_go. steady_leaf. Qed.
Lemma steady_runMicrotasks : respects (steady polite) runMicrotasks.
Proof. unfold runMicrotasks. respects_go; steady_leaf. Qed.
#[local] Hint Resolve steady_runNextTicks steady_runMicrotasks : respects.
Lemma steady_drain : respects (steady polite) drain.
Proof. unfold drain. respects_go. Qed.
#[local] Hint Resolve steady_drain : respects.

Lemma respects_weaken (R R' : relation Supervisor) {A} (m : M A) :
  (∀ s s', R s s' → R' s s') → respects R m → respects R' m.
Proof. intros H Hm s. apply H, Hm. Qed.

Lemma evolves_of_steady {A} (m : M A) : respects (steady polite) m → respects (evolves polite) m.
Proof. apply respects_weaken. by intros s s' []. Qed.

Lemma evolves_createWorkers ids acc : respects (evolves polite) (createWorkers ids acc).
Proof.
  revert acc. induction ids as [|id ids IH]; intros acc; simpl; respects_go.
  - apply evolves_of_steady. auto with respects.
  - evolves_leaf.
Qed.

#[local] Hint Resolve evolves_createWorkers : respects.

Lemma evolves_createWorkerPool : respects (evolves polite) createWorkerPool.
Proof.
  unfold createWorkerPool. respects_go; evolves_leaf.
Qed.
#[local] Hint Resolve evolves_createWorkerPool : respects.

Lemma createWorkerPool_created s :
  workerPoolCreated s = true → createWorkerPool s = (Ok (), s).
Proof. intros H. unfold createWorkerPool. munfold. by rewrite H. Qed.

Lemma evolves_start : respects (evolves polite) start.
Proof.
  unfold start. respects_go. evolves_leaf.
Qed.

Lemma steady_start s : workerPoolCreated s = true → steady polite s (start s).2.
Proof.
  intros H. unfold start. erewrite bind_Ok; [|reflexivity].
  rewrite createWorkerPool_created by done. simpl. steady_leaf.
Qed.

(** The inputs that run a throwing listener. *)
Definition throwing (i : Input) : bool :=
  match i with RaceTimer _ listenerThrows => listenerThrows | _ => false end.

Lemma steady_handle i :
  i ≠ CallStart → (polite = true → throwing i = false) →
  respects (steady polite) (handle i).
Proof.
  intros Hi Hp. destruct i; simpl; try done; respects_go.
  by apply steady_onRaceTimeout.
Qed.

Lemma evolves_handle i :
  (polite = true → throwing i = false) → respects (evolves polite) (handle i).
Proof.
  intros Hp. destruct i; try (by apply evolves_of_steady, steady_handle).
  apply evolves_start.
Qed.

Lemma evolves_step i s :
  (polite = true → throwing i = false) → evolves polite s (step i s).
Proof.
  intros Hp. unfold step. etrans; [by apply evolves_handle|].
  apply evolves_of_steady, steady_drain.
Qed.

Lemma steady_step i s :
  (polite = true → throwing i = false) →
  workerPoolCreated s = true → steady polite s (step i s).
Proof.
  intros Hp H. unfold step. etrans; [|apply steady_drain].
  destruct i; try (by apply steady_handle).
  by apply steady_start.
Qed.

Lemma run_snoc inputs i s : run (inputs ++ [i]) s = step i (run inputs s).
Proof. unfold run. by rewrite foldl_app. Qed.

Lemma evolves_run inputs s :
  (polite = true → Forall (λ i, throwing i = false) inputs) →
  evolves polite s (run inputs s).
Proof.
  induction inputs as [|i inputs IH] using rev_ind; intros Hp; [reflexivity|].
  rewrite run_snoc. etrans.
  - apply IH. intros H. by apply Forall_app in Hp as [? _].
  - apply evolves_step. intros H. apply Forall_app in Hp as [_ Hp]; [|done].
    exact (Forall_inv Hp).
Qed.

Lemma steady_run inputs s :
  (polite = true → Forall (λ i, throwing i = false) inputs) →
  workerPoolCreated s = true → steady polite s (run inputs s).
Proof.
  intros Hp H. induction inputs as [|i inputs IH] using rev_ind; [reflexivity|].
  assert (polite = true → Forall (λ i, throwing i = false) inputs) as Hp1.
  { intros Ht. by apply Forall_app in Hp as [? _]. }
  assert (polite = true → throwing i = false) as Hp2.
  { intros Ht. apply Forall_app in Hp as [_ Hp]; [|done].
    exact (Forall_inv Hp). }
  rewrite run_snoc. etrans; [by apply IH|]. apply steady_step; [done|].
  by apply (ev_created _ _ _ (evolves_run inputs s Hp1)).
Qed.
End Evolving.

(** ** The worker table *)

Lemma obj_alter_nil f k o : obj_alter f k o = [] ↔ o = [].
Proof.
  destruct o as [|[k' w] o]; simpl; [done|]. by destruct (decide (k' = k)).
Qed.

Lemma obj_alter_alter f g k o :
  obj_alter f k (obj_alter g k o) = obj_alter (f ∘ g) k o.
Proof.
  induction o as [|[k' w] o IH]; simpl; [done|].
  destruct (decide (k' = k)) as [->|]; simpl.
  - by rewrite decide_True.
  - rewrite decide_False by done. by rewrite IH.
Qed.

Lemma obj_get_Some_keys k o w : obj_get k o = Some w → k ∈ Object_keys o.
Proof.
  unfold Object_keys. induction o as [|[k' w'] o IH]; simpl; [done|].
  destruct (decide (k' = k)) as [->|]; csimpl; [left|right; auto].
Qed.

Lemma obj_get_None_keys k o : obj_get k o = None ↔ k ∉ Object_keys o.
Proof.
  unfold Object_keys. induction o as [|[k' w'] o IH]; csimpl.
  - split; [|done]. intros _. apply not_elem_of_nil.
  - destruct (decide (k' = k)) as [->|]; csimpl.
    + split; [done|]. intros H. destruct H. left.
    + rewrite IH, not_elem_of_cons. naive_solver.
Qed.

Lemma obj_set_keys k w o :
  Object_keys (obj_set k w o)
  = if decide (k ∈ Object_keys o) then Object_keys o else Object_keys o ++ [k].
Proof.
  unfold Object_keys. induction o as [|[k' w'] o IH].
  - destruct (decide (k ∈ (@nil (string * Worker)).*1)) as [H|];
      [by apply elem_of_nil in H|done].
  - simpl. destruct (decide (k' = k)) as [->|]; csimpl.
    + destruct (decide (k ∈ k :: o.*1)) as [|H]; [done|]. destruct H. left.
    + rewrite IH. destruct (decide (k ∈ o.*1)), (decide (k ∈ k' :: o.*1)) as [|H];
        try done.
      * destruct H. by right.
      * set_solver.
Qed.

Lemma obj_get_set k w o k' :
  obj_get k' (obj_set k w o) = if decide (k = k') then Some w else obj_get k' o.
Proof.
  induction o as [|[k0 w0] o IH]; simpl.
  - done.
  - destruct (decide (k0 = k)) as [->|]; simpl.
    + destruct (decide (k = k')); done.
    + destruct (decide (k0 = k')) as [->|]; [|done].
      by rewrite decide_False.
Qed.

Lemma obj_set_not_nil k w o : obj_set k w o ≠ [].
Proof. destruct o as [|[k' w'] o]; simpl; [done|]. by destruct (decide _). Qed.

Lemma obj_set_NoDup k w o :
  NoDup (Object_keys o) → NoDup (Object_keys (obj_set k w o)).
Proof.
  intros H. rewrite obj_set_keys. destruct (decide _); [done|].
  apply NoDup_app. split; [done|]. split; [|apply NoDup_singleton].
  intros x Hx ->%list_elem_of_singleton. done.
Qed.

(** ** The structural invariant *)

Record Inv (s : Supervisor) : Prop := {
  inv_nodup : NoDup (Object_keys (workers s));
  inv_ids : ∀ k w, obj_get k (workers s) = Some w → worker_id w = k;
  inv_launch : workers s ≠ [] →
    is_Some (workerEnv (settings s)) ∧ is_Some (execArgv (settings s));
  inv_listener : ∀ k w, obj_get k (workers s) = Some w →
    isDead w = false → exitListener (worker_process w) = true;
  inv_configured : configured s = false → settings s = emptySettings;
  inv_created : workers s ≠ [] → workerPoolCreated s = true;
}.

Definition keeps (s s' : Supervisor) : Prop := Inv s → Inv s'.

#[global] Instance keeps_preorder : PreOrder keeps.
Proof. split; unfold keeps; [by intros s|intros s1 s2 s3; auto]. Qed.

Ltac keeps_leaf := intros []; split; simpl; auto.

Lemma keeps_perform e : respects keeps (perform e).
Proof. respects_go. keeps_leaf. Qed.
Lemma keeps_emitInfo e : respects keeps (emitInfo e).
Proof. apply keeps_perform. Qed.
Lemma keeps_process_hrtime : respects keeps process_hrtime.
Proof. intros s. simpl. keeps_leaf. Qed.
#[global] Hint Resolve keeps_perform keeps_emitInfo keeps_process_hrtime : respects.
Lemma keeps_process_hrtime_since past : respects keeps (process_hrtime_since past).
Proof. unfold process_hrtime_since. respects_go. Qed.
#[global] Hint Resolve keeps_process_hrtime_since : respects.

Lemma keeps_alterWorker key f :
  (∀ w, worker_id (f w) = worker_id w) →
  (∀ w, (isDead w = false → exitListener (worker_process w) = true) →
        isDead (f w) = false → exitListener (worker_process (f w)) = true) →
  respects keeps (alterWorker key f).
Proof.
  intros Hid Hl s []. split; simpl; auto.
  - by rewrite obj_alter_keys.
  - intros k w. rewrite obj_get_alter. destruct (decide (key = k)); [|by eauto].
    destruct (obj_get k (workers s)) eqn:Hg; [|done]. simpl. intros [= <-].
    rewrite Hid. eauto.
  - intros H. apply inv_launch0. by rewrite obj_alter_nil in H.
  - intros k w. rewrite obj_get_alter. destruct (decide (key = k)); [|by eauto].
    destruct (obj_get k (workers s)) eqn:Hg; [|done]. simpl. intros [= <-].
    apply Hl. eauto.
  - intros H. apply inv_created0. by rewrite obj_alter_nil in H.
Qed.

Lemma keeps_alter_state key v : respects keeps (alterWorker key (set_worker_state v)).
Proof. apply keeps_alterWorker; auto. Qed.
Lemma keeps_alter_exited key p :
  respects keeps (alterWorker key (λ w, setProcess (markExited p) w)).
Proof. apply keeps_alterWorker; auto. Qed.
#[global] Hint Resolve keeps_alter_state keeps_alter_exited : respects.

Lemma keeps_internalSend a : respects keeps (internalSend a).
Proof. unfold internalSend, worker_send. respects_go. Qed.
#[global] Hint Resolve keeps_internalSend : respects.
Lemma keeps_setPoolHealth : respects keeps setPoolHealth.
Proof. unfold setPoolHealth. respects_go. keeps_leaf. Qed.
#[global] Hint Resolve keeps_setPoolHealth : respects.
Lemma keeps_recordHeartbeat workerId : respects keeps (recordHeartbeat workerId).
Proof. unfold recordHeartbeat. respects_go. keeps_leaf. Qed.
#[global] Hint Resolve keeps_recordHeartbeat : respects.
Lemma keeps_emit e : respects keeps (emit e).
Proof. unfold emit. respects_go. Qed.
#[global] Hint Resolve keeps_emit : respects.
Lemma keeps_scheduleMonitor : respects keeps scheduleMonitor.
Proof. unfold scheduleMonitor. respects_go; keeps_leaf. Qed.
#[global] Hint Resolve keeps_scheduleMonitor : respects.
Lemma keeps_monitorHeartbeat : respects keeps monitorHeartbeat.
Proof. unfold monitorHeartbeat. respects_go. Qed.
#[global] Hint Resolve keeps_monitorHeartbeat : respects.

(** The effect of launching the process of worker [id]. *)
Definition launch (s : Supervisor) (perWorker : string → gmap string string)
    (flags : list string) (id : string) : Effect :=
  Fork (nextPid s) (exec (settings s)) (args (settings s))
    (<["POOL_HALL_HEARTBEAT_INTERVAL" := template (heartbeatWorkerInterval (settings s))]>
       (<["POOL_HALL_ID" := id]> (perWorker id ∪ default ∅ (env (settings s)))))
    flags.

Lemma createWorkerProcess_eq id s :
  createWorkerProcess id s =
  match workerEnv (settings s), execArgv (settings s) with
  | Some perWorker, Some flags =>
      (Ok {| pid := nextPid s; exited := false; exitListener := false |},
       set_trace (trace s ++ [launch s perWorker flags id])
         (set_nextPid (S (nextPid s)) s))
  | None, _ => (Throw (TypeError "this.settings.workerEnv is not a function"), s)
  | Some _, None => (Throw (TypeError "this.settings.execArgv is not iterable"), s)
  end.
Proof.
  unfold createWorkerProcess, fork. munfold. simpl.
  destruct (workerEnv (settings s)); [|done].
  destruct (execArgv (settings s)); done.
Qed.

Lemma replaceWorkerProcess_eq key s :
  replaceWorkerProcess key s =
  if closing s then (Ok (), s) else
  match obj_get key (workers s) with
  | None => (Ok (), s)
  | Some worker =>
      match createWorkerProcess (worker_id worker) s with
      | (Ok p, s1) =>
          (Ok (), set_workers (obj_alter (connectWorkerProcessEvents ∘ setProcess p)
                                 key (workers s1)) s1)
      | (Throw e, s1) => (Throw e, s1)
      end
  end.
Proof.
  unfold replaceWorkerProcess, withWorker, alterWorker. munfold.
  destruct (closing s); [done|]. simpl.
  destruct (obj_get key (workers s)) as [worker|]; [|done].
  destruct (createWorkerProcess (worker_id worker) s) as [[p|e] s1]; [|done].
  unfold set_workers. simpl. by rewrite obj_alter_alter.
Qed.

Lemma keeps_createWorkerProcess id : respects keeps (createWorkerProcess id).
Proof. unfold createWorkerProcess, fork. respects_go; keeps_leaf. Qed.
#[global] Hint Resolve keeps_createWorkerProcess : respects.

Lemma keeps_replaceWorkerProcess key : respects keeps (replaceWorkerProcess key).
Proof.
  intros s. rewrite replaceWorkerProcess_eq. destruct (closing s); [done|].
  destruct (obj_get key (workers s)) as [worker|]; [|done].
  pose proof (keeps_createWorkerProcess (worker_id worker) s) as Hc.
  destruct (createWorkerProcess (worker_id worker) s) as [[p|e] s1]; [|done].
  simpl in *. etrans; [exact Hc|].
  apply (keeps_alterWorker key (connectWorkerProcessEvents ∘ setProcess p)); done.
Qed.
#[global] Hint Resolve keeps_replaceWorkerProcess : respects.

Lemma keeps_configure settings' baseSettings :
  respects keeps (configure settings' baseSettings).
Proof.
  intros s HI. destruct (configured s) eqn:Hc.
  - by rewrite configure_twice.
  - assert (workers s = []) as Hw.
    { destruct (workers s) eqn:Hw; [done|].
      destruct (inv_launch s HI) as [[f Hf] _]; [by rewrite Hw|].
      by rewrite (inv_configured s HI Hc) in Hf. }
    assert (∀ cfg, Inv (set_settings cfg (set_configured true s))) as Hcfg.
    { intros cfg. destruct HI. split; simpl; auto; try done. }
    destruct (workerCount settings') as [c|] eqn:Hwc.
    + destruct (workerEnv settings') as [f|] eqn:Hwe.
      * rewrite configure_ok by (rewrite ?Hwc, ?Hwe; eauto). apply Hcfg.
      * rewrite configure_missing_workerEnv by (rewrite ?Hwc; eauto).
        destruct HI. split; simpl; auto; done.
    + rewrite configure_missing_workerCount by done.
      destruct HI. split; simpl; auto; done.
Qed.
#[global] Hint Resolve keeps_configure : respects.

Lemma keeps_worker_emit key e : respects keeps (worker_emit key e).
Proof. unfold worker_emit. respects_go; keeps_leaf. Qed.
#[global] Hint Resolve keeps_worker_emit : respects.
Lemma keeps_workerInternalMessageHandler key message :
  respects keeps (workerInternalMessageHandler key message).
Proof. unfold workerInternalMessageHandler. respects_go. Qed.
#[global] Hint Resolve keeps_workerInternalMessageHandler : respects.
Lemma keeps_onExit key exitCode signalCode :
  respects keeps (onExit key exitCode signalCode).
Proof. unfold onExit. respects_go. keeps_leaf. Qed.
#[global] Hint Resolve keeps_onExit : respects.
Lemma keeps_onAllReady : respects keeps onAllReady.
Proof. unfold onAllReady. respects_go. keeps_leaf. Qed.
#[global] Hint Resolve keeps_onAllReady : respects.
Lemma keeps_gentleStop : respects keeps gentleStop.
Proof. unfold gentleStop. respects_go. Qed.
Lemma keeps_killProcesses signal : respects keeps (killProcesses signal).
Proof. unfold killProcesses. respects_go. Qed.
#[global] Hint Resolve keeps_gentleStop keeps_killProcesses : respects.
Lemma keeps_runHandler h : respects keeps (runHandler h).
Proof. unfold runHandler. respects_go. Qed.
Lemma keeps_runTimeoutCallback callback : respects keeps (runTimeoutCallback callback).
Proof. unfold runTimeoutCallback. respects_go. Qed.
#[global] Hint Resolve keeps_runHandler keeps_runTimeoutCallback : respects.
Lemma keeps_settle o thens : respects keeps (settle o thens).
Proof.
  revert o. induction thens as [|[h1 h2] thens IH]; intros o; simpl; respects_go.
Qed.
#[global] Hint Resolve keeps_settle : respects.
Lemma keeps_stop : respects keeps stop.
Proof. unfold stop. respects_go; keeps_leaf. Qed.
#[global] Hint Resolve keeps_stop : respects.
Lemma keeps_onRaceTimeout i listenerThrows :
  respects keeps (onRaceTimeout i listenerThrows).
Proof. unfold onRaceTimeout. respects_go; keeps_leaf. Qed.
Lemma keeps_runReactions i : respects keeps (runReactions i).
Proof. unfold runReactions. respects_go; keeps_leaf. Qed.
#[global] Hint Resolve keeps_onRaceTimeout keeps_runReactions : respects.
Lemma keeps_runNextTicks : respects keeps runNextTicks.
Proof. unfold runNextTicks. respects_go. keeps_leaf. Qed.
Lemma keeps_runMicrotasks : respects keeps runMicrotasks.
Proof. unfold runMicrotasks. respects_go; keeps_leaf. Qed.
#[global] Hint Resolve keeps_runNextTicks keeps_runMicrotasks : respects.
Lemma keeps_drain : respects keeps drain.
Proof. unfold drain. respects_go. Qed.
#[global] Hint Resolve keeps_drain : respects.

(** Pool creation: the loop adds one worker per id. *)
Lemma createWorkers_spec (ids : list Z) (acc : list string) (s : Supervisor) r s' :
  createWorkers ids acc s = (r, s') →
  Inv s → workerPoolCreated s = true →
  Inv s' ∧ workerPoolCreated s' = true
  ∧ (∀ ready, r = Ok ready →
       ready = acc ++ (pretty <$> ids)
       ∧ (NoDup ids → (∀ id, id ∈ ids → pretty id ∉ Object_keys (workers s)) →
          Object_keys (workers s') = Object_keys (workers s) ++ (pretty <$> ids))).
Proof.
  revert acc s. induction ids as [|id ids IH]; intros acc s Heq HI Hc.
  - injection Heq as <- <-. split; [done|]. split; [done|]. intros ready [= <-].
    by rewrite !app_nil_r.
  - cbn [createWorkers] in Heq. unfold mbind at 1 in Heq. unfold M_bind at 1 in Heq.
    rewrite createWorkerProcess_eq in Heq.
    destruct (workerEnv (settings s)) as [perWorker|] eqn:He;
      [|injection Heq as <- <-; split; [done|split; [done|intros ? [=]]]].
    destruct (execArgv (settings s)) as [flags|] eqn:Ha;
      [|injection Heq as <- <-; split; [done|split; [done|intros ? [=]]]].
    erewrite bind_Ok in Heq; [|reflexivity].
    match type of Heq with createWorkers ids _ ?s1 = _ => set (s1' := s1) in * end.
    assert (Inv s1') as HI'.
    { unfold s1'. destruct HI. split; simpl; auto.
      - by apply obj_set_NoDup.
      - intros k w. rewrite obj_get_set. destruct (decide _) as [<-|]; [|by eauto].
        by intros [= <-].
      - intros k w. rewrite obj_get_set. destruct (decide _) as [<-|]; [|by eauto].
        by intros [= <-]. }
    destruct (IH _ _ Heq HI' Hc) as (HI2 & Hc2 & Hr). split; [done|]. split; [done|].
    intros ready Hready. destruct (Hr ready Hready) as [-> Hk].
    split; [by rewrite <- app_assoc|].
    intros [Hid Hnd]%NoDup_cons Hfresh. rewrite Hk; [|done|].
    + unfold s1'. simpl. rewrite obj_set_keys. rewrite decide_False.
      * by rewrite <- app_assoc.
      * apply Hfresh. left.
    + intros id' Hid'. unfold s1'. simpl. rewrite obj_set_keys.
      rewrite decide_False by (apply Hfresh; left).
      rewrite not_elem_of_app. split; [apply Hfresh; by right|].
      rewrite list_elem_of_singleton. intros Heq'%(inj pretty). congruence.
Qed.

Lemma seqZ_NoDup (m n : Z) : NoDup (seqZ m n).
Proof. apply NoDup_seqZ. Qed.

Lemma createWorkerPool_spec (s : Supervisor) :
  Inv s →
  let r := createWorkerPool s in
  Inv r.2
  ∧ (workerPoolCreated s = false → r.1 = Ok () →
     Object_keys (workers r.2)
     = pretty <$> seqZ 1 (default 0 (workerCount (settings s)))).
Proof.
  intros HI. unfold createWorkerPool. erewrite bind_Ok; [|reflexivity].
  destruct (workerPoolCreated s) eqn:Hc; [done|].
  erewrite bind_Ok; [|reflexivity]. erewrite bind_Ok; [|reflexivity].
  simpl.
  assert (workers s = []) as Hw.
  { destruct (workers s) eqn:Hw; [done|].
    rewrite (inv_created s HI) in Hc; [done|]. by rewrite Hw. }
  set (s1 := set_workerPoolCreated true s).
  assert (Inv s1) as HI1. { subst s1. destruct HI. split; simpl; auto. }
  unfold mbind, M_bind.
  destruct (createWorkers _ _ s1) as [r s2] eqn:Heq.
  destruct (createWorkers_spec _ _ _ _ _ Heq HI1 eq_refl) as (HI2 & Hc2 & Hr).
  destruct r as [ready|e]; simpl in *.
  - split. { destruct HI2. split; simpl; auto. }
    intros _ _. destruct (Hr ready eq_refl) as [_ Hk]. rewrite Hk.
    + by rewrite Hw.
    + apply NoDup_seqZ.
    + intros id _. rewrite Hw. apply not_elem_of_nil.
  - split; [done|]. intros _ [=].
Qed.

Lemma keeps_createWorkerPool : respects keeps createWorkerPool.
Proof. intros s HI. by apply createWorkerPool_spec. Qed.
#[global] Hint Resolve keeps_createWorkerPool : respects.

Lemma keeps_start : respects keeps start.
Proof. unfold start. respects_go. keeps_leaf. Qed.
#[global] Hint Resolve keeps_start : respects.

Lemma keeps_handle i : respects keeps (handle i).
Proof. destruct i; simpl; respects_go. Qed.

Lemma Inv_new clock : Inv (newSupervisor clock).
Proof. split; simpl; try done. apply NoDup_nil_2. Qed.

Lemma Inv_step i s : Inv s → Inv (step i s).
Proof. intros H. unfold step. by apply keeps_drain, keeps_handle. Qed.

Lemma Inv_run inputs s : Inv s → Inv (run inputs s).
Proof.
  intros H. induction inputs as [|i inputs IH] using rev_ind; [done|].
  rewrite run_snoc. by apply Inv_step.
Qed.

Lemma Inv_reachable s : reachable s → Inv s.
Proof. intros (clock & inputs & ->). apply Inv_run, Inv_new. Qed.

Lemma createWorkerPool_marks s : workerPoolCreated (createWorkerPool s).2 = true.
Proof.
  unfold createWorkerPool. erewrite bind_Ok; [|reflexivity].
  destruct (workerPoolCreated s) eqn:Hc; [done|].
  erewrite bind_Ok; [|reflexivity]. erewrite bind_Ok; [|reflexivity].
  unfold mbind, M_bind. simpl.
  match goal with |- context [createWorkers ?ids ?acc ?s1] =>
    pose proof (ev_created _ _ _ (evolves_createWorkers false ids acc s1) eq_refl) as H;
    destruct (createWorkers ids acc s1) as [[r|e] s2] end; done.
Qed.


(** ** What a method leaves alone *)

(** The processes of the table: key, worker id and handle, without the
    workers' [up]/[down] state. *)
Definition processes (s : Supervisor) : list (string * string * ChildProcess) :=
  (λ kw, (kw.1, worker_id kw.2, worker_process kw.2)) <$> workers s.

Definition isFork (e : Effect) : bool :=
  match e with Fork _ _ _ _ _ => true | _ => false end.
Definition isKill (e : Effect) : bool :=
  match e with Kill _ _ _ => true | _ => false end.
Definition noEffect (e : Effect) : bool := false.

(** [framed P pinned launching]: the method keeps the settings, the flags
    and the [nextTick] queue, performs no effect that [P] selects, keeps
    the promises when [pinned], and keeps the processes unless
    [launching]. *)
Record framed (P : Effect → bool) (pinned launching : bool)
    (s s' : Supervisor) : Prop := {
  fr_settings : settings s' = settings s;
  fr_closing : closing s' = closing s;
  fr_configured : configured s' = configured s;
  fr_created : workerPoolCreated s' = workerPoolCreated s;
  fr_queue : nextTickQueue s' = nextTickQueue s;
  fr_trace : filter (λ e, P e = true) (trace s') = filter (λ e, P e = true) (trace s);
  fr_promises : pinned = true → promises s' = promises s;
  fr_processes : launching = false → processes s' = processes s;
  fr_nextPid : launching = false → nextPid s' = nextPid s;
}.

#[global] Instance framed_preorder P pinned launching :
  PreOrder (framed P pinned launching).
Proof.
  split.
  - intros s. by split.
  - intros s1 s2 s3 [] []. split; try congruence.
    + intros H. rewrite fr_promises1, fr_promises0; done.
    + intros H. rewrite fr_processes1, fr_processes0; done.
    + intros H. rewrite fr_nextPid1, fr_nextPid0; done.
Qed.

Lemma processes_alter_state key v o :
  (λ kw : string * Worker, (kw.1, worker_id kw.2, worker_process kw.2))
    <$> obj_alter (set_worker_state v) key o
  = (λ kw : string * Worker, (kw.1, worker_id kw.2, worker_process kw.2)) <$> o.
Proof.
  induction o as [|[k w] o IH]; simpl; [done|].
  destruct (decide (k = key)); csimpl; [done|]. by rewrite IH.
Qed.

Lemma processes_lookup s s' key :
  processes s' = processes s →
  worker_process <$> obj_get key (workers s')
  = worker_process <$> obj_get key (workers s)
  ∧ worker_id <$> obj_get key (workers s') = worker_id <$> obj_get key (workers s).
Proof.
  unfold processes. generalize (workers s) (workers s').
  intros o. induction o as [|[k w] o IH]; intros [|[k' w'] o'] H; try done.
  csimpl in H. injection H as -> Hi Hp H. simpl.
  destruct (decide (k = key)); simpl; [by rewrite Hi, Hp|]. by apply IH.
Qed.

Section Framed.
Context (P : Effect → bool) (pinned launching : bool).
Hypothesis P_emit : ∀ e, P (Emit e) = false.
Hypothesis P_send : ∀ k a, P (Send k a) = false.

Local Abbreviation fr := (framed P pinned launching).

Ltac framed_leaf :=
  split; simpl; intros; try done;
  try (rewrite filter_app, filter_cons_False, filter_nil, app_nil_r;
       [done|rewrite ?P_emit, ?P_send; done]).

Lemma framed_emitInfo e : respects fr (emitInfo e).
Proof. respects_go. framed_leaf. Qed.
Lemma framed_perform_emit e : respects fr (perform (Emit e)).
Proof. apply framed_emitInfo. Qed.
Lemma framed_perform_send k a : respects fr (perform (Send k a)).
Proof. respects_go. framed_leaf. Qed.
Lemma framed_process_hrtime : respects fr process_hrtime.
Proof. intros s. simpl. framed_leaf. Qed.
#[local] Hint Resolve framed_emitInfo framed_perform_emit framed_perform_send
  framed_process_hrtime : respects.
Lemma framed_process_hrtime_since past : respects fr (process_hrtime_since past).
Proof. unfold process_hrtime_since. respects_go. Qed.
#[local] Hint Resolve framed_process_hrtime_since : respects.
Lemma framed_internalSend a : respects fr (internalSend a).
Proof. unfold internalSend, worker_send. respects_go. Qed.
#[local] Hint Resolve framed_internalSend : respects.
Lemma framed_setPoolHealth : respects fr setPoolHealth.
Proof. unfold setPoolHealth. respects_go. framed_leaf. Qed.
#[local] Hint Resolve framed_setPoolHealth : respects.
Lemma framed_recordHeartbeat workerId : respects fr (recordHeartbeat workerId).
Proof. unfold recordHeartbeat. respects_go. framed_leaf. Qed.
#[local] Hint Resolve framed_recordHeartbeat : respects.
Lemma framed_emit e : respects fr (emit e).
Proof. unfold emit. respects_go. Qed.
#[local] Hint Resolve framed_emit : respects.
Lemma framed_scheduleMonitor : respects fr scheduleMonitor.
Proof. unfold scheduleMonitor. respects_go; framed_leaf. Qed.
#[local] Hint Resolve framed_scheduleMonitor : respects.
Lemma framed_monitorHeartbeat : respects fr monitorHeartbeat.
Proof. unfold monitorHeartbeat. respects_go. Qed.
Lemma framed_onAllReady : respects fr onAllReady.
Proof. unfold onAllReady. respects_go. framed_leaf. Qed.
Lemma framed_gentleStop : respects fr gentleStop.
Proof. unfold gentleStop. respects_go. Qed.
Lemma framed_runTimeoutCallback callback : respects fr (runTimeoutCallback callback).
Proof. unfold runTimeoutCallback. respects_go. Qed.
#[local] Hint Resolve framed_monitorHeartbeat framed_onAllReady framed_gentleStop
  framed_runTimeoutCallback : respects.

Lemma framed_alter_state key v : respects fr (alterWorker key (set_worker_state v)).
Proof.
  intros s. split; simpl; try done. intros _. apply processes_alter_state.
Qed.
#[local] Hint Resolve framed_alter_state : respects.

Lemma framed_worker_emit_quiet key e :
  (∀ exitCode signalCode, e ≠ worker_down exitCode signalCode) →
  respects fr (worker_emit key e).
Proof.
  intros He. destruct e; simpl; respects_go; try framed_leaf.
  by destruct (He exitCode signalCode).
Qed.

Lemma framed_workerInternalMessageHandler key message :
  respects fr (workerInternalMessageHandler key message).
Proof.
  unfold workerInternalMessageHandler. respects_go;
    by apply framed_worker_emit_quiet.
Qed.

Section Sweeps.
Hypothesis P_kill : ∀ k p signal, P (Kill k p signal) = false.

Lemma framed_killProcesses signal : respects fr (killProcesses signal).
Proof.
  unfold killProcesses. respects_go. split; simpl; intros; try done.
  rewrite filter_app, filter_cons_False, filter_nil, app_nil_r;
    [done|by rewrite P_kill].
Qed.
#[local] Hint Resolve framed_killProcesses : respects.
Lemma framed_runHandler h : respects fr (runHandler h).
Proof. unfold runHandler. respects_go. Qed.
#[local] Hint Resolve framed_runHandler : respects.
Lemma framed_settle o thens : respects fr (settle o thens).
Proof.
  revert o. induction thens as [|[h1 h2] thens IH]; intros o; simpl; respects_go.
Qed.
#[local] Hint Resolve framed_settle : respects.

Hypothesis unpinned : pinned = false.

Lemma framed_worker_emit key e : respects fr (worker_emit key e).
Proof.
  destruct e; simpl; respects_go; try framed_leaf. by rewrite unpinned in H.
Qed.
Lemma framed_onRaceTimeout i listenerThrows :
  respects fr (onRaceTimeout i listenerThrows).
Proof.
  unfold onRaceTimeout. respects_go; framed_leaf. by rewrite unpinned in H.
Qed.
Lemma framed_runReactions i : respects fr (runReactions i).
Proof.
  unfold runReactions. respects_go; framed_leaf. by rewrite unpinned in H.
Qed.
#[local] Hint Resolve framed_runReactions : respects.
Lemma framed_runMicrotasks : respects fr runMicrotasks.
Proof. unfold runMicrotasks. respects_go; framed_leaf. Qed.
End Sweeps.

Section Launching.
Hypothesis P_fork : ∀ p exe argv environment flags,
  P (Fork p exe argv environment flags) = false.
Hypothesis may_launch : launching = true.

Lemma framed_replaceWorkerProcess key : respects fr (replaceWorkerProcess key).
Proof.
  intros s. rewrite replaceWorkerProcess_eq. destruct (closing s); [done|].
  destruct (obj_get key (workers s)) as [worker|]; [|done].
  rewrite createWorkerProcess_eq.
  destruct (workerEnv (settings s)); [|done].
  destruct (execArgv (settings s)); [|done].
  split; simpl; try done; try (by rewrite may_launch).
  rewrite filter_app, filter_cons_False, filter_nil, app_nil_r;
    [done|unfold launch; by rewrite P_fork].
Qed.
End Launching.
End Framed.

(** ** The [nextTick] queue is empty between turns *)

Lemma drain_queue s : nextTickQueue (drain s).2 = [].
Proof.
  unfold drain, runNextTicks.
  assert (respects (framed noEffect false true)
            (forEach replaceWorkerProcess (nextTickQueue s))) as Hf.
  { apply respects_forEach; [apply _|]. intros key.
    by apply framed_replaceWorkerProcess. }
  assert (respects (framed noEffect false true) runMicrotasks) as Hm.
  { by apply framed_runMicrotasks. }
  munfold. specialize (Hf (set_nextTickQueue [] s)).
  destruct (forEach _ _ _) as [[[]|e] s1]; simpl in *.
  - rewrite (fr_queue _ _ _ _ _ (Hm s1)). apply (fr_queue _ _ _ _ _ Hf).
  - apply (fr_queue _ _ _ _ _ Hf).
Qed.

Lemma reachable_queue s : reachable s → nextTickQueue s = [].
Proof.
  intros (clock & inputs & ->).
  induction inputs as [|i inputs IH] using rev_ind; [done|].
  rewrite run_snoc. apply drain_queue.
Qed.

(** ** Process exit *)

Lemma emit_Ok e s : (emit e s).1 = Ok ().
Proof.
  unfold emit. erewrite bind_Ok; [|reflexivity].
  destruct e; try done.
  - by rewrite setPoolHealth_eq.
  - by rewrite setPoolHealth_eq.
  - rewrite recordHeartbeat_eq. by destruct (orElse _ _).
Qed.

Lemma bind_total {B} (m : M unit) (f : unit → M B) s :
  (m s).1 = Ok () → (m ≫= f) s = f () (m s).2.
Proof.
  intros H. unfold mbind, M_bind. destruct (m s) as [[[]|] ?]; simpl in *; done.
Qed.

Lemma worker_emit_Ok key e s : (worker_emit key e s).1 = Ok ().
Proof.
  destruct e; unfold worker_emit.
  - by rewrite bind_total by apply emit_Ok.
  - by rewrite bind_total by apply emit_Ok.
  - apply emit_Ok.
  - apply emit_Ok.
Qed.

(** The state in which the ['exit'] handler of a live process runs. *)
Definition exiting (key : string) (worker : Worker) (s : Supervisor) : Supervisor :=
  set_workers (obj_alter (λ w, setProcess (markExited (worker_process worker)) w)
                 key (workers s)) s.

Lemma handle_exit key worker exitCode signalCode s :
  obj_get key (workers s) = Some worker →
  isDead worker = false →
  exitListener (worker_process worker) = true →
  handle (ProcessExit key exitCode signalCode) s
  = onExit key exitCode signalCode (exiting key worker s).
Proof.
  intros Hg Hd Hl. unfold handle, withWorker, alterWorker. munfold.
  rewrite Hg. unfold isDead in Hd. by rewrite Hd, Hl.
Qed.

Lemma handle_exit_dead key worker exitCode signalCode s :
  obj_get key (workers s) = Some worker →
  isDead worker = true →
  handle (ProcessExit key exitCode signalCode) s = (Ok (), s).
Proof.
  intros Hg Hd. unfold handle, withWorker. munfold.
  rewrite Hg. unfold isDead in Hd. by rewrite Hd.
Qed.

Lemma handle_exit_untracked key exitCode signalCode s :
  obj_get key (workers s) = None →
  handle (ProcessExit key exitCode signalCode) s = (Ok (), s).
Proof. intros Hg. unfold handle, withWorker. munfold. by rewrite Hg. Qed.

(** The state after the ['down'] event of the handler has been emitted. *)
Definition downed (key : string) (exitCode : option Z) (signalCode : option string)
    (s : Supervisor) : Supervisor :=
  (worker_emit key (worker_down exitCode signalCode)
     (set_workers (obj_alter (set_worker_state down) key (workers s)) s)).2.

Lemma onExit_eq key exitCode signalCode s :
  onExit key exitCode signalCode s
  = if decide (exitCode = Some 0)
    then worker_emit key worker_terminated (downed key exitCode signalCode s)
    else process_nextTick key (downed key exitCode signalCode s).
Proof.
  unfold onExit, alterWorker. erewrite bind_Ok; [|reflexivity].
  rewrite bind_total by apply worker_emit_Ok. by destruct (decide _).
Qed.

Lemma fmap_Some_inv {A B} (f : A → B) (o : option A) b :
  f <$> o = Some b → ∃ a, o = Some a ∧ f a = b.
Proof. destruct o; simpl; [|done]. intros [= <-]. eauto. Qed.

(** What the ['exit'] handler has done when its ['down'] event has been
    delivered. *)
Lemma exit_downed (s : Supervisor) key worker exitCode signalCode :
  Inv s → nextTickQueue s = [] →
  obj_get key (workers s) = Some worker →
  let s3 := downed key exitCode signalCode (exiting key worker s) in
  Inv s3
  ∧ closing s3 = closing s ∧ settings s3 = settings s
  ∧ nextTickQueue s3 = [] ∧ nextPid s3 = nextPid s
  ∧ filter (λ e, isFork e = true) (trace s3) = filter (λ e, isFork e = true) (trace s)
  ∧ trace s `prefix_of` trace s3
  ∧ ∃ w3, obj_get key (workers s3) = Some w3 ∧ worker_id w3 = key
          ∧ worker_process w3 = markExited (worker_process worker).
Proof.
  intros HI Hq Hg s3. unfold s3, downed.
  set (s2 := set_workers _ (exiting key worker s)).
  assert (Inv s2) as HI2.
  { apply (keeps_alter_state key down (exiting key worker s)).
    by apply (keeps_alter_exited key (worker_process worker) s). }
  assert (framed isFork false false s2
            (worker_emit key (worker_down exitCode signalCode) s2).2) as Hf.
  { by apply framed_worker_emit. }
  pose proof (steady_worker_emit false key (worker_down exitCode signalCode) s2) as Hs.
  pose proof (keeps_worker_emit key (worker_down exitCode signalCode) s2 HI2) as HI3.
  set (s3' := (worker_emit key (worker_down exitCode signalCode) s2).2) in *.
  split; [done|].
  split; [by rewrite (fr_closing _ _ _ _ _ Hf)|].
  split; [by rewrite (fr_settings _ _ _ _ _ Hf)|].
  split; [by rewrite (fr_queue _ _ _ _ _ Hf)|].
  split; [by rewrite (fr_nextPid _ _ _ _ _ Hf eq_refl)|].
  split; [by rewrite (fr_trace _ _ _ _ _ Hf)|].
  split; [apply (ev_trace _ _ _ (steady_evolves _ _ _ Hs))|].
  destruct (processes_lookup s2 s3' key (fr_processes _ _ _ _ _ Hf eq_refl))
    as [Hp Hi].
  unfold s2 in Hp, Hi. simpl in Hp, Hi.
  rewrite !obj_get_alter, !decide_True, Hg in Hp, Hi by done. simpl in *.
  apply fmap_Some_inv in Hp as (w3 & Hw3 & Hp). exists w3. split; [done|].
  split; [|done]. by apply (inv_ids s3' HI3).
Qed.

Lemma set_nextTickQueue_id s : nextTickQueue s = [] → set_nextTickQueue [] s = s.
Proof. destruct s. simpl. by intros ->. Qed.

Lemma stop_eq s :
  stop s
  = (Ok (length (promises s)),
     set_promises
       (promises s
        ++ [Pending (raceTo (Object_keys (workers s)) (gentleStopTimeout (settings s))
                            gentleStopTimedOut)
              [(killSequence SIGTERM, killSequence SIGTERM);
               (killSequence SIGKILL, killSequence SIGKILL)]])
       (set_trace (trace s ++ ((λ k, Send k shutdown) <$> Object_keys (workers s)))
          (set_closing true s))).
Proof.
  unfold stop, gentleStop. erewrite bind_Ok; [|reflexivity].
  erewrite bind_Ok; [|erewrite bind_Ok; [|reflexivity]; erewrite bind_Ok;
                       [|apply internalSend_eq]; reflexivity].
  reflexivity.
Qed.


(** ** Shutdown of a pool whose workers exit *)

Definition kills (tr : list Effect) : list Effect :=
  filter (λ e, isKill e = true) tr.

Definition allDead (s : Supervisor) : Prop :=
  ∀ k w, obj_get k (workers s) = Some w → isDead w = true.

(** Every pending race awaits all workers that are alive. *)
Definition waitsForLive (s : Supervisor) : Prop :=
  ∀ race thens k w,
    Pending race thens ∈ promises s →
    obj_get k (workers s) = Some w → k ∉ awaited race → isDead w = true.

(** Workers that were dead are dead. *)
Definition deadlier (s s' : Supervisor) : Prop :=
  ∀ k w', obj_get k (workers s') = Some w' →
    ∃ w, obj_get k (workers s) = Some w ∧ (isDead w = true → isDead w' = true).

Lemma deadlier_refl s : deadlier s s.
Proof. intros k w H. eauto. Qed.

Lemma deadlier_trans s1 s2 s3 : deadlier s1 s2 → deadlier s2 s3 → deadlier s1 s3.
Proof.
  intros H1 H2 k w3 H3. destruct (H2 k w3 H3) as (w2 & Hw2 & Hd2).
  destruct (H1 k w2 Hw2) as (w1 & Hw1 & Hd1). eauto.
Qed.

Lemma deadlier_allDead s s' : deadlier s s' → allDead s → allDead s'.
Proof.
  intros H Ha k w' Hw'. destruct (H k w' Hw') as (w & Hw & Hd). eauto.
Qed.

Lemma processes_deadlier s s' : processes s' = processes s → deadlier s s'.
Proof.
  intros Hp k w' Hw'. destruct (processes_lookup s s' k Hp) as [H _].
  rewrite Hw' in H. symmetry in H. apply fmap_Some_inv in H as (w & Hw & Heq).
  exists w. split; [done|]. unfold isDead. by rewrite Heq.
Qed.

Lemma processes_alive s s' k w :
  processes s' = processes s → obj_get k (workers s) = Some w →
  ∃ w', obj_get k (workers s') = Some w' ∧ isDead w' = isDead w.
Proof.
  intros Hp Hw. destruct (processes_lookup s s' k Hp) as [H _].
  rewrite Hw in H. apply fmap_Some_inv in H as (w' & Hw' & Heq).
  exists w'. split; [done|]. unfold isDead. by rewrite Heq.
Qed.

Lemma obj_get_elem_of k w o : obj_get k o = Some w → (k, w) ∈ o.
Proof.
  induction o as [|[k' w'] o IH]; simpl; [done|].
  destruct (decide (k' = k)) as [->|]; [intros [= ->]; left|right; auto].
Qed.

Lemma elem_of_obj_get k w o : NoDup (Object_keys o) → (k, w) ∈ o → obj_get k o = Some w.
Proof.
  unfold Object_keys. induction o as [|[k' w'] o IH]; csimpl;
    [by intros _ ?%elem_of_nil|].
  intros [Hk Hnd]%NoDup_cons [[= -> ->]|Hin]%elem_of_cons.
  - by rewrite decide_True.
  - rewrite decide_False; [by apply IH|]. intros ->. apply Hk.
    apply list_elem_of_fmap. exists (k, w). done.
Qed.

Lemma liveWorkers_dead s : Inv s → allDead s → liveWorkers s = [].
Proof.
  intros HI Ha. unfold liveWorkers.
  destruct (filter _ (workers s)) as [|[k w] l] eqn:Hf; [done|].
  assert ((k, w) ∈ filter (λ kw : string * Worker, ¬ isDead kw.2) (workers s)) as Hin.
  { rewrite Hf. left. }
  apply list_elem_of_filter in Hin as [Hlive Hin]. simpl in Hlive.
  apply elem_of_obj_get in Hin; [|apply (inv_nodup s HI)].
  rewrite (Ha k w Hin) in Hlive. by destruct Hlive.
Qed.

(** With no live worker every sweep resolves at once, and so does the
    rest of the chain. *)
Lemma runHandler_dead h s :
  liveWorkers s = [] →
  ∃ ms callback, runHandler h s = (Ok (raceTo [] ms callback), s).
Proof.
  intros Hl. destruct h as [signal]. unfold runHandler, mbind, M_bind.
  rewrite killProcesses_eq, Hl. simpl. eauto.
Qed.

Lemma settle_dead o thens s :
  liveWorkers s = [] →
  settle o thens s
  = (Ok (Settled (match thens with [] => o | _ :: _ => Fulfilled false end)), s).
Proof.
  intros Hl. revert o. induction thens as [|[h1 h2] thens IH]; intros o; [done|].
  cbn [settle]. destruct (runHandler_dead (then_ h1 h2 o) s Hl) as (ms & cb & Hr).
  erewrite bind_Ok; [|exact Hr]. simpl. rewrite IH. by destruct thens.
Qed.

(** The invariant of a shutdown during which no signal has been sent. *)
Record Closing (sent : list Effect) (s : Supervisor) : Prop := {
  cl_inv : Inv s;
  cl_closing : closing s = true;
  cl_kills : kills (trace s) = sent;
  cl_waits : waitsForLive s;
}.

Definition winding (sent : list Effect) (s s' : Supervisor) : Prop :=
  Closing sent s → Closing sent s' ∧ deadlier s s' ∧ nextTickQueue s' = nextTickQueue s.

#[global] Instance winding_preorder sent : PreOrder (winding sent).
Proof.
  split.
  - intros s H. split; [done|]. split; [apply deadlier_refl|done].
  - intros s1 s2 s3 H1 H2 H. destruct (H1 H) as (? & ? & ?).
    destruct (H2 ltac:(done)) as (? & ? & ?).
    split; [done|]. split; [by eapply deadlier_trans|congruence].
Qed.

(** A method that sends no signal and keeps promises and processes. *)
Lemma winding_framed sent s s' :
  framed isKill true false s s' → (Inv s → Inv s') → winding sent s s'.
Proof.
  intros Hf HI [HIs Hc Hk Hw].
  pose proof (fr_processes _ _ _ _ _ Hf eq_refl) as Hp.
  split; [|split; [by apply processes_deadlier|apply (fr_queue _ _ _ _ _ Hf)]].
  split.
  - by apply HI.
  - by rewrite (fr_closing _ _ _ _ _ Hf).
  - unfold kills. by rewrite (fr_trace _ _ _ _ _ Hf).
  - intros race thens k w' Hin Hw' Hk'.
    rewrite (fr_promises _ _ _ _ _ Hf eq_refl) in Hin.
    destruct (processes_deadlier s s' Hp k w' Hw') as (w & Hw0 & Hd).
    apply Hd. by eapply Hw.
Qed.

Lemma winding_respects sent {A} (m : M A) :
  respects (framed isKill true false) m → respects keeps m →
  respects (winding sent) m.
Proof. intros Hf Hk s. apply winding_framed; [apply Hf|apply Hk]. Qed.

Lemma winding_onAllReady sent : respects (winding sent) onAllReady.
Proof. apply winding_respects; [by apply framed_onAllReady|apply keeps_onAllReady]. Qed.

Lemma winding_idle sent s : winding sent s s.
Proof. reflexivity. Qed.

Lemma winding_runReactions sent i : respects (winding sent) (runReactions i).
Proof.
  intros s HC. unfold runReactions. erewrite bind_Ok; [|reflexivity].
  destruct (promises s !! i) as [[race thens|]|] eqn:Hi;
    try (by apply winding_idle).
  destruct (awaited race) eqn:Ha; [|by apply winding_idle].
  assert (allDead s) as Hdead.
  { intros k w Hw. eapply (cl_waits _ _ HC race thens k w); [|done|].
    - by eapply list_elem_of_lookup_2.
    - rewrite Ha. apply not_elem_of_nil. }
  erewrite bind_Ok;
    [|apply settle_dead, liveWorkers_dead; [apply (cl_inv _ _ HC)|done]].
  simpl. split; [|split; [intros k w H; simpl in H; eauto|done]].
  destruct HC as [HI Hc Hk Hw]. split; simpl; try done.
  - destruct HI. split; done.
  - intros race' thens' k w Hin Hw' Hk'.
    apply list_elem_of_lookup in Hin as [j Hj].
    apply list_lookup_insert_Some in Hj as [(_ & [=] & _)|[_ Hj]].
    eapply Hw; eauto. by eapply list_elem_of_lookup_2.
Qed.

#[global] Hint Resolve winding_onAllReady winding_runReactions : respects.

Lemma winding_runMicrotasks sent : respects (winding sent) runMicrotasks.
Proof.
  unfold runMicrotasks. respects_go.
  apply winding_framed; [by split|]. intros []. by split.
Qed.

Lemma winding_replaceWorkerProcess sent key :
  respects (winding sent) (replaceWorkerProcess key).
Proof.
  intros s HC. rewrite replaceWorkerProcess_eq, (cl_closing _ _ HC).
  by apply winding_idle.
Qed.

(** The drain of a turn of a closing supervisor. *)
Lemma winding_drain sent s :
  Closing sent s →
  Closing sent (drain s).2 ∧ deadlier s (drain s).2.
Proof.
  intros HC. unfold drain, runNextTicks.
  set (s1 := set_nextTickQueue [] s).
  assert (Closing sent s1) as HC1.
  { destruct HC as [[] ? ? ?]. split; [split|..]; done. }
  assert (deadlier s s1) as Hd1 by (intros k w H; eauto).
  assert (respects (winding sent)
            (forEach replaceWorkerProcess (nextTickQueue s))) as Hf.
  { apply (respects_forEach (winding sent)). intros key.
    apply winding_replaceWorkerProcess. }
  munfold. fold s1. specialize (Hf s1 HC1).
  destruct (forEach _ _ s1) as [[[]|e] s2]; simpl in *.
  - destruct Hf as (HC2 & Hd2 & _).
    destruct (winding_runMicrotasks sent s2 HC2) as (HC3 & Hd3 & _).
    split; [done|]. eauto using deadlier_trans.
  - destruct Hf as (HC2 & Hd2 & _). split; [done|]. eauto using deadlier_trans.
Qed.

Lemma winding_message sent key message :
  respects (winding sent) (handle (ProcessMessage key message)).
Proof.
  apply winding_respects; [|apply keeps_handle].
  simpl. apply (respects_withWorker (framed isKill true false)). intros _.
  by apply framed_workerInternalMessageHandler.
Qed.

Lemma winding_monitor sent : respects (winding sent) (handle MonitorTimer).
Proof.
  apply winding_respects; [|apply keeps_handle].
  simpl. apply (respects_bind (framed isKill true false));
    [apply (respects_gets (framed isKill true false))|].
  intros [t|]; [by apply framed_monitorHeartbeat|].
  apply (respects_ret (framed isKill true false)).
Qed.

Lemma obj_get_alter_dead f key k (o : list (string * Worker)) w' :
  (∀ w, isDead (f w) = true) →
  obj_get k (obj_alter f key o) = Some w' →
  (k = key ∧ isDead w' = true) ∨ (k ≠ key ∧ obj_get k o = Some w').
Proof.
  intros Hf. rewrite obj_get_alter. destruct (decide (key = k)) as [->|]; [|auto].
  destruct (obj_get k o); simpl; [|done]. intros [= <-]. auto.
Qed.

Lemma closing_exit sent key exitCode signalCode s :
  Closing sent s →
  let s' := (handle (ProcessExit key exitCode signalCode) s).2 in
  Closing sent s' ∧ deadlier s s'.
Proof.
  intros HC. cbv zeta.
  destruct (obj_get key (workers s)) as [worker|] eqn:Hg;
    [|rewrite handle_exit_untracked by done; split; [done|apply deadlier_refl]].
  destruct (isDead worker) eqn:Hd;
    [rewrite (handle_exit_dead key worker) by done; split; [done|apply deadlier_refl]|].
  rewrite (handle_exit key worker)
    by (try done; by apply (inv_listener s (cl_inv _ _ HC) key worker)).
  rewrite onExit_eq. unfold downed.
  (* the handle is marked as exited *)
  set (s1 := exiting key worker s).
  assert (Closing sent s1 ∧ deadlier s s1
          ∧ ∀ w1, obj_get key (workers s1) = Some w1 → isDead w1 = true)
    as (HC1 & Hd1 & Hkey1).
  { destruct HC as [HI Hc Hk Hw]. split; [split|split].
    - by apply (keeps_alter_exited key (worker_process worker) s).
    - done.
    - done.
    - intros race thens k w1 Hin Hw1 Hk1. simpl in Hin, Hw1.
      apply obj_get_alter_dead in Hw1 as [[_ ?]|[_ Hw1]]; [done| |done]. eauto.
    - intros k w1 Hw1. simpl in Hw1. rewrite obj_get_alter in Hw1.
      destruct (decide (key = k)) as [<-|]; [|eauto].
      rewrite Hg in Hw1. injection Hw1 as <-. eauto.
    - intros w1 Hw1. simpl in Hw1. rewrite obj_get_alter, decide_True, Hg in Hw1 by done.
      by injection Hw1 as <-. }
  (* the worker is marked down and ['down'] is republished *)
  set (s2 := set_workers (obj_alter (set_worker_state down) key (workers s1)) s1).
  assert (winding sent s1 s2) as H12.
  { apply winding_framed; [by apply framed_alter_state|].
    apply (keeps_alter_state key down s1). }
  destruct (H12 HC1) as (HC2 & Hd2 & _).
  fold s2. set (e := workerDown key exitCode signalCode).
  assert (winding sent s2 (emit e s2).2) as H23.
  { apply winding_respects; [by apply framed_emit|apply keeps_emit]. }
  destruct (H23 HC2) as (HC3 & Hd3 & _). set (s3 := (emit e s2).2) in *.
  (* the waiting promises are resolved for this worker *)
  set (s4 := set_promises (resolveDown key <$> promises s3) s3).
  assert (Closing sent s4 ∧ deadlier s3 s4) as [HC4 Hd4].
  { split; [|intros k w H; eauto]. destruct HC3 as [HI Hc Hk Hw]. split; try done.
    - destruct HI. by split.
    - intros race' thens' k w4 Hin Hw4 Hk4. simpl in Hin, Hw4.
      apply list_elem_of_fmap in Hin as ([race thens|o] & Heq & Hin); [|done].
      injection Heq as -> ->. simpl in Hk4.
      destruct (decide (k = key)) as [->|Hne].
      + destruct (Hd3 key w4 Hw4) as (w2 & Hw2 & Hdd2).
        destruct (Hd2 key w2 Hw2) as (w1 & Hw1 & Hdd1). eauto.
      + eapply Hw; eauto. intros Hka. apply Hk4. unfold resolveFor.
        by apply list_elem_of_filter. }
  assert ((worker_emit key (worker_down exitCode signalCode) s2).2 = s4) as ->.
  { unfold worker_emit. by rewrite bind_total by apply emit_Ok. }
  assert (deadlier s s4) as Hd04 by eauto using deadlier_trans.
  destruct (decide (exitCode = Some 0)).
  - assert (winding sent s4 (worker_emit key worker_terminated s4).2) as H45.
    { apply winding_respects; [by apply framed_emit|apply keeps_emit]. }
    destruct (H45 HC4) as (HC5 & Hd5 & _). split; [done|].
    eauto using deadlier_trans.
  - split; [|done]. destruct HC4 as [[] ? ? ?]. split; [split|..]; done.
Qed.

Lemma closing_timeout sent i listenerThrows s :
  Closing sent s → allDead s →
  let s' := (handle (RaceTimer i listenerThrows) s).2 in
  Closing sent s' ∧ deadlier s s'.
Proof.
  intros HC Hdead. simpl. unfold onRaceTimeout. erewrite bind_Ok; [|reflexivity].
  destruct (promises s !! i) as [[race thens|]|] eqn:Hi;
    try (split; [done|apply deadlier_refl]).
  assert (winding sent s (runTimeoutCallback (onTimeout race) s).2) as H1.
  { apply winding_respects;
      [by apply framed_runTimeoutCallback|apply keeps_runTimeoutCallback]. }
  destruct (H1 HC) as (HC1 & Hd1 & _).
  destruct (runTimeoutCallback_total (onTimeout race) s) as (s1 & Hc & Hp).
  rewrite Hc in *. simpl in *. erewrite bind_Ok; [|exact Hc].
  erewrite bind_Ok;
    [|apply settle_dead, liveWorkers_dead;
       [apply (cl_inv _ _ HC1)|by eapply deadlier_allDead]].
  simpl. split; [|intros k w H; simpl in H; eauto].
  destruct HC1 as [HI ? ? Hw]. split; simpl; try done.
  - destruct HI. by split.
  - intros race' thens' k w Hin Hw' Hk'.
    apply list_elem_of_lookup in Hin as [j Hj].
    apply list_lookup_insert_Some in Hj as [(_ & [=] & _)|[_ Hj]].
    eapply Hw; eauto. by eapply list_elem_of_lookup_2.
Qed.

(** [configure] touches the settings and the [configured] flag only. *)
Lemma configure_frame settings' baseSettings s :
  let s' := (configure settings' baseSettings s).2 in
  closing s' = closing s ∧ trace s' = trace s ∧ promises s' = promises s
  ∧ workers s' = workers s ∧ nextTickQueue s' = nextTickQueue s.
Proof.
  cbv zeta. destruct (configured s) eqn:Hc; [by rewrite configure_twice|].
  destruct (workerCount settings') as [count|] eqn:Hw;
    [|by rewrite configure_missing_workerCount].
  destruct (workerEnv settings') as [perWorker|] eqn:He;
    [|by rewrite configure_missing_workerEnv by eauto].
  by rewrite configure_ok by eauto.
Qed.

Lemma closing_configure sent settings' baseSettings s :
  Closing sent s →
  let s' := (handle (CallConfigure settings' baseSettings) s).2 in
  Closing sent s' ∧ deadlier s s'.
Proof.
  intros [HI Hc Hk Hw]. cbv zeta.
  pose proof (keeps_handle (CallConfigure settings' baseSettings) s HI) as HI'.
  simpl in *.
  destruct (configure_frame settings' baseSettings s) as (Hc' & Ht' & Hp' & Hw' & _).
  split; [split|].
  - done.
  - congruence.
  - by rewrite Ht'.
  - intros race thens k w. rewrite Hp', Hw'. apply Hw.
  - intros k w. rewrite Hw'. eauto.
Qed.

(** A further [stop()] during a shutdown awaits every tracked worker. *)
Lemma closing_again sent s :
  Closing sent s →
  let s' := (handle CallStop s).2 in
  Closing sent s' ∧ deadlier s s'.
Proof.
  intros [HI Hc Hk Hw]. cbv zeta.
  pose proof (keeps_stop s HI) as HI'. unfold handle.
  erewrite bind_Ok; [|apply stop_eq]. rewrite stop_eq in HI'. simpl in *.
  split; [split|]; simpl.
  - done.
  - done.
  - unfold kills in *. rewrite filter_app.
    assert (filter (λ e, isKill e = true)
              ((λ k, Send k shutdown) <$> Object_keys (workers s)) = []) as ->.
    { clear. induction (Object_keys (workers s)) as [|k l IH]; [done|]. csimpl.
      by rewrite filter_cons_False. }
    by rewrite app_nil_r.
  - intros race thens k w Hin Hg Hk'. simpl in Hin, Hg.
    apply elem_of_app in Hin as [Hin|Hin]; [by eapply Hw|].
    apply list_elem_of_singleton in Hin. injection Hin as -> _.
    destruct Hk'. simpl. by eapply obj_get_Some_keys.
  - intros k w Hg. simpl in Hg. eauto.
Qed.

(** Inputs that the runtime delivers (no API call); and inputs that leave
    a shutdown in its gentle phase: anything but [start()], which clears
    [closing], and the timers of the races. *)
Definition delivered (x : Input) : bool :=
  match x with
  | ProcessExit _ _ _ | ProcessMessage _ _ | MonitorTimer | RaceTimer _ _ => true
  | _ => false
  end.

Definition unhurried (x : Input) : bool :=
  match x with
  | CallStart | RaceTimer _ _ => false
  | _ => true
  end.

Lemma closing_step sent x s :
  unhurried x = true ∨ (delivered x = true ∧ allDead s) →
  Closing sent s → Closing sent (step x s) ∧ deadlier s (step x s).
Proof.
  intros Hx HC.
  assert (Closing sent (handle x s).2 ∧ deadlier s (handle x s).2) as [HC1 Hd1].
  { destruct x; try (by destruct Hx as [|[]]).
    - by apply closing_configure.
    - by apply closing_again.
    - by apply closing_exit.
    - destruct (winding_message sent key message s HC) as (? & ? & _). done.
    - destruct (winding_monitor sent s HC) as (? & ? & _). done.
    - destruct Hx as [|[_ Hdead]]; [done|]. by apply closing_timeout. }
  destruct (winding_drain sent _ HC1) as [HC2 Hd2].
  split; [done|]. unfold step. eauto using deadlier_trans.
Qed.

Lemma closing_run_gentle sent inputs s :
  Forall (λ x, unhurried x = true) inputs →
  Closing sent s → Closing sent (run inputs s) ∧ deadlier s (run inputs s).
Proof.
  induction inputs as [|x inputs IH] using rev_ind; intros Hin HC.
  - split; [done|apply deadlier_refl].
  - apply Forall_app in Hin as [Hin Hx]. apply Forall_inv in Hx.
    destruct (IH Hin HC) as [HC1 Hd1]. rewrite run_snoc.
    destruct (closing_step sent x (run inputs s)) as [HC2 Hd2]; [by left|done|].
    split; [done|]. eauto using deadlier_trans.
Qed.

Lemma closing_run_dead sent inputs s :
  Forall (λ x, delivered x = true) inputs →
  Closing sent s → allDead s →
  Closing sent (run inputs s) ∧ allDead (run inputs s).
Proof.
  induction inputs as [|x inputs IH] using rev_ind; intros Hin HC Hdead.
  - done.
  - apply Forall_app in Hin as [Hin Hx]. apply Forall_inv in Hx.
    destruct (IH Hin HC Hdead) as [HC1 Hd1]. rewrite run_snoc.
    destruct (closing_step sent x (run inputs s)) as [HC2 Hd2]; [by right|done|].
    split; [done|]. by eapply deadlier_allDead.
Qed.

Lemma closing_stop s :
  Inv s → Forall (λ p, ∃ o, p = Settled o) (promises s) →
  Closing (kills (trace s)) (step CallStop s).
Proof.
  intros HI Hsettled.
  apply (winding_drain (kills (trace s)) (handle CallStop s).2).
  unfold handle. erewrite bind_Ok; [|apply stop_eq]. simpl. split; simpl.
  - pose proof (keeps_stop s HI) as H. by rewrite stop_eq in H.
  - done.
  - unfold kills. rewrite filter_app.
    assert (filter (λ e, isKill e = true)
              ((λ k, Send k shutdown) <$> Object_keys (workers s)) = []) as ->.
    { induction (Object_keys (workers s)); [done|]. csimpl.
      by rewrite filter_cons_False. }
    by rewrite app_nil_r.
  - intros race thens k w Hin Hw Hk. simpl in Hin, Hw.
    apply elem_of_app in Hin as [Hin|Hin].
    + rewrite Forall_forall in Hsettled. by destruct (Hsettled _ Hin).
    + apply list_elem_of_singleton in Hin. injection Hin as -> _.
      destruct Hk. simpl. by eapply obj_get_Some_keys.
Qed.

(** ** The health broadcasts in the trace *)

Definition isRecomputation (e : Effect) : bool :=
  match e with Emit (info_workersUpCount _ _ _) => true | _ => false end.

Definition isTransition (e : Effect) : bool :=
  match e with Emit (workerUp _) | Emit (workerDown _ _ _) => true | _ => false end.

Definition isHealthMessage (e : Effect) : bool :=
  match e with Send _ healthy | Send _ unhealthy => true | _ => false end.

Definition isHealthMessageTo (key : string) (e : Effect) : bool :=
  match e with
  | Send k healthy | Send k unhealthy => bool_decide (k = key)
  | _ => false
  end.

(** The effects of the health protocol. *)
Definition ofHealth (e : Effect) : bool :=
  isRecomputation e || isTransition e || isHealthMessage e.

Definition recomputations (tr : list Effect) : nat :=
  length (filter (λ e, isRecomputation e = true) tr).
Definition transitions (tr : list Effect) : nat :=
  length (filter (λ e, isTransition e = true) tr).
Definition healthMessagesTo (key : string) (tr : list Effect) : nat :=
  length (filter (λ e, isHealthMessageTo key e = true) tr).

Definition health (tr : list Effect) : list Effect :=
  filter (λ e, ofHealth e = true) tr.

Lemma filter_health (P : Effect → bool) tr :
  (∀ e, P e = true → ofHealth e = true) →
  filter (λ e, P e = true) tr = filter (λ e, P e = true) (health tr).
Proof.
  intros HP. unfold health. induction tr as [|e tr IH]; [done|].
  rewrite !filter_cons. destruct (decide (ofHealth e = true)) as [He|He].
  - rewrite filter_cons. by rewrite IH.
  - rewrite decide_False; [done|]. intros H. by apply He, HP.
Qed.

Lemma recomputations_health tr : recomputations tr = recomputations (health tr).
Proof.
  unfold recomputations. f_equal. apply filter_health.
  intros e H. unfold ofHealth. by rewrite H.
Qed.
Lemma transitions_health tr : transitions tr = transitions (health tr).
Proof.
  unfold transitions. f_equal. apply filter_health.
  intros e H. unfold ofHealth. rewrite H. by destruct (isRecomputation e).
Qed.
Lemma healthMessagesTo_health key tr :
  healthMessagesTo key tr = healthMessagesTo key (health tr).
Proof.
  unfold healthMessagesTo. f_equal. apply filter_health.
  intros [| k [] | |] H; try done.
Qed.

(** A method that takes no part in the health protocol. *)
Record aside (s s' : Supervisor) : Prop := {
  aside_health : health (trace s') = health (trace s);
  aside_keys : Object_keys (workers s') = Object_keys (workers s);
}.

#[global] Instance aside_preorder : PreOrder aside.
Proof.
  split; [by split|]. intros s1 s2 s3 [] []. split; congruence.
Qed.

Lemma health_snoc tr e : ofHealth e = false → health (tr ++ [e]) = health tr.
Proof.
  intros He. unfold health. rewrite filter_app, filter_cons_False, filter_nil.
  - by rewrite app_nil_r.
  - by rewrite He.
Qed.

Ltac aside_leaf :=
  split; simpl; rewrite ?obj_alter_keys; try done; by apply health_snoc.

Lemma aside_perform e : ofHealth e = false → respects aside (perform e).
Proof. intros He. respects_go. aside_leaf. Qed.
Lemma aside_process_hrtime : respects aside process_hrtime.
Proof. intros s. simpl. aside_leaf. Qed.
#[global] Hint Resolve aside_process_hrtime : respects.
Lemma aside_process_hrtime_since past : respects aside (process_hrtime_since past).
Proof. unfold process_hrtime_since. respects_go. Qed.
#[global] Hint Resolve aside_process_hrtime_since : respects.
Lemma aside_alterWorker key f : respects aside (alterWorker key f).
Proof. intros s. aside_leaf. Qed.
#[global] Hint Resolve aside_alterWorker : respects.
Lemma aside_shutdown : respects aside (internalSend shutdown).
Proof. unfold internalSend, worker_send. respects_go. aside_leaf. Qed.
#[global] Hint Resolve aside_shutdown : respects.
Lemma aside_recordHeartbeat workerId : respects aside (recordHeartbeat workerId).
Proof. unfold recordHeartbeat. respects_go; aside_leaf. Qed.
#[global] Hint Resolve aside_recordHeartbeat : respects.

(** The events whose listeners do not recompute the pool health. *)
Definition aloof (e : PoolEvent) : bool :=
  match e with
  | workerUp _ | workerDown _ _ _ | info_workersUpCount _ _ _ => false
  | _ => true
  end.

Lemma aside_emit e : aloof e = true → respects aside (emit e).
Proof. intros He. unfold emit. destruct e; try done; respects_go; aside_leaf. Qed.

Lemma aside_scheduleMonitor : respects aside scheduleMonitor.
Proof. unfold scheduleMonitor. respects_go; aside_leaf. Qed.
#[global] Hint Resolve aside_scheduleMonitor : respects.
Lemma aside_monitorHeartbeat : respects aside monitorHeartbeat.
Proof. unfold monitorHeartbeat. respects_go; try aside_leaf; try (by apply aside_emit). Qed.
#[global] Hint Resolve aside_monitorHeartbeat : respects.
Lemma aside_configure settings' baseSettings :
  respects aside (configure settings' baseSettings).
Proof. unfold configure. respects_go; aside_leaf. Qed.
#[global] Hint Resolve aside_configure : respects.
Lemma aside_createWorkerProcess id : respects aside (createWorkerProcess id).
Proof. unfold createWorkerProcess, fork. respects_go; aside_leaf. Qed.
#[global] Hint Resolve aside_createWorkerProcess : respects.
Lemma aside_replaceWorkerProcess key : respects aside (replaceWorkerProcess key).
Proof. unfold replaceWorkerProcess. respects_go. Qed.
#[global] Hint Resolve aside_replaceWorkerProcess : respects.
Lemma aside_onAllReady : respects aside onAllReady.
Proof. unfold onAllReady. respects_go; try aside_leaf; try (by apply aside_emit). Qed.
#[global] Hint Resolve aside_onAllReady : respects.
Lemma aside_gentleStop : respects aside gentleStop.
Proof. unfold gentleStop. respects_go. Qed.
#[global] Hint Resolve aside_gentleStop : respects.
Lemma aside_killProcesses signal : respects aside (killProcesses signal).
Proof. unfold killProcesses. respects_go; try aside_leaf; try (by apply aside_emit). Qed.
#[global] Hint Resolve aside_killProcesses : respects.
Lemma aside_runHandler h : respects aside (runHandler h).
Proof. unfold runHandler. respects_go. Qed.
Lemma aside_runTimeoutCallback callback : respects aside (runTimeoutCallback callback).
Proof. unfold runTimeoutCallback. respects_go; try aside_leaf; try (by apply aside_emit). Qed.
#[global] Hint Resolve aside_runHandler aside_runTimeoutCallback : respects.
Lemma aside_settle o thens : respects aside (settle o thens).
Proof.
  revert o. induction thens as [|[h1 h2] thens IH]; intros o; simpl; respects_go.
Qed.
#[global] Hint Resolve aside_settle : respects.
Lemma aside_stop : respects aside stop.
Proof. unfold stop. respects_go; aside_leaf. Qed.
Lemma aside_onRaceTimeout i listenerThrows :
  respects aside (onRaceTimeout i listenerThrows).
Proof. unfold onRaceTimeout. respects_go; aside_leaf. Qed.
Lemma aside_runReactions i : respects aside (runReactions i).
Proof. unfold runReactions. respects_go; aside_leaf. Qed.
#[global] Hint Resolve aside_stop aside_onRaceTimeout aside_runReactions : respects.
Lemma aside_runNextTicks : respects aside runNextTicks.
Proof. unfold runNextTicks. respects_go. aside_leaf. Qed.
Lemma aside_runMicrotasks : respects aside runMicrotasks.
Proof. unfold runMicrotasks. respects_go; aside_leaf. Qed.
#[global] Hint Resolve aside_runNextTicks aside_runMicrotasks : respects.
Lemma aside_drain : respects aside drain.
Proof. unfold drain. respects_go. Qed.

Lemma aside_worker_emit key e :
  e = worker_terminated ∨ e = worker_heartbeat → respects aside (worker_emit key e).
Proof. intros [-> | ->]; simpl; by apply aside_emit. Qed.

(** Pool creation adds workers, and says nothing about health. *)
Definition hushed (s s' : Supervisor) : Prop :=
  health (trace s') = health (trace s).

#[global] Instance hushed_preorder : PreOrder hushed.
Proof. split; unfold hushed; [done|]. intros s1 s2 s3. congruence. Qed.

Lemma aside_hushed {A} (m : M A) : respects aside m → respects hushed m.
Proof. intros Hm s. apply Hm. Qed.

Lemma hushed_createWorkers ids acc : respects hushed (createWorkers ids acc).
Proof.
  revert acc. induction ids as [|id ids IH]; intros acc; simpl; respects_go.
  - apply aside_hushed, aside_createWorkerProcess.
  - done.
Qed.

Lemma hushed_createWorkerPool : respects hushed createWorkerPool.
Proof.
  unfold createWorkerPool. respects_go; try done. apply hushed_createWorkers.
Qed.

Lemma hushed_start : respects hushed start.
Proof. unfold start. respects_go; try done. apply hushed_createWorkerPool. Qed.

(** One run of [setPoolHealth] as it shows in the trace: the event that
    called the listener, the up-count report, and the health message to each
    worker. *)
Definition broadcast (status : Act) (keys : list string) : list Effect :=
  (λ k, Send k status) <$> keys.

Record Round := {
  round_event : PoolEvent;
  round_up : Z;
  round_count : option Z;
  round_min : option Z;
  round_initializing : bool;
}.

Definition round (keys : list string) (r : Round) : list Effect :=
  Emit (round_event r)
  :: Emit (info_workersUpCount (round_up r) (round_count r) (round_min r))
  :: broadcast (poolHealth (round_up r) (round_count r) (round_min r)
                           (round_initializing r)) keys.

(** The events that the constructor wires to [setPoolHealth]. *)
Definition changesHealth (e : PoolEvent) : bool :=
  match e with workerUp _ | workerDown _ _ _ => true | _ => false end.

(** The health protocol, read off the trace: one recomputation for each
    [workerUp] or [workerDown], one health message to each tracked worker for
    each recomputation, and none to anyone else. *)
Record Tally (s : Supervisor) : Prop := {
  tally_transitions : recomputations (trace s) = transitions (trace s);
  tally_tracked : ∀ k, k ∈ Object_keys (workers s) →
    healthMessagesTo k (trace s) = recomputations (trace s);
  tally_untracked : ∀ k, k ∉ Object_keys (workers s) →
    healthMessagesTo k (trace s) = 0%nat;
  tally_fresh : Object_keys (workers s) = [] → health (trace s) = [];
  tally_rounds : ∃ rounds,
    health (trace s) = concat (round (Object_keys (workers s)) <$> rounds)
    ∧ Forall (λ r, changesHealth (round_event r) = true) rounds;
}.

Lemma Tally_aside s s' : aside s s' → Tally s → Tally s'.
Proof.
  intros [Hh Hk] [H1 H2 H3 H4 H5]. split.
  - by rewrite recomputations_health, transitions_health, Hh,
      <- recomputations_health, <- transitions_health.
  - intros k. rewrite Hk, healthMessagesTo_health, recomputations_health, Hh,
      <- healthMessagesTo_health, <- recomputations_health. apply H2.
  - intros k. rewrite Hk, healthMessagesTo_health, Hh, <- healthMessagesTo_health.
    apply H3.
  - rewrite Hk, Hh. apply H4.
  - by rewrite Hk, Hh.
Qed.

Lemma Tally_fresh s : health (trace s) = [] → Tally s.
Proof.
  intros Hh. split.
  - by rewrite recomputations_health, transitions_health, Hh.
  - intros k _. by rewrite healthMessagesTo_health, recomputations_health, Hh.
  - intros k _. by rewrite healthMessagesTo_health, Hh.
  - done.
  - exists []. by rewrite Hh.
Qed.

Lemma Tally_createWorkerPool s : Inv s → Tally s → Tally (createWorkerPool s).2.
Proof.
  intros HI HT. destruct (workerPoolCreated s) eqn:Hc.
  - unfold createWorkerPool. erewrite bind_Ok; [|reflexivity]. by rewrite Hc.
  - apply Tally_fresh. rewrite (hushed_createWorkerPool s).
    apply (tally_fresh s HT). destruct (workers s) eqn:Hw; [done|].
    rewrite (inv_created s HI) in Hc; [done|]. by rewrite Hw.
Qed.

(** What one broadcast adds to the counts. *)

Lemma broadcast_recomputations status keys :
  filter (λ e, isRecomputation e = true) (broadcast status keys) = [].
Proof. induction keys as [|k keys IH]; [done|]. simpl. by rewrite filter_cons_False. Qed.

Lemma broadcast_transitions status keys :
  filter (λ e, isTransition e = true) (broadcast status keys) = [].
Proof. induction keys as [|k keys IH]; [done|]. simpl. by rewrite filter_cons_False. Qed.

Lemma broadcast_untracked status keys key :
  key ∉ keys →
  filter (λ e, isHealthMessageTo key e = true) (broadcast status keys) = [].
Proof.
  induction keys as [|k keys IH]; [done|]. intros [Hk Hkeys]%not_elem_of_cons.
  simpl. rewrite filter_cons_False; [by apply IH|].
  destruct status; simpl; try done; by rewrite bool_decide_eq_true.
Qed.

Lemma broadcast_tracked status keys key :
  status = healthy ∨ status = unhealthy → NoDup keys → key ∈ keys →
  length (filter (λ e, isHealthMessageTo key e = true) (broadcast status keys)) = 1%nat.
Proof.
  intros Hs. induction keys as [|k keys IH]; [by intros _ ?%elem_of_nil|].
  intros [Hk Hnd]%NoDup_cons [->|Hin]%elem_of_cons; simpl.
  - rewrite filter_cons_True.
    + simpl. by rewrite broadcast_untracked.
    + destruct Hs as [-> | ->]; simpl; by rewrite bool_decide_eq_true.
  - rewrite filter_cons_False; [by apply IH|].
    destruct Hs as [-> | ->]; simpl; rewrite bool_decide_eq_true; by intros ->.
Qed.

Lemma poolHealth_status workersUp count minCount init :
  poolHealth workersUp count minCount init = healthy
  ∨ poolHealth workersUp count minCount init = unhealthy.
Proof.
  unfold poolHealth. destruct init; [destruct (strictEq _ _)|destruct (geq _ _)]; auto.
Qed.

Definition recomputation (s : Supervisor) : list Effect :=
  let status := poolHealth (upCount s) (workerCount (settings s))
                           (minWorkerCount (settings s)) (initializing s) in
  Emit (info_workersUpCount (upCount s) (workerCount (settings s))
                            (minWorkerCount (settings s)))
  :: broadcast status (Object_keys (workers s)).

Lemma emit_changesHealth e s :
  changesHealth e = true →
  emit e s =
  (Ok (),
   set_initializing (initializing s && negb (strictEq (upCount s) (workerCount (settings s))))
     (set_trace (trace s ++ Emit e :: recomputation s) s)).
Proof.
  intros He. unfold emit. erewrite bind_Ok; [|reflexivity].
  assert (setPoolHealth (set_trace (trace s ++ [Emit e]) s) =
    (Ok (),
     set_initializing (initializing s && negb (strictEq (upCount s) (workerCount (settings s))))
       (set_trace (trace s ++ Emit e :: recomputation s) s))) as Hs.
  { rewrite setPoolHealth_eq. simpl. unfold upCount. simpl.
    unfold set_initializing, set_trace. simpl. by rewrite <- app_assoc. }
  destruct e; try done.
Qed.

Definition roundOf (e : PoolEvent) (s : Supervisor) : Round :=
  {| round_event := e; round_up := upCount s;
     round_count := workerCount (settings s);
     round_min := minWorkerCount (settings s);
     round_initializing := initializing s |}.

Lemma health_round e s :
  changesHealth e = true →
  filter (λ e, ofHealth e = true) (Emit e :: recomputation s)
  = round (Object_keys (workers s)) (roundOf e s).
Proof.
  intros He. unfold recomputation, round, roundOf. simpl.
  rewrite filter_cons_True by (by destruct e).
  rewrite filter_cons_True by done. do 2 f_equal.
  destruct (poolHealth_status (upCount s) (workerCount (settings s))
              (minWorkerCount (settings s)) (initializing s)) as [-> | ->];
    induction (Object_keys (workers s)) as [|k keys IH]; simpl; try done;
    rewrite filter_cons_True by done; by rewrite IH.
Qed.

Lemma recomputation_counts s key :
  NoDup (Object_keys (workers s)) →
  recomputations (recomputation s) = 1%nat
  ∧ transitions (recomputation s) = 0%nat
  ∧ healthMessagesTo key (recomputation s)
    = if decide (key ∈ Object_keys (workers s)) then 1%nat else 0%nat.
Proof.
  intros Hnd. unfold recomputations, transitions, healthMessagesTo, recomputation.
  rewrite filter_cons_True by done. rewrite !filter_cons_False by done.
  rewrite broadcast_recomputations, broadcast_transitions. split; [done|]. split; [done|].
  destruct (decide _) as [Hin|Hin].
  - apply broadcast_tracked; [apply poolHealth_status|done..].
  - by rewrite broadcast_untracked.
Qed.

Lemma Tally_emit e s :
  changesHealth e = true → Inv s → workers s ≠ [] → Tally s → Tally (emit e s).2.
Proof.
  intros He HI Hw [H1 H2 H3 H4 (rounds & H5 & H6)].
  rewrite emit_changesHealth by done. simpl.
  assert (∀ key,
    recomputations (trace s ++ Emit e :: recomputation s) = S (recomputations (trace s))
    ∧ transitions (trace s ++ Emit e :: recomputation s) = S (transitions (trace s))
    ∧ healthMessagesTo key (trace s ++ Emit e :: recomputation s)
      = (healthMessagesTo key (trace s)
         + if decide (key ∈ Object_keys (workers s)) then 1 else 0)%nat) as Hcount.
  { intros key. destruct (recomputation_counts s key (inv_nodup s HI)) as (Hr & Ht & Hm).
    unfold recomputations, transitions, healthMessagesTo in *.
    rewrite !filter_app, !length_app.
    rewrite (filter_cons_False (λ e, isRecomputation e = true))
      by (destruct e; done).
    rewrite (filter_cons_True (λ e, isTransition e = true))
      by (destruct e; done).
    rewrite (filter_cons_False (λ e, isHealthMessageTo key e = true)) by done.
    cbn [length]. rewrite Hr, Ht, Hm. lia. }
  split; simpl.
  - destruct (Hcount "") as (-> & -> & _). by rewrite H1.
  - intros k Hk. destruct (Hcount k) as (-> & _ & ->).
    rewrite decide_True by done. rewrite H2 by done. lia.
  - intros k Hk. destruct (Hcount k) as (_ & _ & ->).
    rewrite decide_False by done. rewrite H3 by done. lia.
  - intros Hkeys. destruct (workers s); [done|discriminate].
  - exists (rounds ++ [roundOf e s]). split.
    + rewrite fmap_app, concat_app. unfold health in *. rewrite filter_app, H5.
      f_equal. cbn [fmap list_fmap concat]. rewrite app_nil_r. by apply health_round.
    + apply Forall_app. split; [done|]. by apply Forall_singleton.
Qed.

(** The handlers of worker events, which run on a tracked worker. *)
Definition tallies (s s' : Supervisor) : Prop :=
  Inv s ∧ workers s ≠ [] ∧ Tally s → Inv s' ∧ workers s' ≠ [] ∧ Tally s'.

#[global] Instance tallies_preorder : PreOrder tallies.
Proof. split; unfold tallies; [by intros s|intros s1 s2 s3; auto]. Qed.

Lemma tallies_aside {A} (m : M A) :
  respects keeps m → respects aside m → respects tallies m.
Proof.
  intros Hk Ha s (HI & Hw & HT). split; [by apply Hk|]. split.
  - intros Hw'. apply Hw. destruct (Ha s) as [_ Hkeys]. rewrite Hw' in Hkeys.
    destruct (workers s); [done|discriminate].
  - apply (Tally_aside s); [apply Ha|done].
Qed.

Lemma tallies_emit e :
  isRecomputation (Emit e) = false → respects tallies (emit e).
Proof.
  intros Hr. destruct (changesHealth e) eqn:He.
  - intros s (HI & Hw & HT). split; [by apply keeps_emit|]. split.
    + by rewrite emit_changesHealth.
    + by apply Tally_emit.
  - apply tallies_aside; [apply keeps_emit|]. apply aside_emit. by destruct e.
Qed.
#[global] Hint Extern 1 (respects tallies (emit _)) =>
  apply tallies_emit; reflexivity : respects.

Lemma tallies_alter_state key v :
  respects tallies (alterWorker key (set_worker_state v)).
Proof. apply tallies_aside; [apply keeps_alter_state|apply aside_alterWorker]. Qed.
#[global] Hint Resolve tallies_alter_state : respects.

Ltac tallies_leaf :=
  lazymatch goal with
  | |- tallies ?s _ =>
      intros (HI & Hw & HT); split; [revert HI; keeps_leaf|];
      split; [done|]; apply (Tally_aside s); [aside_leaf|done]
  end.

Lemma tallies_worker_emit key e : respects tallies (worker_emit key e).
Proof. unfold worker_emit. destruct e; respects_go; tallies_leaf. Qed.
#[global] Hint Resolve tallies_worker_emit : respects.

Lemma tallies_workerInternalMessageHandler key message :
  respects tallies (workerInternalMessageHandler key message).
Proof. unfold workerInternalMessageHandler. respects_go. Qed.

Lemma tallies_onExit key exitCode signalCode :
  respects tallies (onExit key exitCode signalCode).
Proof.
  unfold onExit, process_nextTick. respects_go. tallies_leaf.
Qed.

Lemma tallies_alter_exited key p :
  respects tallies (alterWorker key (λ w, setProcess (markExited p) w)).
Proof. apply tallies_aside; [apply keeps_alter_exited|apply aside_alterWorker]. Qed.

Lemma Tally_handle i s : Inv s → Tally s → Tally (handle i s).2.
Proof.
  intros HI HT. destruct i as [settings' baseSettings| | |key exitCode signalCode
                               |key message| |promise listenerThrows].
  - apply (Tally_aside s); [apply aside_configure|done].
  - unfold handle, start. erewrite bind_Ok; [|reflexivity].
    apply Tally_createWorkerPool.
    + revert HI. keeps_leaf.
    + apply (Tally_aside s); [aside_leaf|done].
  - apply (Tally_aside s); [|done]. unfold handle.
    assert (respects aside (stop;; mret ())) as H by respects_go. apply H.
  - unfold handle, withWorker. erewrite bind_Ok; [|reflexivity]. cbv beta.
    destruct (obj_get key (workers s)) as [worker|] eqn:Hg; [|done].
    assert (workers s ≠ []) as Hw by (intros Hw; by rewrite Hw in Hg).
    destruct (exited (worker_process worker)); [done|].
    assert (respects tallies
      (alterWorker key (λ w, setProcess (markExited (worker_process worker)) w);;
       if exitListener (worker_process worker)
       then onExit key exitCode signalCode else mret ())) as H.
    { respects_go; [apply tallies_alter_exited|apply tallies_onExit]. }
    by apply H.
  - unfold handle, withWorker. erewrite bind_Ok; [|reflexivity]. cbv beta.
    destruct (obj_get key (workers s)) as [worker|] eqn:Hg; [|done].
    assert (workers s ≠ []) as Hw by (intros Hw; by rewrite Hw in Hg).
    by apply tallies_workerInternalMessageHandler.
  - apply (Tally_aside s); [|done]. unfold handle.
    assert (respects aside
      (t ← gets heartbeatTimeout;
       match t with Some _ => monitorHeartbeat | None => mret () end)) as H
      by respects_go.
    apply H.
  - apply (Tally_aside s); [apply aside_onRaceTimeout|done].
Qed.

Lemma Tally_step i s : Inv s → Tally s → Tally (step i s).
Proof.
  intros HI HT. unfold step. eapply Tally_aside; [apply aside_drain|].
  by apply Tally_handle.
Qed.

Lemma Tally_run inputs s : Inv s → Tally s → Tally (run inputs s).
Proof.
  intros HI HT. induction inputs as [|i inputs IH] using rev_ind; [done|].
  rewrite run_snoc. apply Tally_step; [by apply Inv_run|done].
Qed.

Lemma Tally_reachable s : reachable s → Tally s.
Proof.
  intros (clock & inputs & ->). apply Tally_run; [apply Inv_new|].
  by apply Tally_fresh.
Qed.

(** * The claims *)

(** A clock that ticks once per second, and settings that supply only what
    is required and the launch parameters. *)
Definition everySecond (n : nat) : hrtime := (Z.of_nat n, 0).

Definition poolOf (count : Z) : Settings :=
  {| workerCount := Some count; minWorkerCount := None;
     workerEnv := Some (λ _, ∅); exec := Some "worker.js"; args := Some [];
     env := None; execArgv := Some []; gentleStopTimeout := None;
     killTimeout := None; heartbeatWorkerInterval := None;
     heartbeatMonitorInterval := None; heartbeatStallTolerance := None |}.

(** [poolOf count] without the [workerCount] key. *)
Definition set_workerCount_absent (o : Settings) : Settings :=
  {| workerCount := None; minWorkerCount := minWorkerCount o;
     workerEnv := workerEnv o; exec := exec o; args := args o; env := env o;
     execArgv := execArgv o; gentleStopTimeout := gentleStopTimeout o;
     killTimeout := killTimeout o;
     heartbeatWorkerInterval := heartbeatWorkerInterval o;
     heartbeatMonitorInterval := heartbeatMonitorInterval o;
     heartbeatStallTolerance := heartbeatStallTolerance o |}.

(** ** C5: derivation of [minWorkerCount] *)

(** C5. A successful [configure] whose settings carry no [minWorkerCount]
    derives [workerCount - 2] when [workerCount >= 4] and [workerCount]
    otherwise (6 gives 4, 3 gives 3); a supplied [minWorkerCount] is kept. *)
Theorem C5_minWorkerCount_derived (s : Supervisor) (settings' baseSettings : Settings)
    (count : Z) :
  configured s = false →
  workerCount settings' = Some count →
  is_Some (workerEnv settings') →
  let s' := (configure settings' baseSettings s).2 in
  (configure settings' baseSettings s).1 = Ok ()
  ∧ (minWorkerCount settings' = None → minWorkerCount baseSettings = None →
       minWorkerCount (settings s')
       = Some (if bool_decide (4 ≤ count) then count - 2 else count)
       ∧ (count = 6 → minWorkerCount (settings s') = Some 4)
       ∧ (count = 3 → minWorkerCount (settings s') = Some 3))
  ∧ (∀ m, minWorkerCount settings' = Some m → minWorkerCount (settings s') = Some m)
  ∧ (∀ m, minWorkerCount settings' = None → minWorkerCount baseSettings = Some m →
       minWorkerCount (settings s') = Some m).
Proof.
  intros Hc Hw He s'. subst s'.
  rewrite configure_ok by eauto. simpl. rewrite Hw. simpl.
  split; [done|]. split; [|split].
  - intros -> ->. simpl. split; [done|]. split; intros ->; done.
  - intros m ->. done.
  - intros m -> ->. done.
Qed.

Lemma C5_minWorkerCount_derived_witness :
  let s := newSupervisor everySecond in
  configured s = false
  ∧ workerCount (poolOf 6) = Some 6
  ∧ minWorkerCount (settings (configure (poolOf 6) emptySettings s).2) = Some 4.
Proof.
  split; [reflexivity|]. split; [reflexivity|].
  pose proof (C5_minWorkerCount_derived (newSupervisor everySecond) (poolOf 6)
                emptySettings 6 eq_refl eq_refl (ex_intro _ _ eq_refl)) as H.
  exact (proj1 (proj2 (proj1 (proj2 H) eq_refl eq_refl)) eq_refl).
Defined.

(** ** C4: configuration errors *)

(** C4 (the code departs from the claim).  [configure] with [workerCount]
    omitted throws, but only after it has set [configured]: the state is
    not the one before the call, and a second, complete [configure] is then
    refused as a double configuration. *)
Theorem C4_failed_configure_leaves_flag :
  let s := newSupervisor everySecond in
  let incomplete := set_workerCount_absent (poolOf 2) in
  let s' := (configure incomplete emptySettings s).2 in
  (configure incomplete emptySettings s).1
    = Throw (Error "Missing required setting 'workerCount'")
  ∧ configured s = false
  ∧ configured s' = true
  ∧ settings s' = emptySettings
  ∧ (configure (poolOf 2) emptySettings s').1
    = Throw (Error "poolHall already configured")
  ∧ (configure (poolOf 2) emptySettings s).1 = Ok ().
Proof. repeat split. Qed.

(** ** C1: the health policy *)

(** C1. [setPoolHealth] broadcasts one status to every worker.  While
    [initializing] the status is [healthy] exactly when the up-count equals
    [workerCount], and exactly then [initializing] becomes false; afterwards
    the status is [healthy] exactly when the up-count is at least
    [minWorkerCount].  Once false, [initializing] stays false whatever
    happens next. *)
Theorem C1_pool_health_policy (s : Supervisor) :
  let s' := (setPoolHealth s).2 in
  ∃ status : Act,
    (status = healthy ∨ status = unhealthy)
    ∧ (setPoolHealth s).1 = Ok ()
    ∧ trace s' = trace s
        ++ Emit (info_workersUpCount (upCount s) (workerCount (settings s))
                                     (minWorkerCount (settings s)))
        :: ((λ k, Send k status) <$> Object_keys (workers s))
    ∧ (initializing s = true →
         (status = healthy ↔ workerCount (settings s) = Some (upCount s))
         ∧ (initializing s' = false ↔ status = healthy))
    ∧ (initializing s = false →
         (status = healthy
          ↔ ∃ m, minWorkerCount (settings s) = Some m ∧ m ≤ upCount s)
         ∧ initializing s' = false)
    ∧ (∀ inputs t, initializing t = false → initializing (run inputs t) = false).
Proof.
  intros s'. subst s'. rewrite setPoolHealth_eq. simpl.
  eexists. split; [|split; [reflexivity|split; [reflexivity|]]].
  { unfold poolHealth. repeat case_match; auto. }
  split; [|split].
  - intros Hi. rewrite Hi. unfold poolHealth, strictEq. simpl.
    destruct (workerCount (settings s)) as [c|]; simpl.
    + case_bool_decide; simpl; split; split; try done; try congruence.
    + split; split; done.
  - intros Hi. rewrite Hi. unfold poolHealth, geq. simpl. split; [|done].
    destruct (minWorkerCount (settings s)) as [m|]; simpl.
    + case_bool_decide; split; try done.
      * eauto.
      * intros (m' & [= <-] & ?). lia.
    + split; [done|]. by intros (m & ? & _).
  - intros inputs t Ht. by apply (ev_initializing _ _ _ (evolves_run false inputs t ltac:(done))).
Qed.

(** ** C9: heartbeat bookkeeping *)

(** Nanoseconds of a timestamp. *)
Definition nanoseconds (t : hrtime) : Z := t.1 * 1000000000 + t.2.

Lemma elapsed_milliseconds (now past : hrtime) :
  hrtimeToMilliseconds (hrtime_since now past)
  = (nanoseconds now - nanoseconds past) `div` 1000000.
Proof.
  unfold hrtimeToMilliseconds, hrtime_since, nanoseconds.
  destruct now as [s n], past as [ps pn]. simpl.
  destruct (n - pn <? 0) eqn:Hb; simpl.
  - replace (s * 1000000000 + n - (ps * 1000000000 + pn))
      with ((s - ps - 1) * 1000 * 1000000 + (n - pn + 1000000000)) by lia.
    rewrite Z.div_add_l by lia. lia.
  - replace (s * 1000000000 + n - (ps * 1000000000 + pn))
      with ((s - ps) * 1000 * 1000000 + (n - pn)) by lia.
    rewrite Z.div_add_l by lia. lia.
Qed.

(** C9 (as the code has it).  [recordHeartbeat] reports the milliseconds
    elapsed since the worker's previous heartbeat, or since monitoring
    started, only when one of the two exists; a heartbeat that arrives
    before monitoring started and before any other heartbeat of that worker
    is reported by no event.  In every case the next clock reading becomes
    the worker's latest heartbeat. *)
Theorem C9_recordHeartbeat (workerId : string) (s : Supervisor) :
  let n := hrtimeReads s in
  let s' := (recordHeartbeat workerId s).2 in
  (recordHeartbeat workerId s).1 = Ok ()
  ∧ match orElse (heartbeatTimestamps s !! workerId) (heartbeatStartedAt s) with
    | Some past =>
        trace s' = trace s
          ++ [Emit (info_workerHeartbeatDelta workerId
                ((nanoseconds (hrtimeSource s n) - nanoseconds past) `div` 1000000))]
        ∧ heartbeatTimestamps s' !! workerId = Some (hrtimeSource s (S n))
    | None =>
        trace s' = trace s
        ∧ heartbeatTimestamps s' !! workerId = Some (hrtimeSource s n)
    end
  ∧ (∀ other, other ≠ workerId →
       heartbeatTimestamps s' !! other = heartbeatTimestamps s !! other).
Proof.
  intros n s'. subst n s'. rewrite recordHeartbeat_eq.
  destruct (orElse _ _) as [past|]; simpl.
  - rewrite elapsed_milliseconds, lookup_insert_eq. repeat split.
    intros other Ho. by rewrite lookup_insert_ne.
  - rewrite lookup_insert_eq. repeat split.
    intros other Ho. by rewrite lookup_insert_ne.
Qed.

(** C9, the claim as stated fails: worker 1 of a pool of two sends a
    heartbeat before worker 2 is ready.  The heartbeat is received and
    stored, and no elapsed-time event is reported. *)
Lemma C9_heartbeat_before_monitoring :
  let s := run [CallConfigure (poolOf 2) emptySettings; CallStart]
               (newSupervisor everySecond) in
  let s' := step (ProcessMessage "1" heartbeat) s in
  heartbeatStartedAt s = None
  ∧ drop (length (trace s)) (trace s') = [Emit (workerHeartbeat "1")]
  ∧ heartbeatTimestamps s' !! "1" = Some (0, 0).
Proof. vm_compute. repeat split. Qed.

(** ** C7: stall detection *)

(** What one monitor tick reports for the live workers [entries], the
    first of which is measured with clock reading number [n]. *)
Fixpoint stallReport (clock : nat → hrtime) (stamps : gmap string hrtime)
    (started : hrtime) (tolerance : option Z) (n : nat)
    (entries : list (string * Worker)) : list Effect :=
  match entries with
  | [] => []
  | kw :: entries' =>
      let past := default started (stamps !! kw.1) in
      let heartbeatDelta := hrtimeToMilliseconds (hrtime_since (clock n) past) in
      (if geq heartbeatDelta tolerance
       then [Emit (workerStall kw.1);
             Emit (info_workerHeartbeatDelta kw.1 heartbeatDelta)]
       else [])
      ++ stallReport clock stamps started tolerance (S n) entries'
  end.

Definition monitorBody (kw : string * Worker) : M unit :=
    let workerId := kw.1 in
    workerHeartbeatTimestamp ←
      gets (λ s, orElse (heartbeatTimestamps s !! workerId) (heartbeatStartedAt s));
    elapsed ← process_hrtime_since workerHeartbeatTimestamp;
    let heartbeatDelta := hrtimeToMilliseconds elapsed in
    tolerance ← gets (λ s, heartbeatStallTolerance (settings s));
    if geq heartbeatDelta tolerance then
      emit (workerStall workerId);;
      emit (info_workerHeartbeatDelta workerId heartbeatDelta)
    else mret ().

Lemma monitorBody_eq (kw : string * Worker) (s : Supervisor) started :
  heartbeatStartedAt s = Some started →
  monitorBody kw s
  = (Ok (),
     set_hrtimeReads (S (hrtimeReads s))
       (set_trace (trace s
          ++ stallReport (hrtimeSource s) (heartbeatTimestamps s) started
               (heartbeatStallTolerance (settings s)) (hrtimeReads s) [kw]) s)).
Proof.
  intros Hs. unfold monitorBody, process_hrtime_since, process_hrtime, emit.
  munfold. simpl. rewrite Hs.
  assert (orElse (heartbeatTimestamps s !! kw.1) (Some started)
          = Some (default started (heartbeatTimestamps s !! kw.1))) as ->.
  { by destruct (heartbeatTimestamps s !! kw.1). }
  simpl. destruct (geq _ _) eqn:Hg; simpl.
  - unfold set_hrtimeReads, set_trace. simpl. by rewrite <- app_assoc.
  - unfold set_hrtimeReads, set_trace. simpl. by rewrite app_nil_r.
Qed.

Lemma monitor_loop (entries : list (string * Worker)) (s : Supervisor) started :
  heartbeatStartedAt s = Some started →
  forEach monitorBody entries s
  = (Ok (),
     set_hrtimeReads (hrtimeReads s + length entries)%nat
       (set_trace (trace s
          ++ stallReport (hrtimeSource s) (heartbeatTimestamps s) started
               (heartbeatStallTolerance (settings s)) (hrtimeReads s) entries) s)).
Proof.
  revert s. induction entries as [|kw entries IH]; intros s Hs.
  - simpl. rewrite app_nil_r, Nat.add_0_r. by destruct s.
  - cbn [forEach]. erewrite bind_Ok; [|by apply monitorBody_eq].
    rewrite IH by done. cbn [stallReport]. simpl.
    unfold set_hrtimeReads, set_trace. simpl.
    rewrite app_nil_r, <- !app_assoc. do 3 f_equal. lia.
Qed.

Lemma monitorHeartbeat_eq (s : Supervisor) started :
  heartbeatStartedAt s = Some started →
  monitorHeartbeat s
  = (Ok (),
     set_heartbeatTimeout
       (Some {| delay := heartbeatMonitorInterval (settings s); hasRef := false |})
       (set_hrtimeReads (hrtimeReads s + length (liveWorkers s))%nat
          (set_trace (trace s
             ++ stallReport (hrtimeSource s) (heartbeatTimestamps s) started
                  (heartbeatStallTolerance (settings s)) (hrtimeReads s)
                  (liveWorkers s)) s))).
Proof.
  intros Hs. unfold monitorHeartbeat. erewrite bind_Ok; [|reflexivity].
  fold (liveWorkers s). fold monitorBody.
  erewrite bind_Ok; [|by apply monitor_loop]. reflexivity.
Qed.

#[global] Instance Effect_eq_dec : EqDecision Effect.
Proof. solve_decision. Defined.

(** How often [e] occurs in a trace. *)
Definition occurrences (e : Effect) (tr : list Effect) : nat :=
  length (filter (λ e', e' = e) tr).

Lemma occurrences_app e tr1 tr2 :
  occurrences e (tr1 ++ tr2) = (occurrences e tr1 + occurrences e tr2)%nat.
Proof. unfold occurrences. by rewrite filter_app, length_app. Qed.

Definition stallLine (key : string) (heartbeatDelta : Z) (tolerance : option Z)
  : list Effect :=
  if geq heartbeatDelta tolerance
  then [Emit (workerStall key); Emit (info_workerHeartbeatDelta key heartbeatDelta)]
  else [].

Lemma stallLine_occurrences key key' d tolerance :
  occurrences (Emit (workerStall key)) (stallLine key' d tolerance)
  = if decide (key' = key) then (if geq d tolerance then 1 else 0)%nat else 0%nat.
Proof.
  unfold stallLine, occurrences. destruct (geq d tolerance); simpl.
  - rewrite filter_cons. destruct (decide (key' = key)) as [->|].
    + rewrite decide_True by done. rewrite filter_cons_False by done. done.
    + rewrite decide_False by congruence. rewrite filter_cons_False by done. done.
  - by destruct (decide _).
Qed.

Lemma stallReport_untracked clock stamps started tolerance n entries key :
  key ∉ entries.*1 →
  occurrences (Emit (workerStall key))
    (stallReport clock stamps started tolerance n entries) = 0%nat.
Proof.
  revert n. induction entries as [|kw entries IH]; intros n Hk; [done|].
  cbn [stallReport]. rewrite occurrences_app.
  fold (stallLine kw.1 (hrtimeToMilliseconds (hrtime_since (clock n)
          (default started (stamps !! kw.1)))) tolerance).
  rewrite stallLine_occurrences, IH.
  - rewrite decide_False; [done|]. intros Heq. apply Hk. rewrite <- Heq. csimpl. left.
  - intros H. apply Hk. csimpl. by right.
Qed.

Lemma stallReport_tracked clock stamps started tolerance n entries i key worker :
  NoDup entries.*1 →
  entries !! i = Some (key, worker) →
  occurrences (Emit (workerStall key))
    (stallReport clock stamps started tolerance n entries)
  = if geq (hrtimeToMilliseconds
              (hrtime_since (clock (n + i)%nat) (default started (stamps !! key))))
           tolerance
    then 1%nat else 0%nat.
Proof.
  revert n i. induction entries as [|kw entries IH]; intros n i Hnd Hi; [done|].
  csimpl in Hnd. apply NoDup_cons in Hnd as [Hkw Hnd].
  cbn [stallReport]. rewrite occurrences_app.
  fold (stallLine kw.1 (hrtimeToMilliseconds (hrtime_since (clock n)
          (default started (stamps !! kw.1)))) tolerance).
  rewrite stallLine_occurrences.
  destruct i as [|i]; simpl in Hi.
  - injection Hi as ->. simpl. rewrite decide_True by done.
    rewrite stallReport_untracked by done. by rewrite !Nat.add_0_r.
  - rewrite decide_False.
    + rewrite (IH (S n) i) by done. by replace (S n + i)%nat with (n + S i)%nat by lia.
    + intros Heq. apply Hkw. rewrite Heq.
      apply list_elem_of_fmap. exists (key, worker). split; [done|].
      by eapply list_elem_of_lookup_2.
Qed.

Lemma stallReport_delta clock stamps started tolerance n entries i key worker :
  entries !! i = Some (key, worker) →
  let heartbeatDelta :=
    hrtimeToMilliseconds
      (hrtime_since (clock (n + i)%nat) (default started (stamps !! key))) in
  geq heartbeatDelta tolerance = true →
  Emit (info_workerHeartbeatDelta key heartbeatDelta)
  ∈ stallReport clock stamps started tolerance n entries.
Proof.
  revert n i. induction entries as [|kw entries IH]; intros n i Hi d Hg; [done|].
  cbn [stallReport]. subst d. apply elem_of_app.
  destruct i as [|i]; simpl in Hi.
  - injection Hi as ->. left. rewrite Nat.add_0_r in *. simpl. rewrite Hg.
    right. left.
  - right. replace (n + S i)%nat with (S n + i)%nat in * by lia.
    by apply (IH (S n) i).
Qed.

Lemma stallReport_shape clock stamps started tolerance n entries :
  Forall (λ e, ∃ key, e = Emit (workerStall key)
               ∨ ∃ d, e = Emit (info_workerHeartbeatDelta key d))
    (stallReport clock stamps started tolerance n entries).
Proof.
  revert n. induction entries as [|kw entries IH]; intros n; [constructor|].
  cbn [stallReport]. apply Forall_app. split; [|apply IH].
  destruct (geq _ _); repeat constructor; eexists; eauto.
Qed.

Lemma liveWorkers_NoDup s :
  NoDup (Object_keys (workers s)) → NoDup (Object_keys (liveWorkers s)).
Proof.
  intros H. apply (sublist_NoDup _ (Object_keys (workers s))); [done|].
  unfold Object_keys, liveWorkers. apply fmap_sublist, sublist_filter.
Qed.

(** C7 (as the code has it).  At every monitor tick, each worker that is
    tracked and not dead is measured once: a [workerStall] event for it
    fires, with a delta event, exactly when the time since its latest
    heartbeat (or since monitoring started) has reached the tolerance, so a
    silent worker is reported again at every later tick.  A tick emits
    nothing else, signals and replaces no process, and re-arms the
    unreferenced timer. *)
Theorem C7_stall_detection (s : Supervisor) (started : hrtime) :
  heartbeatStartedAt s = Some started →
  NoDup (Object_keys (workers s)) →
  let s' := (monitorHeartbeat s).2 in
  ∃ report : list Effect,
    (monitorHeartbeat s).1 = Ok ()
    ∧ trace s' = trace s ++ report
    ∧ (∀ i key worker,
         liveWorkers s !! i = Some (key, worker) →
         let past := default started (heartbeatTimestamps s !! key) in
         let heartbeatDelta :=
           (nanoseconds (hrtimeSource s (hrtimeReads s + i)%nat) - nanoseconds past)
             `div` 1000000 in
         if geq heartbeatDelta (heartbeatStallTolerance (settings s))
         then occurrences (Emit (workerStall key)) report = 1%nat
              ∧ Emit (info_workerHeartbeatDelta key heartbeatDelta) ∈ report
         else occurrences (Emit (workerStall key)) report = 0%nat)
    ∧ (∀ key, key ∉ Object_keys (liveWorkers s) →
         occurrences (Emit (workerStall key)) report = 0%nat)
    ∧ Forall (λ e, ∃ key, e = Emit (workerStall key)
                   ∨ ∃ d, e = Emit (info_workerHeartbeatDelta key d)) report
    ∧ workers s' = workers s
    ∧ nextPid s' = nextPid s
    ∧ heartbeatTimestamps s' = heartbeatTimestamps s
    ∧ heartbeatStartedAt s' = heartbeatStartedAt s
    ∧ hrtimeReads s' = (hrtimeReads s + length (liveWorkers s))%nat
    ∧ heartbeatTimeout s'
      = Some {| delay := heartbeatMonitorInterval (settings s); hasRef := false |}.
Proof.
  intros Hs Hnd s'. subst s'. rewrite (monitorHeartbeat_eq s started) by done. simpl.
  eexists. split; [done|]. split; [done|]. split; [|split; [|split]].
  - intros i key worker Hi. cbv zeta. rewrite <- elapsed_milliseconds.
    pose proof (stallReport_tracked (hrtimeSource s) (heartbeatTimestamps s) started
      (heartbeatStallTolerance (settings s)) (hrtimeReads s) (liveWorkers s)
      i key worker (liveWorkers_NoDup s Hnd) Hi) as Hocc.
    destruct (geq _ _) eqn:Hg; [|done]. split; [done|].
    by eapply stallReport_delta.
  - intros key Hk. by apply stallReport_untracked.
  - apply stallReport_shape.
  - repeat split.
Qed.

Lemma C7_stall_detection_witness :
  let s := run [CallConfigure (poolOf 1) emptySettings; CallStart;
                ProcessMessage "1" ready] (newSupervisor everySecond) in
  heartbeatStartedAt s = Some (0, 0)
  ∧ NoDup (Object_keys (workers s))
  ∧ (monitorHeartbeat s).1 = Ok ()
  ∧ workers (monitorHeartbeat s).2 = workers s.
Proof.
  assert (NoDup (Object_keys (workers (run [CallConfigure (poolOf 1) emptySettings;
            CallStart; ProcessMessage "1" ready] (newSupervisor everySecond))))) as Hnd.
  { vm_compute. apply NoDup_singleton. }
  split; [reflexivity|]. split; [exact Hnd|].
  destruct (C7_stall_detection
              (run [CallConfigure (poolOf 1) emptySettings; CallStart;
                    ProcessMessage "1" ready] (newSupervisor everySecond))
              (0, 0) eq_refl Hnd) as (report & H1 & _ & _ & _ & _ & H2 & _).
  split; [exact H1|exact H2].
Defined.

(** C7, the claim as stated fails: default settings (tolerance 5000 ms,
    monitor interval 1000 ms), one worker that is ready, alive and silent,
    and six monitor ticks, one per second after monitoring started.  The
    ticks at 5000 ms and at 6000 ms each fire a [workerStall] event. *)
Lemma C7_two_stalls_in_six_seconds :
  let s := run [CallConfigure (poolOf 1) emptySettings; CallStart;
                ProcessMessage "1" ready] (newSupervisor everySecond) in
  let s' := run (replicate 6 MonitorTimer) s in
  heartbeatStallTolerance (settings s) = Some 5000
  ∧ heartbeatMonitorInterval (settings s) = Some 1000
  ∧ heartbeatStartedAt s = Some (0, 0)
  ∧ isDead <$> obj_get "1" (workers s') = Some false
  ∧ heartbeatTimestamps s' !! "1" = None
  ∧ drop (length (trace s)) (trace s')
    = [Emit (workerStall "1"); Emit (info_workerHeartbeatDelta "1" 5000);
       Emit (workerStall "1"); Emit (info_workerHeartbeatDelta "1" 6000)]
  ∧ occurrences (Emit (workerStall "1")) (trace s') = 2%nat.
Proof. vm_compute. repeat split. Qed.

(** ** C10: the worker table is fixed at pool creation *)



(** ** C2: crash replacement *)

(** C2. The process of a tracked, live worker exits.  With an exit code
    other than 0 and [closing] false, exactly one process is launched, for
    the same worker id, and it becomes the worker's process; with
    [closing] true nothing is launched and the worker stays on its exited
    process; with exit code 0 nothing is launched, whatever [closing] is,
    and [workerTerminated] is emitted. *)
Theorem C2_crash_replacement (s : Supervisor) (key : string) (worker : Worker)
    (exitCode : option Z) (signalCode : option string) :
  reachable s →
  obj_get key (workers s) = Some worker →
  isDead worker = false →
  let s' := step (ProcessExit key exitCode signalCode) s in
  let launched tr := filter (λ e, isFork e = true) tr in
  if decide (exitCode = Some 0) then
    launched (trace s') = launched (trace s)
    ∧ worker_process <$> obj_get key (workers s')
      = Some (markExited (worker_process worker))
    ∧ Emit (workerTerminated key) ∈ drop (length (trace s)) (trace s')
  else if closing s then
    launched (trace s') = launched (trace s)
    ∧ worker_process <$> obj_get key (workers s')
      = Some (markExited (worker_process worker))
  else
    ∃ exe argv environment flags,
      launched (trace s')
      = launched (trace s) ++ [Fork (nextPid s) exe argv environment flags]
      ∧ environment !! "POOL_HALL_ID" = Some key
      ∧ worker_process <$> obj_get key (workers s')
        = Some {| pid := nextPid s; exited := false; exitListener := true |}
      ∧ worker_id <$> obj_get key (workers s') = Some key.
Proof.
  intros Hr Hg Hd s' launched.
  pose proof (Inv_reachable s Hr) as HI.
  pose proof (reachable_queue s Hr) as Hq.
  pose proof (inv_listener s HI key worker Hg Hd) as Hl.
  destruct (exit_downed s key worker exitCode signalCode HI Hq Hg)
    as (HI3 & Hc3 & Hs3 & Hq3 & Hn3 & Hf3 & Ht3 & w3 & Hw3 & Hid3 & Hp3).
  set (s3 := downed key exitCode signalCode (exiting key worker s)) in *.
  assert (∀ t, framed isFork false false t (runMicrotasks t).2) as Hmicro.
  { by apply framed_runMicrotasks. }
  unfold s', step. rewrite (handle_exit key worker) by done. rewrite onExit_eq.
  fold s3. destruct (decide (exitCode = Some 0)) as [Hcode|Hcode].
  - (* a clean exit *)
    assert (framed isFork false false s3
              (worker_emit key worker_terminated s3).2) as Hf4.
    { by apply framed_worker_emit_quiet. }
    assert (trace (worker_emit key worker_terminated s3).2
            = trace s3 ++ [Emit (workerTerminated key)]) as Ht4 by done.
    set (s4 := (worker_emit key worker_terminated s3).2) in *.
    assert (drain s4 = runMicrotasks s4) as ->.
    { unfold drain, runNextTicks. munfold.
      rewrite (fr_queue _ _ _ _ _ Hf4), Hq3. simpl.
      rewrite set_nextTickQueue_id by (by rewrite (fr_queue _ _ _ _ _ Hf4)).
      by destruct (runMicrotasks s4) as [[[]|] ?]. }
    specialize (Hmicro s4).
    pose proof (ev_trace _ _ _ (steady_evolves _ _ _ (steady_runMicrotasks false s4))) as Ht5.
    set (s5 := (runMicrotasks s4).2) in *.
    split; [|split].
    + unfold launched. by rewrite (fr_trace _ _ _ _ _ Hmicro), (fr_trace _ _ _ _ _ Hf4).
    + destruct (processes_lookup s4 s5 key (fr_processes _ _ _ _ _ Hmicro eq_refl))
        as [-> _].
      destruct (processes_lookup s3 s4 key (fr_processes _ _ _ _ _ Hf4 eq_refl))
        as [-> _].
      by rewrite Hw3, <- Hp3.
    + destruct Ht3 as [d1 Hd1]. destruct Ht5 as [d2 Hd2].
      rewrite Hd2, Ht4, Hd1, <- !app_assoc, drop_app_length.
      set_solver.
  - (* a crash: the replacement is deferred to the next tick *)
    set (s4 := (process_nextTick key s3).2).
    assert (drain s4
            = (replaceWorkerProcess key ≫= λ _, runMicrotasks)
                (set_nextTickQueue [] s3)) as ->.
    { unfold drain, runNextTicks, s4, process_nextTick. munfold. simpl.
      rewrite Hq3. simpl.
      change (set_nextTickQueue [] (set_nextTickQueue [key] s3))
        with (set_nextTickQueue [] s3).
      munfold. by destruct (replaceWorkerProcess _ _) as [[[]|] ?]. }
    set (s5 := set_nextTickQueue [] s3).
    unfold mbind, M_bind. rewrite replaceWorkerProcess_eq.
    replace (closing s5) with (closing s) by done.
    destruct (closing s) eqn:Hclosing.
    + specialize (Hmicro s5). set (s6 := (runMicrotasks s5).2) in *.
      split.
      * unfold launched. by rewrite (fr_trace _ _ _ _ _ Hmicro).
      * destruct (processes_lookup s5 s6 key (fr_processes _ _ _ _ _ Hmicro eq_refl))
          as [-> _].
        unfold s5. simpl. by rewrite Hw3, <- Hp3.
    + replace (workers s5) with (workers s3) by done. rewrite Hw3.
      rewrite createWorkerProcess_eq.
      replace (settings s5) with (settings s) by done.
      destruct (inv_launch s HI) as [[perWorker He] [flags Ha]]; [by destruct (workers s)|].
      rewrite He, Ha.
      match goal with |- context [runMicrotasks ?t] =>
        specialize (Hmicro t); set (s6 := t) in * end.
      set (s7 := (runMicrotasks s6).2) in *.
      eexists _, _, _, _. split; [|split; [|split]].
      * unfold launched. rewrite (fr_trace _ _ _ _ _ Hmicro). unfold s6. simpl.
        rewrite filter_app, Hf3. f_equal. unfold launch. simpl.
        rewrite filter_cons_True by done. rewrite Hn3. reflexivity.
      * rewrite lookup_insert_ne by done. rewrite lookup_insert_eq. by rewrite Hid3.
      * destruct (processes_lookup s6 s7 key (fr_processes _ _ _ _ _ Hmicro eq_refl))
          as [-> _].
        unfold s6. simpl. rewrite obj_get_alter, decide_True, Hw3 by done.
        simpl. by rewrite Hn3.
      * destruct (processes_lookup s6 s7 key (fr_processes _ _ _ _ _ Hmicro eq_refl))
          as [_ ->].
        unfold s6. simpl. rewrite obj_get_alter, decide_True, Hw3 by done.
        simpl. by rewrite Hid3.
Qed.

Lemma C2_crash_replacement_witness :
  let s := run [CallConfigure (poolOf 2) emptySettings; CallStart]
               (newSupervisor everySecond) in
  let worker := {| worker_id := "1"; worker_state := down;
                   worker_process := {| pid := 0; exited := false;
                                        exitListener := true |} |} in
  let s' := step (ProcessExit "1" (Some 1) None) s in
  reachable s
  ∧ obj_get "1" (workers s) = Some worker
  ∧ isDead worker = false
  ∧ ∃ exe argv environment flags,
      filter (λ e, isFork e = true) (trace s')
      = filter (λ e, isFork e = true) (trace s)
        ++ [Fork (nextPid s) exe argv environment flags]
      ∧ environment !! "POOL_HALL_ID" = Some "1"
      ∧ worker_process <$> obj_get "1" (workers s')
        = Some {| pid := nextPid s; exited := false; exitListener := true |}
      ∧ worker_id <$> obj_get "1" (workers s') = Some "1".
Proof.
  assert (reachable (run [CallConfigure (poolOf 2) emptySettings; CallStart]
                         (newSupervisor everySecond))) as Hr.
  { by exists everySecond, [CallConfigure (poolOf 2) emptySettings; CallStart]. }
  split; [exact Hr|]. split; [reflexivity|]. split; [reflexivity|].
  exact (C2_crash_replacement _ "1" _ (Some 1) None Hr eq_refl eq_refl).
Defined.

(** ** The races of [stop()] are bounded *)

(** The timer events of promise [i]. *)
Definition isRaceTimer (i : nat) (x : Input) : bool :=
  match x with RaceTimer j _ => bool_decide (j = i) | _ => false end.

Definition timeouts (i : nat) (inputs : list Input) : nat :=
  length (filter (λ x, isRaceTimer i x = true) inputs).

Lemma onRaceTimeout_promises i listenerThrows t race thens :
  promises t !! i = Some (Pending race thens) →
  ∃ p, promises (onRaceTimeout i listenerThrows t).2 = <[i := p]> (promises t)
       ∧ (rank (Some p) ≤ length thens)%nat.
Proof.
  intros Hi. unfold onRaceTimeout. erewrite bind_Ok; [|reflexivity]. rewrite Hi.
  destruct (runTimeoutCallback_total (onTimeout race) t) as (t1 & Hc & Hcp).
  erewrite bind_Ok; [|exact Hc].
  destruct (settle_total (if listenerThrows then Rejected else Fulfilled true) thens t1)
    as (p & t2 & Hs & Hp & Hr & _).
  erewrite bind_Ok; [|exact Hs]. exists p. simpl. split; [congruence|done].
Qed.

(** A timeout of the pending race, with or without a throwing listener,
    runs the next link of the chain. *)
Lemma timeout_advances i listenerThrows t race thens :
  promises t !! i = Some (Pending race thens) →
  (rank (promises (step (RaceTimer i listenerThrows) t) !! i) ≤ length thens)%nat.
Proof.
  intros Hi. unfold step.
  etrans; [apply (ev_rank _ _ _ (steady_evolves _ _ _ (steady_drain false _)))|].
  simpl. destruct (onRaceTimeout_promises i listenerThrows t race thens Hi)
    as (p & -> & Hr).
  rewrite list_lookup_insert_eq; [done|]. by eapply lookup_lt_Some.
Qed.

Lemma rank_settled (ps : list Promise) i :
  is_Some (ps !! i) → rank (ps !! i) = 0%nat → ∃ o, ps !! i = Some (Settled o).
Proof. intros [[race thens|o] ->]; simpl; [done|eauto]. Qed.

Lemma promise_stays inputs t i :
  is_Some (promises t !! i) → is_Some (promises (run inputs t) !! i).
Proof.
  intros H%lookup_lt_is_Some. apply lookup_lt_is_Some.
  pose proof (ev_promises _ _ _ (evolves_run false inputs t ltac:(done))). lia.
Qed.

Lemma run_cons x inputs t : run (x :: inputs) t = run inputs (step x t).
Proof. done. Qed.

Lemma timeouts_settle inputs t i :
  is_Some (promises t !! i) →
  (rank (promises (run inputs t) !! i) ≤ rank (promises t !! i) - timeouts i inputs)%nat.
Proof.
  revert t. induction inputs as [|x inputs IH]; intros t Hi.
  - change (run [] t) with t. unfold timeouts. rewrite filter_nil.
    change (length (@nil Input)) with 0%nat. lia.
  - rewrite run_cons. etrans; [apply IH|].
    { apply (promise_stays [x] t i Hi). }
    unfold timeouts. rewrite filter_cons.
    destruct (decide (isRaceTimer i x = true)) as [Hx|Hx]; simpl.
    + destruct x as [| | | | | |j b]; try done. simpl in Hx.
      apply bool_decide_eq_true in Hx as ->.
      destruct Hi as [[race thens|o] Hi].
      * pose proof (timeout_advances i b t race thens Hi). rewrite Hi. simpl.
        fold (timeouts i inputs). lia.
      * pose proof (ev_rank _ _ _ (evolves_step false (RaceTimer i b) t ltac:(done)) i).
        rewrite Hi in *. simpl in *. lia.
    + pose proof (ev_rank _ _ _ (evolves_step false x t ltac:(done)) i).
      fold (timeouts i inputs). lia.
Qed.

(** ** C6: kill sweeps over a dead pool *)

(** C6, the claim as stated fails: a pool of one worker that is up;
    [stop()], then [start()] while the gentle stop is pending, then the
    worker exits with code 1.  The only worker has gone down during the
    gentle-stop phase, before any timer of the sequence fired, and the
    gentle stop resolves; but [start()] has cleared [closing], so the worker
    is replaced in the turn of its exit, and the SIGTERM sweep finds the
    replacement alive and signals it. *)
Lemma C6_signal_after_restart :
  let s := run [CallConfigure (poolOf 1) emptySettings; CallStart;
                ProcessMessage "1" ready] (newSupervisor everySecond) in
  let s1 := run [CallStop; CallStart; ProcessExit "1" (Some 1) None] s in
  promises s = []
  ∧ kills (trace s) = []
  ∧ filter (λ e, isFork e = false) (drop (length (trace s)) (trace s1))
    = [Send "1" shutdown; Emit (workerDown "1" (Some 1) None);
       Emit (info_workersUpCount 0 (Some 1) (Some 1)); Send "1" unhealthy;
       Emit (info_liveWorkersAtKill SIGTERM 1); Kill "1" 1 SIGTERM]
  ∧ kills (trace s1) = [Kill "1" 1 SIGTERM].
Proof. vm_compute. repeat split. Qed.

(** An earlier [stop()] that is still pending may signal as well: after
    [stop()], [start()] and the replacement of worker 1, the first promise
    awaits worker 2 only.  During the gentle phase of a second [stop()]
    worker 2 exits, which resolves the first gentle stop, whose SIGTERM
    sweep signals worker 1; by the end of the phase both workers are dead. *)
Example earlier_stop_signals :
  let s := run [CallConfigure (poolOf 2) emptySettings; CallStart;
                ProcessMessage "1" ready; ProcessMessage "2" ready;
                CallStop; CallStart; ProcessExit "1" (Some 1) None]
               (newSupervisor everySecond) in
  let s1 := run [CallStop; ProcessExit "2" (Some 0) None;
                 ProcessExit "1" (Some 0) None] s in
  kills (trace s) = []
  ∧ isDead <$> Object_values (workers s1) = [true; true]
  ∧ kills (trace s1) = [Kill "1" 2 SIGTERM].
Proof. vm_compute. repeat split. Qed.

(** C6, as amended.  A kill sweep that finds every tracked worker dead
    resolves at once and signals no process, and so does the rest of the
    chain.  Hence, for a [stop()] called while no earlier [stop()] is
    pending: if during the gentle-stop phase [start()] is not called and no
    timer of a race fires, and by the end of the phase all workers are
    dead, then no signal has been sent during the phase, and none is sent
    afterwards by what the runtime delivers (exits, messages, timers). *)
Theorem C6_no_signal_when_all_down :
  (∀ s signal, Inv s → allDead s → killProcesses signal s = (Ok [], s))
  ∧ (∀ s o thens, Inv s → allDead s →
       ∃ o', settle o thens s = (Ok (Settled o'), s))
  ∧ (∀ s gentle later,
       reachable s →
       Forall (λ p, ∃ o, p = Settled o) (promises s) →
       Forall (λ x, unhurried x = true) gentle →
       Forall (λ x, delivered x = true) later →
       let s1 := run gentle (step CallStop s) in
       allDead s1 →
       kills (trace s1) = kills (trace s)
       ∧ kills (trace (run later s1)) = kills (trace s)).
Proof.
  split; [|split].
  - intros s signal HI Hdead. rewrite killProcesses_eq.
    by rewrite liveWorkers_dead.
  - intros s o thens HI Hdead. rewrite settle_dead by by apply liveWorkers_dead.
    eauto.
  - intros s gentle later Hr Hsettled Hgentle Hlater s1 Hdead.
    pose proof (closing_stop s (Inv_reachable s Hr) Hsettled) as HC0.
    destruct (closing_run_gentle _ gentle _ Hgentle HC0) as [HC1 _].
    destruct (closing_run_dead _ later _ Hlater HC1 Hdead) as [HC2 _].
    split; [apply (cl_kills _ _ HC1)|apply (cl_kills _ _ HC2)].
Qed.

Lemma C6_no_signal_when_all_down_witness :
  let s := run [CallConfigure (poolOf 2) emptySettings; CallStart;
                ProcessMessage "1" ready; ProcessMessage "2" ready]
               (newSupervisor everySecond) in
  let gentle := [ProcessExit "2" (Some 0) None; CallStop;
                 CallConfigure (poolOf 5) emptySettings;
                 ProcessMessage "1" heartbeat;
                 ProcessExit "1" None (Some "SIGINT")] in
  let later := [MonitorTimer; RaceTimer 1 false; RaceTimer 0 true] in
  let s1 := run gentle (step CallStop s) in
  reachable s
  ∧ allDead s1
  ∧ promises s1 !! 0%nat = Some (Settled (Fulfilled false))
  ∧ kills (trace (run later s1)) = [].
Proof.
  set (s := run [CallConfigure (poolOf 2) emptySettings; CallStart;
                 ProcessMessage "1" ready; ProcessMessage "2" ready]
                (newSupervisor everySecond)).
  set (gentle := [ProcessExit "2" (Some 0) None; CallStop;
                  CallConfigure (poolOf 5) emptySettings;
                  ProcessMessage "1" heartbeat;
                  ProcessExit "1" None (Some "SIGINT")]).
  set (later := [MonitorTimer; RaceTimer 1 false; RaceTimer 0 true]).
  assert (reachable s) as Hr.
  { by exists everySecond, [CallConfigure (poolOf 2) emptySettings; CallStart;
                            ProcessMessage "1" ready; ProcessMessage "2" ready]. }
  assert (allDead (run gentle (step CallStop s))) as Hdead.
  { intros k w. replace (workers (run gentle (step CallStop s)))
      with [("1", {| worker_id := "1"; worker_state := down;
                     worker_process := {| pid := 0; exited := true;
                                          exitListener := false |} |});
            ("2", {| worker_id := "2"; worker_state := down;
                     worker_process := {| pid := 1; exited := true;
                                          exitListener := false |} |})]
      by (clear; vm_compute; reflexivity).
    simpl. destruct (decide ("1" = k)); [by intros [= <-]|].
    destruct (decide ("2" = k)); [by intros [= <-]|done]. }
  split; [exact Hr|]. split; [exact Hdead|].
  split; [clear; vm_compute; reflexivity|].
  destruct C6_no_signal_when_all_down as (_ & _ & H).
  destruct (H s gentle later Hr) as [_ ->].
  - constructor.
  - repeat constructor.
  - repeat constructor.
  - exact Hdead.
  - clear. vm_compute. reflexivity.
Defined.
(** ** C8: health recomputation and broadcast *)

(** C8.  Every [workerUp] and every [workerDown] event runs [setPoolHealth]
    once: the event is followed in the trace by one up-count report and one
    health message per tracked worker, whose status is [poolHealth] of the
    up-count, [workerCount], [minWorkerCount] and the [initializing] flag,
    whatever was broadcast before.  In every reachable state the health
    effects of the trace are a sequence of such rounds and nothing else: the
    trace holds as many recomputations as [workerUp] and [workerDown]
    events, every tracked worker was sent one health message per
    recomputation, and no health message went to any other id. *)
Theorem C8_health_broadcast :
  (∀ e s, changesHealth e = true →
     let status := poolHealth (upCount s) (workerCount (settings s))
                              (minWorkerCount (settings s)) (initializing s) in
     (emit e s).1 = Ok ()
     ∧ trace (emit e s).2
       = trace s
         ++ Emit e
         :: Emit (info_workersUpCount (upCount s) (workerCount (settings s))
                                      (minWorkerCount (settings s)))
         :: ((λ k, Send k status) <$> Object_keys (workers s))
     ∧ (status = healthy ∨ status = unhealthy))
  ∧ (∀ s, reachable s →
       (∃ rounds,
          health (trace s) = concat (round (Object_keys (workers s)) <$> rounds)
          ∧ Forall (λ r, changesHealth (round_event r) = true) rounds)
       ∧ recomputations (trace s) = transitions (trace s)
       ∧ ∀ k, healthMessagesTo k (trace s)
              = if decide (k ∈ Object_keys (workers s))
                then recomputations (trace s) else 0%nat).
Proof.
  split.
  - intros e s He status. rewrite emit_changesHealth by done. simpl.
    split; [done|]. split; [done|]. apply poolHealth_status.
  - intros s Hs. destruct (Tally_reachable s Hs) as [H1 H2 H3 _ H5].
    split; [done|]. split; [done|]. intros k. destruct (decide _); auto.
Qed.

(** Two of three workers report ready, one after the other: both rounds
    broadcast [unhealthy] to all three workers. *)
Example health_broadcast_repeats :
  health (trace (run [CallConfigure (poolOf 3) emptySettings; CallStart;
                      ProcessMessage "1" ready; ProcessMessage "2" ready]
                     (newSupervisor everySecond)))
  = [Emit (workerUp "1"); Emit (info_workersUpCount 1 (Some 3) (Some 3));
     Send "1" unhealthy; Send "2" unhealthy; Send "3" unhealthy;
     Emit (workerUp "2"); Emit (info_workersUpCount 2 (Some 3) (Some 3));
     Send "1" unhealthy; Send "2" unhealthy; Send "3" unhealthy].
Proof. vm_compute. reflexivity. Qed.

(** * Further properties of the supervisor *)

(** ** Configuration *)

(** X2. A successful [configure] takes every setting from [settings], else
    from [baseSettings], else from the defaults, where a setting counts as
    given when the object has the key.  The two required settings count
    only when [settings] itself has them: [baseSettings] cannot supply
    them, and [configure] then throws and leaves the settings as they
    were. *)
Theorem X2_configure_precedence (s : Supervisor) (settings' baseSettings : Settings) :
  configured s = false →
  (is_Some (workerCount settings') → is_Some (workerEnv settings') →
   let cfg := settings (configure settings' baseSettings s).2 in
   let pick {A} (field : Settings → option A) :=
     orElse (field settings') (orElse (field baseSettings) (field DEFAULT_SETTINGS)) in
   (configure settings' baseSettings s).1 = Ok ()
   ∧ workerCount cfg = workerCount settings'
   ∧ workerEnv cfg = workerEnv settings'
   ∧ exec cfg = pick exec ∧ args cfg = pick args
   ∧ env cfg = pick env ∧ execArgv cfg = pick execArgv
   ∧ gentleStopTimeout cfg = pick gentleStopTimeout
   ∧ killTimeout cfg = pick killTimeout
   ∧ heartbeatWorkerInterval cfg = pick heartbeatWorkerInterval
   ∧ heartbeatMonitorInterval cfg = pick heartbeatMonitorInterval
   ∧ heartbeatStallTolerance cfg = pick heartbeatStallTolerance)
  ∧ (workerCount settings' = None ∨ workerEnv settings' = None →
     ∃ message, (configure settings' baseSettings s).1 = Throw (Error message)
                ∧ settings (configure settings' baseSettings s).2 = settings s).
Proof.
  intros Hc. split.
  - intros Hw He. rewrite configure_ok by done. simpl.
    destruct Hw as [c Hw], He as [e He]. rewrite Hw, He.
    repeat split; unfold spreadKey, orElse; simpl;
      repeat case_match; simplify_eq; eauto.
  - intros H. destruct (workerCount settings') as [c|] eqn:Hw.
    + destruct H as [|He]; [done|].
      rewrite configure_missing_workerEnv by eauto. eauto.
    + rewrite configure_missing_workerCount by done. eauto.
Qed.

Lemma X2_configure_precedence_witness :
  let s := newSupervisor everySecond in
  let base := set_minWorkerCount (Some 1) DEFAULT_SETTINGS in
  configured s = false
  ∧ killTimeout (settings (configure (poolOf 3) base s).2) = Some 2000
  ∧ execArgv (settings (configure (poolOf 3) base s).2) = Some [].
Proof.
  split; [reflexivity|].
  pose proof (proj1 (X2_configure_precedence (newSupervisor everySecond) (poolOf 3)
    (set_minWorkerCount (Some 1) DEFAULT_SETTINGS) eq_refl)
    (ex_intro _ _ eq_refl) (ex_intro _ _ eq_refl)) as H.
  cbv zeta in H. destruct H as (_ & _ & _ & _ & _ & _ & Ha & _ & Hk & _).
  split; [exact Hk|exact Ha].
Defined.

(** ** The settings are written once *)

(** Once [configure] has been entered, [this.settings] is no longer
    assigned. *)
Definition frozen (s s' : Supervisor) : Prop :=
  configured s = true → configured s' = true ∧ settings s' = settings s.

#[global] Instance frozen_preorder : PreOrder frozen.
Proof.
  split; [by intros s|]. intros s1 s2 s3 H1 H2 H.
  destruct (H1 H) as [H1' ?]. destruct (H2 H1') as [? ?]. split; congruence.
Qed.

Ltac frozen_leaf := intros ?; simpl; done.

Lemma frozen_perform e : respects frozen (perform e).
Proof. by intros s. Qed.
Lemma frozen_process_hrtime : respects frozen process_hrtime.
Proof. by intros s. Qed.
Lemma frozen_alterWorker key f : respects frozen (alterWorker key f).
Proof. by intros s. Qed.
#[global] Hint Resolve frozen_perform frozen_process_hrtime frozen_alterWorker : respects.
Lemma frozen_process_hrtime_since past : respects frozen (process_hrtime_since past).
Proof. unfold process_hrtime_since. respects_go. Qed.
#[global] Hint Resolve frozen_process_hrtime_since : respects.
Lemma frozen_internalSend a : respects frozen (internalSend a).
Proof. unfold internalSend, worker_send. respects_go. Qed.
#[global] Hint Resolve frozen_internalSend : respects.
Lemma frozen_setPoolHealth : respects frozen setPoolHealth.
Proof. unfold setPoolHealth. respects_go; try frozen_leaf. Qed.
Lemma frozen_recordHeartbeat workerId : respects frozen (recordHeartbeat workerId).
Proof. unfold recordHeartbeat. respects_go; try frozen_leaf. Qed.
#[global] Hint Resolve frozen_setPoolHealth frozen_recordHeartbeat : respects.
Lemma frozen_emit e : respects frozen (emit e).
Proof. unfold emit. destruct e; respects_go. Qed.
#[global] Hint Resolve frozen_emit : respects.
Lemma frozen_scheduleMonitor : respects frozen scheduleMonitor.
Proof. unfold scheduleMonitor. respects_go; try frozen_leaf. Qed.
#[global] Hint Resolve frozen_scheduleMonitor : respects.
Lemma frozen_monitorHeartbeat : respects frozen monitorHeartbeat.
Proof. unfold monitorHeartbeat. respects_go. Qed.
#[global] Hint Resolve frozen_monitorHeartbeat : respects.
Lemma frozen_configure settings' baseSettings :
  respects frozen (configure settings' baseSettings).
Proof. intros s Hc. by rewrite configure_twice. Qed.
#[global] Hint Resolve frozen_configure : respects.
Lemma frozen_createWorkerProcess id : respects frozen (createWorkerProcess id).
Proof. unfold createWorkerProcess, fork. respects_go; try frozen_leaf. Qed.
#[global] Hint Resolve frozen_createWorkerProcess : respects.
Lemma frozen_replaceWorkerProcess key : respects frozen (replaceWorkerProcess key).
Proof. unfold replaceWorkerProcess. respects_go. Qed.
#[global] Hint Resolve frozen_replaceWorkerProcess : respects.
Lemma frozen_worker_emit key e : respects frozen (worker_emit key e).
Proof. unfold worker_emit. destruct e; respects_go; try frozen_leaf. Qed.
#[global] Hint Resolve frozen_worker_emit : respects.
Lemma frozen_workerInternalMessageHandler key message :
  respects frozen (workerInternalMessageHandler key message).
Proof. unfold workerInternalMessageHandler. respects_go. Qed.
Lemma frozen_onExit key exitCode signalCode :
  respects frozen (onExit key exitCode signalCode).
Proof. unfold onExit, process_nextTick. respects_go; try frozen_leaf. Qed.
#[global] Hint Resolve frozen_workerInternalMessageHandler frozen_onExit : respects.
Lemma frozen_createWorkers ids acc : respects frozen (createWorkers ids acc).
Proof.
  revert acc. induction ids as [|id ids IH]; intros acc; simpl; respects_go;
  try frozen_leaf.
Qed.
#[global] Hint Resolve frozen_createWorkers : respects.
Lemma frozen_onAllReady : respects frozen onAllReady.
Proof. unfold onAllReady. respects_go; try frozen_leaf. Qed.
Lemma frozen_start : respects frozen start.
Proof. unfold start, createWorkerPool. respects_go; try frozen_leaf. Qed.
#[global] Hint Resolve frozen_onAllReady frozen_start : respects.
Lemma frozen_killProcesses signal : respects frozen (killProcesses signal).
Proof. unfold killProcesses. respects_go. Qed.
#[global] Hint Resolve frozen_killProcesses : respects.
Lemma frozen_settle o thens : respects frozen (settle o thens).
Proof.
  revert o. induction thens as [|[h1 h2] thens IH]; intros o; simpl;
    unfold runHandler; respects_go;
    try (destruct (then_ h1 h2 o); respects_go).
Qed.
#[global] Hint Resolve frozen_settle : respects.
Lemma frozen_stop : respects frozen stop.
Proof. unfold stop, gentleStop. respects_go; try frozen_leaf. Qed.
Lemma frozen_onRaceTimeout i listenerThrows :
  respects frozen (onRaceTimeout i listenerThrows).
Proof.
  unfold onRaceTimeout, runTimeoutCallback, setPromise. respects_go; try frozen_leaf;
    try (destruct (onTimeout _); respects_go).
Qed.
Lemma frozen_runReactions i : respects frozen (runReactions i).
Proof. unfold runReactions, setPromise. respects_go; try frozen_leaf. Qed.
#[global] Hint Resolve frozen_stop frozen_onRaceTimeout frozen_runReactions : respects.
Lemma frozen_drain : respects frozen drain.
Proof. unfold drain, runNextTicks, runMicrotasks. respects_go; try frozen_leaf. Qed.
Lemma frozen_handle i : respects frozen (handle i).
Proof. destruct i; simpl; respects_go. Qed.

Lemma frozen_run inputs s : frozen s (run inputs s).
Proof.
  induction inputs as [|i inputs IH] using rev_ind; [reflexivity|].
  rewrite run_snoc. etrans; [exact IH|]. unfold step.
  etrans; [apply frozen_handle|apply frozen_drain].
Qed.

(** X3. Once [configure] has been entered, successfully or not, the
    supervisor is configured for good and its settings never change again,
    whatever is called and whatever happens. *)
Theorem X3_settings_written_once (s : Supervisor) (inputs : list Input) :
  configured s = true →
  configured (run inputs s) = true ∧ settings (run inputs s) = settings s.
Proof. apply frozen_run. Qed.

Lemma X3_settings_written_once_witness :
  let s := step (CallConfigure (poolOf 2) emptySettings) (newSupervisor everySecond) in
  let inputs := [CallStart; CallConfigure (poolOf 5) emptySettings;
                 ProcessMessage "1" ready; CallStop] in
  configured s = true
  ∧ workerCount (settings (run inputs s)) = Some 2.
Proof.
  split; [reflexivity|].
  pose proof (X3_settings_written_once
    (step (CallConfigure (poolOf 2) emptySettings) (newSupervisor everySecond))
    [CallStart; CallConfigure (poolOf 5) emptySettings;
     ProcessMessage "1" ready; CallStop] eq_refl) as [_ H].
  cbv zeta. rewrite H. reflexivity.
Defined.

(** ** Heartbeat monitoring starts once and never stops *)

Definition allUps (tr : list Effect) : nat := occurrences (Emit workerAllUp) tr.

Lemma allUps_snoc tr e : e ≠ Emit workerAllUp → allUps (tr ++ [e]) = allUps tr.
Proof.
  intros He. unfold allUps. rewrite occurrences_app. unfold occurrences at 2.
  rewrite filter_cons_False by done. simpl. lia.
Qed.

Lemma allUps_app_none tr tr' :
  Forall (λ e, e ≠ Emit workerAllUp) tr' → allUps (tr ++ tr') = allUps tr.
Proof.
  intros H. unfold allUps. rewrite occurrences_app.
  assert (occurrences (Emit workerAllUp) tr' = 0%nat) as ->; [|lia].
  unfold occurrences. induction H as [|e tr' He H IH]; [done|].
  by rewrite filter_cons_False.
Qed.

(** The state of the monitor: idle until every worker has reported ready,
    running ever after. *)
Record Mon (s : Supervisor) : Prop := {
  mon_idle : heartbeatStartedAt s = None →
    heartbeatTimeout s = None ∧ allUps (trace s) = 0%nat;
  mon_running : is_Some (heartbeatStartedAt s) →
    is_Some (heartbeatTimeout s) ∧ allUps (trace s) = 1%nat ∧ readyJoin s = None;
  mon_fresh : workerPoolCreated s = false →
    readyJoin s = None ∧ heartbeatStartedAt s = None;
  mon_unref : ∀ t, heartbeatTimeout s = Some t → hasRef t = false;
}.

Definition monitored (s s' : Supervisor) : Prop :=
  Mon s →
  Mon s'
  ∧ (is_Some (heartbeatStartedAt s) → heartbeatStartedAt s' = heartbeatStartedAt s)
  ∧ (workerPoolCreated s = true → workerPoolCreated s' = true).

#[global] Instance monitored_preorder : PreOrder monitored.
Proof.
  split; [by intros s|]. intros s1 s2 s3 H1 H2 H.
  destruct (H1 H) as (M2 & Hs2 & Hc2). destruct (H2 M2) as (M3 & Hs3 & Hc3).
  split; [done|]. split; [|auto].
  intros Hs. rewrite Hs3; [auto|]. by rewrite Hs2.
Qed.

Ltac monitored_leaf :=
  lazymatch goal with
  | |- monitored _ _ =>
      intros [Hidle Hrun Hfresh Hunref];
      (split; [split|split]); simpl; rewrite ?allUps_snoc by done; try done
  end.

Lemma monitored_perform e : e ≠ Emit workerAllUp → respects monitored (perform e).
Proof. intros He s. monitored_leaf. Qed.
Lemma monitored_process_hrtime : respects monitored process_hrtime.
Proof. intros s. monitored_leaf. Qed.
Lemma monitored_alterWorker key f : respects monitored (alterWorker key f).
Proof. intros s. monitored_leaf. Qed.
#[global] Hint Resolve monitored_process_hrtime monitored_alterWorker : respects.
Lemma monitored_process_hrtime_since past : respects monitored (process_hrtime_since past).
Proof. unfold process_hrtime_since. respects_go. Qed.
#[global] Hint Resolve monitored_process_hrtime_since : respects.
Lemma monitored_internalSend a : respects monitored (internalSend a).
Proof. unfold internalSend, worker_send. respects_go; try monitored_leaf. Qed.
#[global] Hint Resolve monitored_internalSend : respects.
Lemma monitored_setPoolHealth : respects monitored setPoolHealth.
Proof. unfold setPoolHealth. respects_go; try monitored_leaf. Qed.
Lemma monitored_recordHeartbeat workerId : respects monitored (recordHeartbeat workerId).
Proof. unfold recordHeartbeat. respects_go; try monitored_leaf. Qed.
#[global] Hint Resolve monitored_setPoolHealth monitored_recordHeartbeat : respects.
Lemma monitored_emit e : e ≠ workerAllUp → respects monitored (emit e).
Proof.
  intros He. unfold emit.
  assert (Emit e ≠ Emit workerAllUp) by congruence.
  destruct e; respects_go; try monitored_leaf.
Qed.
#[global] Hint Extern 1 (respects monitored (emit _)) =>
  apply monitored_emit; discriminate : respects.

Lemma monitored_configure settings' baseSettings :
  respects monitored (configure settings' baseSettings).
Proof. unfold configure. respects_go; try monitored_leaf. Qed.
Lemma monitored_createWorkerProcess id : respects monitored (createWorkerProcess id).
Proof. unfold createWorkerProcess, fork. respects_go; try monitored_leaf. Qed.
#[global] Hint Resolve monitored_configure monitored_createWorkerProcess : respects.
Lemma monitored_replaceWorkerProcess key : respects monitored (replaceWorkerProcess key).
Proof. unfold replaceWorkerProcess. respects_go. Qed.
#[global] Hint Resolve monitored_replaceWorkerProcess : respects.

Lemma monitored_worker_emit key e : respects monitored (worker_emit key e).
Proof.
  unfold worker_emit. destruct e; respects_go; try monitored_leaf.
  - intros Hs. destruct (Hrun Hs) as (? & ? & ->). done.
  - intros Hc. destruct (Hfresh Hc) as [-> ?]. done.
Qed.
#[global] Hint Resolve monitored_worker_emit : respects.
Lemma monitored_workerInternalMessageHandler key message :
  respects monitored (workerInternalMessageHandler key message).
Proof. unfold workerInternalMessageHandler. respects_go. Qed.
Lemma monitored_onExit key exitCode signalCode :
  respects monitored (onExit key exitCode signalCode).
Proof. unfold onExit, process_nextTick. respects_go; try monitored_leaf. Qed.
#[global] Hint Resolve monitored_workerInternalMessageHandler monitored_onExit : respects.

Lemma monitored_killProcesses signal : respects monitored (killProcesses signal).
Proof. unfold killProcesses. respects_go; try monitored_leaf. Qed.
#[global] Hint Resolve monitored_killProcesses : respects.
Lemma monitored_settle o thens : respects monitored (settle o thens).
Proof.
  revert o. induction thens as [|[h1 h2] thens IH]; intros o; simpl;
    unfold runHandler; respects_go;
    try (destruct (then_ h1 h2 o); respects_go).
Qed.
#[global] Hint Resolve monitored_settle : respects.
Lemma monitored_stop : respects monitored stop.
Proof. unfold stop, gentleStop. respects_go; try monitored_leaf. Qed.
Lemma monitored_onRaceTimeout i listenerThrows :
  respects monitored (onRaceTimeout i listenerThrows).
Proof.
  unfold onRaceTimeout, runTimeoutCallback, setPromise.
  respects_go; try monitored_leaf; try (destruct (onTimeout _); respects_go).
Qed.
Lemma monitored_runReactions i : respects monitored (runReactions i).
Proof. unfold runReactions, setPromise. respects_go; try monitored_leaf. Qed.
#[global] Hint Resolve monitored_stop monitored_onRaceTimeout monitored_runReactions
  : respects.
Lemma monitored_runNextTicks : respects monitored runNextTicks.
Proof. unfold runNextTicks. respects_go; try monitored_leaf. Qed.
#[global] Hint Resolve monitored_runNextTicks : respects.

(** Launching processes does not touch the monitor. *)
Record apart (s s' : Supervisor) : Prop := {
  apart_started : heartbeatStartedAt s' = heartbeatStartedAt s;
  apart_timeout : heartbeatTimeout s' = heartbeatTimeout s;
  apart_join : readyJoin s' = readyJoin s;
  apart_created : workerPoolCreated s' = workerPoolCreated s;
  apart_allUps : allUps (trace s') = allUps (trace s);
}.

#[global] Instance apart_preorder : PreOrder apart.
Proof.
  split; [by split|]. intros s1 s2 s3 [] []. split; congruence.
Qed.

Lemma apart_createWorkers ids acc : respects apart (createWorkers ids acc).
Proof.
  revert acc. induction ids as [|id ids IH]; intros acc; simpl;
    unfold createWorkerProcess, fork; respects_go;
    split; simpl; rewrite ?allUps_snoc by done; done.
Qed.

Lemma Mon_apart s s' : apart s s' → Mon s → Mon s'.
Proof.
  intros [H1 H2 H3 H4 H5] [Hidle Hrun Hfresh Hunref].
  split; rewrite ?H1, ?H2, ?H3, ?H4, ?H5; done.
Qed.

Lemma monitored_createWorkerPool : respects monitored createWorkerPool.
Proof.
  intros s HM. unfold createWorkerPool. erewrite bind_Ok; [|reflexivity].
  destruct (workerPoolCreated s) eqn:Hc; [done|].
  erewrite bind_Ok; [|reflexivity]. erewrite bind_Ok; [|reflexivity]. cbv beta.
  set (s1 := set_workerPoolCreated true s).
  destruct (mon_fresh s HM Hc) as [Hj Hs].
  destruct (mon_idle s HM Hs) as [Ht Hn].
  pose proof (apart_createWorkers (seqZ 1 (default 0 (workerCount (settings s)))) [] s1)
    as [H1 H2 H3 H4 H5].
  unfold mbind, M_bind.
  destruct (createWorkers _ _ s1) as [[ready|e] s2]; simpl in *;
    (split; [split|split]); simpl; rewrite ?H1, ?H2, ?H3, ?H4, ?H5; try done;
    try (by rewrite Hs; intros [? [=]]); try (by rewrite Ht).
Qed.
#[global] Hint Resolve monitored_createWorkerPool : respects.

Lemma monitored_start : respects monitored start.
Proof. unfold start. respects_go; try monitored_leaf. Qed.
#[global] Hint Resolve monitored_start : respects.

Lemma scheduleMonitor_eq s :
  scheduleMonitor s
  = (Ok (), set_heartbeatTimeout
      (Some {| delay := heartbeatMonitorInterval (settings s); hasRef := false |}) s).
Proof. reflexivity. Qed.

Lemma onAllReady_eq s :
  onAllReady s
  = (Ok (),
     set_trace (trace s ++ [Emit workerAllUp])
       (set_heartbeatTimeout
          (Some {| delay := heartbeatMonitorInterval (settings s); hasRef := false |})
          (set_heartbeatStartedAt (Some (hrtimeSource s (hrtimeReads s)))
             (set_hrtimeReads (S (hrtimeReads s)) s)))).
Proof. reflexivity. Qed.

Lemma respects_bind_at (R : relation Supervisor) `{!PreOrder R} {A B}
    (m : M A) (f : A → M B) s :
  R s (m s).2 → (∀ a, respects R (f a)) → R s ((m ≫= f) s).2.
Proof.
  intros Hm Hf. unfold mbind, M_bind.
  destruct (m s) as [[a|e] s']; simpl in *; [|done].
  etrans; [exact Hm|apply Hf].
Qed.

(** The reaction of [Promise.all(workerReadyPromises)]. *)
Lemma monitored_allReady s :
  readyJoin s = Some [] →
  monitored s ((modify (set_readyJoin None);; onAllReady) s).2.
Proof.
  intros Hj HM.
  erewrite bind_Ok; [|reflexivity]. rewrite onAllReady_eq. simpl.
  destruct HM as [Hidle Hrun Hfresh Hunref].
  destruct (heartbeatStartedAt s) as [started|] eqn:Hs.
  { destruct Hrun as (_ & _ & ?); [eauto|congruence]. }
  destruct (Hidle eq_refl) as [Ht Hn].
  split; [split|split]; simpl; try done.
  - intros _. split; [eauto|]. split; [|done].
    unfold allUps in *. rewrite occurrences_app, Hn. done.
  - intros Hc. destruct (Hfresh Hc). congruence.
  - by intros t [= <-].
Qed.

Lemma monitored_runMicrotasks : respects monitored runMicrotasks.
Proof.
  intros s. unfold runMicrotasks. erewrite bind_Ok; [|reflexivity].
  apply (respects_bind_at monitored); [|intros _; respects_go].
  destruct (readyJoin s) as [[|k join]|] eqn:Hj; try reflexivity.
  by apply monitored_allReady.
Qed.
#[global] Hint Resolve monitored_runMicrotasks : respects.

Lemma monitored_drain : respects monitored drain.
Proof. unfold drain. respects_go. Qed.

(** A monitor tick: the timer only exists once monitoring has started. *)
Lemma monitored_tick :
  respects monitored
    (t ← gets heartbeatTimeout;
     match t with Some _ => monitorHeartbeat | None => mret () end).
Proof.
  intros s HM. erewrite bind_Ok; [|reflexivity].
  destruct (heartbeatTimeout s) as [t|] eqn:Ht; [|done].
  destruct HM as [Hidle Hrun Hfresh Hunref].
  destruct (heartbeatStartedAt s) as [started|] eqn:Hs;
    [|destruct (Hidle eq_refl); congruence].
  rewrite (monitorHeartbeat_eq s started) by done. simpl.
  destruct Hrun as (_ & Hn & Hj); [eauto|].
  assert (allUps (trace s ++ stallReport (hrtimeSource s) (heartbeatTimestamps s)
            started (heartbeatStallTolerance (settings s)) (hrtimeReads s)
            (liveWorkers s)) = allUps (trace s)) as Hsame.
  { apply allUps_app_none. generalize (hrtimeReads s).
    induction (liveWorkers s) as [|kw l IH]; intros n; cbn [stallReport]; [done|].
    apply Forall_app. split; [|apply IH].
    destruct (geq _ _); repeat constructor; done. }
  split; [split|split]; simpl; rewrite ?Hsame, ?Hs; try done; eauto.
  by intros t' [= <-].
Qed.

Lemma monitored_handle i : respects monitored (handle i).
Proof.
  destruct i; simpl; try (by respects_go).
  apply monitored_tick.
Qed.

Lemma Mon_new clock : Mon (newSupervisor clock).
Proof. split; simpl; done. Qed.

Lemma monitored_step i s : monitored s (step i s).
Proof. unfold step. etrans; [apply monitored_handle|apply monitored_drain]. Qed.

Lemma monitored_run inputs s : monitored s (run inputs s).
Proof.
  induction inputs as [|i inputs IH] using rev_ind; [reflexivity|].
  rewrite run_snoc. etrans; [exact IH|apply monitored_step].
Qed.

Lemma Mon_reachable s : reachable s → Mon s.
Proof. intros (clock & inputs & ->). by apply monitored_run, Mon_new. Qed.

(** X4. Heartbeat monitoring, once started, is never stopped: the start
    time stays what it was and the monitor timer stays armed and
    unreferenced, whatever is called and whatever happens afterwards,
    [stop()] and the end of its shutdown sequence included. *)
Theorem X4_monitoring_never_stops (s : Supervisor) (inputs : list Input) :
  reachable s →
  is_Some (heartbeatStartedAt s) →
  heartbeatStartedAt (run inputs s) = heartbeatStartedAt s
  ∧ ∃ t, heartbeatTimeout (run inputs s) = Some t ∧ hasRef t = false.
Proof.
  intros Hr Hs.
  destruct (monitored_run inputs s (Mon_reachable s Hr)) as (HM & Hsame & _).
  split; [auto|].
  destruct (mon_running _ HM) as ([t Ht] & _); [by rewrite Hsame|].
  exists t. split; [done|]. by apply (mon_unref _ HM).
Qed.

Lemma X4_monitoring_never_stops_witness :
  let s := run [CallConfigure (poolOf 1) emptySettings; CallStart;
                ProcessMessage "1" ready] (newSupervisor everySecond) in
  let inputs := [CallStop; ProcessExit "1" (Some 0) None; MonitorTimer] in
  reachable s
  ∧ is_Some (heartbeatStartedAt s)
  ∧ promises (run inputs s) = [Settled (Fulfilled false)]
  ∧ heartbeatStartedAt (run inputs s) = heartbeatStartedAt s
  ∧ ∃ t, heartbeatTimeout (run inputs s) = Some t ∧ hasRef t = false.
Proof.
  assert (reachable (run [CallConfigure (poolOf 1) emptySettings; CallStart;
                          ProcessMessage "1" ready] (newSupervisor everySecond)))
    as Hr.
  { by exists everySecond, [CallConfigure (poolOf 1) emptySettings; CallStart;
                            ProcessMessage "1" ready]. }
  assert (is_Some (heartbeatStartedAt
            (run [CallConfigure (poolOf 1) emptySettings; CallStart;
                  ProcessMessage "1" ready] (newSupervisor everySecond)))) as Hs.
  { exists (0, 0). by vm_compute. }
  split; [exact Hr|]. split; [exact Hs|]. split; [by vm_compute|].
  exact (X4_monitoring_never_stops _
           [CallStop; ProcessExit "1" (Some 0) None; MonitorTimer] Hr Hs).
Defined.

(** X5. In every state the supervisor can reach, a monitor tick returns
    normally: the timer only exists once the monitoring start time is set,
    so [process.hrtime] is never handed [null].  The tick re-arms the timer
    with the configured interval and takes one clock reading per live
    worker. *)
Theorem X5_monitor_tick_total (s : Supervisor) :
  reachable s →
  (handle MonitorTimer s).1 = Ok ()
  ∧ (is_Some (heartbeatTimeout s) →
     is_Some (heartbeatStartedAt s)
     ∧ heartbeatTimeout (handle MonitorTimer s).2
       = Some {| delay := heartbeatMonitorInterval (settings s); hasRef := false |}
     ∧ hrtimeReads (handle MonitorTimer s).2
       = (hrtimeReads s + length (liveWorkers s))%nat).
Proof.
  intros Hr. pose proof (Mon_reachable s Hr) as [Hidle Hrun _ _].
  unfold handle. erewrite bind_Ok; [|reflexivity].
  destruct (heartbeatTimeout s) as [t|] eqn:Ht.
  - destruct (heartbeatStartedAt s) as [started|] eqn:Hs;
      [|destruct (Hidle eq_refl); congruence].
    rewrite (monitorHeartbeat_eq s started) by done. simpl. eauto.
  - split; [done|]. by intros [? [=]].
Qed.

Lemma X5_monitor_tick_total_witness :
  let s := run [CallConfigure (poolOf 2) emptySettings; CallStart;
                ProcessMessage "1" ready; ProcessMessage "2" ready;
                ProcessExit "2" (Some 0) None] (newSupervisor everySecond) in
  reachable s
  ∧ (handle MonitorTimer s).1 = Ok ()
  ∧ hrtimeReads (handle MonitorTimer s).2 = (hrtimeReads s + 1)%nat.
Proof.
  assert (reachable (run [CallConfigure (poolOf 2) emptySettings; CallStart;
                ProcessMessage "1" ready; ProcessMessage "2" ready;
                ProcessExit "2" (Some 0) None] (newSupervisor everySecond)))
    as Hr.
  { by exists everySecond, [CallConfigure (poolOf 2) emptySettings; CallStart;
                ProcessMessage "1" ready; ProcessMessage "2" ready;
                ProcessExit "2" (Some 0) None]. }
  split; [exact Hr|].
  destruct (X5_monitor_tick_total _ Hr) as [Hok Harmed].
  split; [exact Hok|].
  destruct Harmed as (_ & _ & ->).
  - exists {| delay := Some 1000; hasRef := false |}. by vm_compute.
  - by vm_compute.
Defined.

(** X6. [workerAllUp] is emitted at most once in the life of a supervisor,
    and it has been emitted exactly when heartbeat monitoring has started
    and its timer exists; workers that come up again after a replacement
    do not announce it a second time. *)
Theorem X6_workerAllUp_once (s : Supervisor) :
  reachable s →
  (occurrences (Emit workerAllUp) (trace s) ≤ 1)%nat
  ∧ (occurrences (Emit workerAllUp) (trace s) = 1%nat
     ↔ is_Some (heartbeatStartedAt s))
  ∧ (is_Some (heartbeatStartedAt s) ↔ is_Some (heartbeatTimeout s)).
Proof.
  intros Hr. pose proof (Mon_reachable s Hr) as [Hidle Hrun _ _].
  fold (allUps (trace s)).
  destruct (heartbeatStartedAt s) as [started|] eqn:Hs.
  - destruct Hrun as (Ht & Hn & _); [eauto|]. rewrite Hn.
    split; [lia|]. split; split; eauto.
  - destruct (Hidle eq_refl) as [Ht Hn]. rewrite Hn, Ht.
    split; [lia|]. split; split; try done; intros [? [=]].
Qed.

Lemma X6_workerAllUp_once_witness :
  let s := run [CallConfigure (poolOf 2) emptySettings; CallStart;
                ProcessMessage "1" ready; ProcessExit "1" (Some 1) None;
                ProcessMessage "2" ready; ProcessMessage "1" ready;
                ProcessExit "2" (Some 1) None; ProcessMessage "2" ready]
               (newSupervisor everySecond) in
  reachable s
  ∧ occurrences (Emit workerAllUp) (trace s) = 1%nat.
Proof.
  assert (reachable (run [CallConfigure (poolOf 2) emptySettings; CallStart;
                ProcessMessage "1" ready; ProcessExit "1" (Some 1) None;
                ProcessMessage "2" ready; ProcessMessage "1" ready;
                ProcessExit "2" (Some 1) None; ProcessMessage "2" ready]
               (newSupervisor everySecond)))
    as Hr.
  { by exists everySecond, [CallConfigure (poolOf 2) emptySettings; CallStart;
                ProcessMessage "1" ready; ProcessExit "1" (Some 1) None;
                ProcessMessage "2" ready; ProcessMessage "1" ready;
                ProcessExit "2" (Some 1) None; ProcessMessage "2" ready]. }
  split; [exact Hr|].
  apply (proj1 (proj2 (X6_workerAllUp_once _ Hr))).
  exists (0, 0). by vm_compute.
Defined.

(** ** Between turns nothing is left to run *)

(** A promise whose reactions have nothing to do. *)
Definition waiting (p : Promise) : Prop :=
  match p with
  | Pending race _ => awaited race ≠ []
  | Settled _ => True
  end.

(** The state between two turns of the event loop: the [nextTick] queue is
    drained, and no resolved promise has reactions left. *)
Record Quiescent (s : Supervisor) : Prop := {
  qui_queue : nextTickQueue s = [];
  qui_join : readyJoin s ≠ Some [];
  qui_promises : Forall waiting (promises s);
}.

Lemma runReactions_waiting i s :
  (∀ p, promises s !! i = Some p → waiting p) → runReactions i s = (Ok (), s).
Proof.
  intros H. unfold runReactions. erewrite bind_Ok; [|reflexivity].
  destruct (promises s !! i) as [[race thens|]|] eqn:Hi; try done.
  specialize (H _ eq_refl). simpl in H. by destruct (awaited race).
Qed.

Lemma forEach_idle {A} (f : A → M unit) (l : list A) s :
  (∀ x, x ∈ l → f x s = (Ok (), s)) → forEach f l s = (Ok (), s).
Proof.
  induction l as [|x l IH]; intros H; [done|].
  cbn [forEach]. erewrite bind_Ok; [|apply H; left].
  apply IH. intros y Hy. apply H. by right.
Qed.

(** With nothing left to run, the drain of the turn does nothing. *)
Lemma drain_idle s : Quiescent s → drain s = (Ok (), s).
Proof.
  intros [Hq Hj Hp]. unfold drain, runNextTicks.
  erewrite bind_Ok; [|erewrite bind_Ok; [|reflexivity];
                       erewrite bind_Ok; [|reflexivity]; rewrite Hq; reflexivity].
  rewrite set_nextTickQueue_id by done.
  unfold runMicrotasks. erewrite bind_Ok; [|reflexivity].
  assert (match readyJoin s with
          | Some [] => modify (set_readyJoin None);; onAllReady
          | _ => mret ()
          end s = (Ok (), s)) as Hm.
  { destruct (readyJoin s) as [[|]|]; done. }
  erewrite bind_Ok; [|exact Hm]. erewrite bind_Ok; [|reflexivity].
  apply forEach_idle. intros i _. apply runReactions_waiting.
  intros p Hi. rewrite Forall_forall in Hp. apply Hp.
  by eapply list_elem_of_lookup_2.
Qed.

(** What the reactions leave alone. *)
Record calm (s s' : Supervisor) : Prop := {
  calm_join : readyJoin s' = readyJoin s;
  calm_queue : nextTickQueue s' = nextTickQueue s;
}.

#[global] Instance calm_preorder : PreOrder calm.
Proof. split; [by split|]. intros s1 s2 s3 [] []. split; congruence. Qed.

Lemma calm_emit e : respects calm (emit e).
Proof.
  unfold emit, setPoolHealth, recordHeartbeat, internalSend, worker_send,
    process_hrtime_since.
  destruct e; respects_go; by split.
Qed.
#[global] Hint Resolve calm_emit : respects.
Lemma calm_settle o thens : respects calm (settle o thens).
Proof.
  revert o. induction thens as [|[h1 h2] thens IH]; intros o; simpl;
    unfold runHandler, killProcesses; respects_go;
    try (destruct (then_ h1 h2 o); respects_go); by split.
Qed.
#[global] Hint Resolve calm_settle : respects.
Lemma calm_runReactions i : respects calm (runReactions i).
Proof. unfold runReactions, setPromise. respects_go; by split. Qed.
#[global] Hint Resolve calm_runReactions : respects.
Lemma calm_replaceWorkerProcess key : respects calm (replaceWorkerProcess key).
Proof.
  unfold replaceWorkerProcess, createWorkerProcess, fork, alterWorker.
  respects_go; by split.
Qed.
#[global] Hint Resolve calm_replaceWorkerProcess : respects.

(** A deferred replacement never throws: a tracked worker was launched
    with the settings a replacement needs. *)
Lemma replaceWorkerProcess_total key s :
  Inv s →
  ∃ s', replaceWorkerProcess key s = (Ok (), s') ∧ Inv s'
        ∧ promises s' = promises s.
Proof.
  intros HI. pose proof (keeps_replaceWorkerProcess key s HI) as HI'.
  rewrite replaceWorkerProcess_eq in *.
  destruct (closing s); [eauto|].
  destruct (obj_get key (workers s)) as [worker|] eqn:Hg; [|eauto].
  assert (workers s ≠ []) as Hw by (intros Hw; by rewrite Hw in Hg).
  destruct (inv_launch s HI Hw) as [[perWorker He] [flags Ha]].
  rewrite createWorkerProcess_eq, He, Ha in *. eauto.
Qed.

Lemma runNextTicks_total s :
  Inv s →
  ∃ s', runNextTicks s = (Ok (), s') ∧ Inv s' ∧ promises s' = promises s
        ∧ nextTickQueue s' = [] ∧ readyJoin s' = readyJoin s.
Proof.
  intros HI. unfold runNextTicks.
  erewrite bind_Ok; [|reflexivity]. erewrite bind_Ok; [|reflexivity].
  set (s1 := set_nextTickQueue [] s).
  assert (Inv s1) as HI1 by (destruct HI; by split).
  assert (promises s1 = promises s ∧ nextTickQueue s1 = []
          ∧ readyJoin s1 = readyJoin s) as Hsame by done.
  revert HI1 Hsame. generalize s1. clear s1.
  induction (nextTickQueue s) as [|key queue IH]; intros s1 HI1 Hsame; [eauto|].
  cbn [forEach].
  destruct (replaceWorkerProcess_total key s1 HI1) as (s2 & Hr & HI2 & Hp2).
  erewrite bind_Ok; [|exact Hr]. apply IH; [done|].
  pose proof (calm_replaceWorkerProcess key s1) as [Hj Hq]. rewrite Hr in Hj, Hq.
  simpl in *. destruct Hsame as (? & ? & ?). split; [congruence|].
  split; congruence.
Qed.

Lemma settle_waiting o thens s p s' : settle o thens s = (Ok p, s') → waiting p.
Proof.
  revert o s. induction thens as [|[h1 h2] thens IH]; intros o s; simpl.
  - by intros [= <- _].
  - destruct (runHandler_total (then_ h1 h2 o) s) as (race & s1 & Hr & _).
    erewrite bind_Ok; [|exact Hr].
    destruct (awaited race) eqn:Ha; [apply IH|].
    intros [= <- _]. simpl. by rewrite Ha.
Qed.

Lemma runReactions_spec i s :
  ∃ s', runReactions i s = (Ok (), s')
        ∧ length (promises s') = length (promises s)
        ∧ (∀ j, j ≠ i → promises s' !! j = promises s !! j)
        ∧ (∀ p, promises s' !! i = Some p → waiting p).
Proof.
  unfold runReactions. erewrite bind_Ok; [|reflexivity].
  destruct (promises s !! i) as [[race thens|o]|] eqn:Hi.
  - destruct (awaited race) eqn:Ha.
    + destruct (settle_total (Fulfilled false) thens s) as (p & s1 & Hs & Hp & _).
      erewrite bind_Ok; [|exact Hs]. eexists. split; [reflexivity|]. simpl.
      rewrite Hp, length_insert. split; [done|]. split.
      * intros j Hj. by rewrite list_lookup_insert_ne.
      * intros p' Hp'. apply list_lookup_insert_Some in Hp' as [(_ & <- & _)|[? _]];
          [|done]. by eapply settle_waiting.
    + eexists. split; [reflexivity|]. split; [done|]. split; [done|].
      intros p. rewrite Hi. intros [= <-]. simpl. by rewrite Ha.
  - eexists. split; [reflexivity|]. split; [done|]. split; [done|].
    intros p. rewrite Hi. by intros [= <-].
  - eexists. split; [reflexivity|]. split; [done|]. split; [done|].
    intros p. by rewrite Hi.
Qed.

Lemma reactions_spec (l : list nat) s :
  NoDup l →
  ∃ s', forEach runReactions l s = (Ok (), s')
        ∧ length (promises s') = length (promises s)
        ∧ (∀ j, j ∉ l → promises s' !! j = promises s !! j)
        ∧ (∀ i p, i ∈ l → promises s' !! i = Some p → waiting p).
Proof.
  revert s. induction l as [|i l IH]; intros s Hnd.
  - exists s. split; [done|]. split; [done|]. split; [done|].
    by intros i p ?%elem_of_nil.
  - apply NoDup_cons in Hnd as [Hi Hnd]. cbn [forEach].
    destruct (runReactions_spec i s) as (s1 & Hr & Hl1 & Ho1 & Hw1).
    erewrite bind_Ok; [|exact Hr].
    destruct (IH s1 Hnd) as (s2 & Hf & Hl2 & Ho2 & Hw2).
    exists s2. split; [done|]. split; [congruence|]. split.
    + intros j [Hji Hjl]%not_elem_of_cons. rewrite Ho2, Ho1; done.
    + intros j p [->|Hj]%elem_of_cons Hp; [|by eapply Hw2].
      apply Hw1. by rewrite <- Ho2.
Qed.

Lemma runMicrotasks_spec s :
  ∃ s', runMicrotasks s = (Ok (), s')
        ∧ Forall waiting (promises s') ∧ readyJoin s' ≠ Some []
        ∧ nextTickQueue s' = nextTickQueue s.
Proof.
  unfold runMicrotasks. erewrite bind_Ok; [|reflexivity].
  assert (∃ s1, match readyJoin s with
                | Some [] => modify (set_readyJoin None);; onAllReady
                | _ => mret ()
                end s = (Ok (), s1)
                ∧ readyJoin s1 ≠ Some [] ∧ nextTickQueue s1 = nextTickQueue s)
    as (s1 & Hm & Hj1 & Hq1).
  { destruct (readyJoin s) as [[|k join]|] eqn:Hj.
    - eexists. split; [reflexivity|]. done.
    - exists s. rewrite Hj. done.
    - exists s. rewrite Hj. done. }
  erewrite bind_Ok; [|exact Hm]. erewrite bind_Ok; [|reflexivity].
  destruct (reactions_spec (seq 0 (length (promises s1))) s1)
    as (s2 & Hf & Hl & _ & Hw); [apply NoDup_seq|].
  pose proof (respects_forEach calm runReactions (seq 0 (length (promises s1)))
                calm_runReactions s1) as [Hj Hq].
  rewrite Hf in Hj, Hq. simpl in *.
  exists s2. split; [done|]. split; [|split; congruence].
  apply Forall_lookup. intros i p Hp. apply (Hw i p); [|done].
  apply elem_of_seq. apply lookup_lt_Some in Hp. lia.
Qed.

Lemma drain_quiescent s : Inv s → (drain s).1 = Ok () ∧ Quiescent (drain s).2.
Proof.
  intros HI. unfold drain.
  destruct (runNextTicks_total s HI) as (s1 & Ht & HI1 & _ & Hq1 & _).
  erewrite bind_Ok; [|exact Ht].
  destruct (runMicrotasks_spec s1) as (s2 & Hm & Hw & Hj & Hq).
  rewrite Hm. split; [done|]. split; simpl; [congruence|done..].
Qed.

Lemma Quiescent_new clock : Quiescent (newSupervisor clock).
Proof. split; simpl; [done|done|constructor]. Qed.

Lemma Quiescent_reachable s : reachable s → Quiescent s.
Proof.
  intros (clock & inputs & ->).
  induction inputs as [|i inputs _] using rev_ind; [apply Quiescent_new|].
  rewrite run_snoc. unfold step. apply drain_quiescent.
  apply keeps_handle, Inv_run, Inv_new.
Qed.

(** A turn whose callback leaves nothing to run ends with the callback. *)
Lemma step_idle i s :
  Quiescent (handle i s).2 → step i s = (handle i s).2.
Proof. intros H. unfold step. by rewrite drain_idle. Qed.

(** ** Inputs without effect *)

(** X7. In every state the supervisor can reach, a worker message whose
    [act] is neither ["ready"] nor ["heartbeat"] changes nothing and has no
    effect, whichever worker sent it; and [start()] on a pool that exists
    does no more than clear the [closing] flag. *)
Theorem X7_inputs_without_effect (s : Supervisor) :
  reachable s →
  (∀ key message,
     actName message ≠ "ready" → actName message ≠ "heartbeat" →
     (handle (ProcessMessage key message) s).1 = Ok ()
     ∧ step (ProcessMessage key message) s = s)
  ∧ (workerPoolCreated s = true →
     (handle CallStart s).1 = Ok () ∧ step CallStart s = set_closing false s).
Proof.
  intros Hr. pose proof (Quiescent_reachable s Hr) as HQ.
  split.
  - intros key message H1 H2.
    assert (handle (ProcessMessage key message) s = (Ok (), s)) as Hh.
    { unfold handle, withWorker. erewrite bind_Ok; [|reflexivity].
      destruct (obj_get key (workers s)); [|done].
      unfold workerInternalMessageHandler. by rewrite !decide_False. }
    rewrite step_idle; by rewrite Hh.
  - intros Hc.
    assert (handle CallStart s = (Ok (), set_closing false s)) as Hh.
    { unfold handle, start, createWorkerPool. erewrite bind_Ok; [|reflexivity].
      erewrite bind_Ok; [|reflexivity]. simpl. by rewrite Hc. }
    rewrite step_idle; rewrite Hh; [done|]. simpl.
    destruct HQ. by split.
Qed.

Lemma X7_inputs_without_effect_witness :
  let s := run [CallConfigure (poolOf 2) emptySettings; CallStart;
                ProcessMessage "1" ready; ProcessExit "2" (Some 0) None; CallStop]
               (newSupervisor everySecond) in
  reachable s
  ∧ step (ProcessMessage "1" (otherAct "status")) s = s
  ∧ step (ProcessMessage "2" healthy) s = s
  ∧ closing s = true
  ∧ step CallStart s = set_closing false s.
Proof.
  set (s := run [CallConfigure (poolOf 2) emptySettings; CallStart;
                 ProcessMessage "1" ready; ProcessExit "2" (Some 0) None; CallStop]
                (newSupervisor everySecond)).
  assert (reachable s) as Hr.
  { by exists everySecond, [CallConfigure (poolOf 2) emptySettings; CallStart;
                ProcessMessage "1" ready; ProcessExit "2" (Some 0) None; CallStop]. }
  destruct (X7_inputs_without_effect s Hr) as (Hm & Hs).
  split; [exact Hr|].
  split; [apply (Hm "1" (otherAct "status")); discriminate|].
  split; [apply (Hm "2" healthy); discriminate|].
  split; [clear; vm_compute; reflexivity|].
  apply Hs. clear. vm_compute. reflexivity.
Defined.

(** ** Starting a pool that cannot be created *)

Lemma seqZ_nonpos (m n : Z) : n ≤ 0 → seqZ m n = [].
Proof. intros H. unfold seqZ. by replace (Z.to_nat n) with 0%nat by lia. Qed.

(** X8. [start()] on a supervisor whose [workerCount] is undefined (it was
    never configured, or [configure] failed) or not positive returns
    normally, launches nothing and marks the pool as created; since the
    conjunction of no ready-promises is resolved, [workerAllUp] is emitted
    and heartbeat monitoring starts in the same turn, over an empty pool. *)
Theorem X8_start_without_worker_count (s : Supervisor) :
  reachable s →
  workerPoolCreated s = false →
  default 0 (workerCount (settings s)) ≤ 0 →
  let s' := step CallStart s in
  (handle CallStart s).1 = Ok ()
  ∧ workers s' = []
  ∧ workerPoolCreated s' = true
  ∧ trace s' = trace s ++ [Emit workerAllUp]
  ∧ heartbeatStartedAt s' = Some (hrtimeSource s (hrtimeReads s))
  ∧ heartbeatTimeout s'
    = Some {| delay := heartbeatMonitorInterval (settings s); hasRef := false |}.
Proof.
  intros Hr Hc Hn.
  pose proof (Quiescent_reachable s Hr) as [Hq Hj Hp].
  pose proof (Inv_reachable s Hr) as HI.
  assert (workers s = []) as Hw.
  { destruct (workers s) eqn:Hw; [done|].
    rewrite (inv_created s HI) in Hc; [done|]. by rewrite Hw. }
  set (s1 := set_readyJoin (Some []) (set_workerPoolCreated true (set_closing false s))).
  assert (handle CallStart s = (Ok (), s1)) as Hh.
  { unfold handle, start, createWorkerPool. erewrite bind_Ok; [|reflexivity].
    erewrite bind_Ok; [|reflexivity]. simpl. rewrite Hc.
    erewrite bind_Ok; [|reflexivity]. erewrite bind_Ok; [|reflexivity].
    rewrite seqZ_nonpos by done. reflexivity. }
  set (s2 := (onAllReady (set_readyJoin None s1)).2).
  assert (drain s1 = (Ok (), s2)) as Hd.
  { unfold drain, runNextTicks.
    erewrite bind_Ok; [|erewrite bind_Ok; [|reflexivity];
                         erewrite bind_Ok; [|reflexivity];
                         simpl; rewrite Hq; reflexivity].
    rewrite set_nextTickQueue_id by done.
    unfold runMicrotasks. erewrite bind_Ok; [|reflexivity].
    erewrite bind_Ok; [|reflexivity]. erewrite bind_Ok; [|reflexivity].
    apply forEach_idle. intros i _. apply runReactions_waiting.
    intros p Hi. rewrite Forall_forall in Hp. apply Hp.
    by eapply list_elem_of_lookup_2. }
  cbv zeta. unfold step. rewrite Hh. simpl. rewrite Hd. simpl.
  by rewrite Hw.
Qed.

Lemma X8_start_without_worker_count_witness :
  let s := newSupervisor everySecond in
  reachable s
  ∧ workers (step CallStart s) = []
  ∧ trace (step CallStart s) = [Emit workerAllUp]
  ∧ trace (run [CallStart; CallConfigure (poolOf 3) emptySettings; CallStart] s)
    = [Emit workerAllUp].
Proof.
  assert (reachable (newSupervisor everySecond)) as Hr by (by exists everySecond, []).
  destruct (X8_start_without_worker_count _ Hr eq_refl ltac:(done))
    as (_ & Hw & _ & Ht & _).
  split; [exact Hr|]. split; [exact Hw|]. split; [exact Ht|].
  clear. vm_compute. reflexivity.
Defined.

(** X9. [start()] on a supervisor whose settings hold a positive
    [workerCount] and a [workerEnv] function but no [execArgv] throws a
    [TypeError] from the first [createWorkerProcess], where [execArgv] is
    spread: nothing is launched and no worker is tracked, but the pool is
    already marked as created, and nothing waits for workers to become
    ready. *)
Theorem X9_start_without_launch_settings (s : Supervisor) (count : Z)
    (perWorker : string → gmap string string) :
  reachable s →
  workerPoolCreated s = false →
  workerCount (settings s) = Some count → 1 ≤ count →
  workerEnv (settings s) = Some perWorker →
  execArgv (settings s) = None →
  let s' := step CallStart s in
  (∃ message, (handle CallStart s).1 = Throw (TypeError message))
  ∧ workers s' = []
  ∧ workerPoolCreated s' = true
  ∧ readyJoin s' = None
  ∧ trace s' = trace s.
Proof.
  intros Hr Hc Hn Hpos Henv Hargv.
  pose proof (Quiescent_reachable s Hr) as [Hq Hj Hp].
  pose proof (Inv_reachable s Hr) as HI.
  pose proof (Mon_reachable s Hr) as HM.
  assert (workers s = []) as Hw.
  { destruct (workers s) eqn:Hw; [done|].
    rewrite (inv_created s HI) in Hc; [done|]. by rewrite Hw. }
  set (s1 := set_workerPoolCreated true (set_closing false s)).
  assert (handle CallStart s
          = (Throw (TypeError "this.settings.execArgv is not iterable"), s1)) as Hh.
  { unfold handle, start, createWorkerPool. erewrite bind_Ok; [|reflexivity].
    erewrite bind_Ok; [|reflexivity]. simpl. rewrite Hc.
    erewrite bind_Ok; [|reflexivity]. erewrite bind_Ok; [|reflexivity].
    cbn [settings set_workerPoolCreated set_closing]. rewrite Hn.
    cbn [default from_option]. unfold id.
    assert (∃ ids, seqZ 1 count = 1 :: ids) as [ids ->].
    { unfold seqZ. destruct (Z.to_nat count) eqn:Hz; [lia|]. simpl. eauto. }
    cbn [createWorkers]. unfold mbind, M_bind.
    rewrite createWorkerProcess_eq. fold s1.
    assert (settings s1 = settings s) as -> by done.
    by rewrite Henv, Hargv. }
  assert (Quiescent s1) as HQ1.
  { split; simpl; [done| |done]. by rewrite (proj1 (mon_fresh s HM Hc)). }
  cbv zeta. rewrite step_idle; rewrite Hh; [|done]. simpl.
  split; [eauto|]. split; [done|]. split; [done|]. split; [|done].
  apply (mon_fresh s HM Hc).
Qed.

(** The settings [{workerCount, workerEnv}] and nothing else. *)
Definition requiredOnly (count : Z) : Settings :=
  {| workerCount := Some count; minWorkerCount := None;
     workerEnv := Some (λ _, ∅); exec := None; args := None; env := None;
     execArgv := None; gentleStopTimeout := None; killTimeout := None;
     heartbeatWorkerInterval := None; heartbeatMonitorInterval := None;
     heartbeatStallTolerance := None |}.

Lemma X9_start_without_launch_settings_witness :
  let s := step (CallConfigure (requiredOnly 2) emptySettings)
                (newSupervisor everySecond) in
  reachable s
  ∧ (handle CallStart s).1
    = Throw (TypeError "this.settings.execArgv is not iterable")
  ∧ workers (step CallStart s) = []
  ∧ workerPoolCreated (step CallStart s) = true
  ∧ trace (step CallStart s) = [].
Proof.
  assert (reachable (step (CallConfigure (requiredOnly 2) emptySettings)
                          (newSupervisor everySecond))) as Hr.
  { by exists everySecond, [CallConfigure (requiredOnly 2) emptySettings]. }
  destruct (X9_start_without_launch_settings _ 2 (λ _, ∅) Hr eq_refl eq_refl
              ltac:(lia) eq_refl eq_refl) as (_ & Hw & Hc & _ & Ht).
  split; [exact Hr|]. split; [reflexivity|]. split; [exact Hw|].
  split; [exact Hc|exact Ht].
Defined.

(** ** A pool created empty stays empty *)

Definition forks (tr : list Effect) : list Effect :=
  filter (λ e, isFork e = true) tr.

Lemma forks_snoc tr e : isFork e = false → forks (tr ++ [e]) = forks tr.
Proof.
  intros He. unfold forks. rewrite filter_app, filter_cons_False, filter_nil.
  - by rewrite app_nil_r.
  - by rewrite He.
Qed.

Definition barren (s s' : Supervisor) : Prop :=
  workers s = [] ∧ workerPoolCreated s = true →
  (workers s' = [] ∧ workerPoolCreated s' = true)
  ∧ forks (trace s') = forks (trace s).

#[global] Instance barren_preorder : PreOrder barren.
Proof.
  split; [by intros s|]. intros s1 s2 s3 H1 H2 H.
  destruct (H1 H) as [H' ?]. destruct (H2 H') as [? ?]. split; [done|congruence].
Qed.

Ltac barren_leaf :=
  lazymatch goal with
  | |- barren _ _ =>
      intros [Hw Hc]; simpl; rewrite ?Hw, ?forks_snoc by done; done
  end.

Lemma barren_process_hrtime : respects barren process_hrtime.
Proof. intros s. barren_leaf. Qed.
Lemma barren_alterWorker key f : respects barren (alterWorker key f).
Proof. intros s. barren_leaf. Qed.
#[global] Hint Resolve barren_process_hrtime barren_alterWorker : respects.
Lemma barren_process_hrtime_since past : respects barren (process_hrtime_since past).
Proof. unfold process_hrtime_since. respects_go. Qed.
#[global] Hint Resolve barren_process_hrtime_since : respects.
Lemma barren_emit e : respects barren (emit e).
Proof.
  unfold emit, setPoolHealth, recordHeartbeat, internalSend, worker_send.
  destruct e; respects_go; try barren_leaf.
Qed.
#[global] Hint Resolve barren_emit : respects.
Lemma barren_monitorHeartbeat : respects barren monitorHeartbeat.
Proof. unfold monitorHeartbeat, scheduleMonitor. respects_go; try barren_leaf. Qed.
Lemma barren_configure settings' baseSettings :
  respects barren (configure settings' baseSettings).
Proof. unfold configure. respects_go; try barren_leaf. Qed.
#[global] Hint Resolve barren_monitorHeartbeat barren_configure : respects.
Lemma barren_replaceWorkerProcess key : respects barren (replaceWorkerProcess key).
Proof.
  intros s [Hw Hc]. rewrite replaceWorkerProcess_eq, Hw. simpl.
  by destruct (closing s).
Qed.
Lemma barren_start : respects barren start.
Proof.
  intros s [Hw Hc]. unfold start, createWorkerPool.
  erewrite bind_Ok; [|reflexivity]. erewrite bind_Ok; [|reflexivity].
  simpl. by rewrite Hc.
Qed.
#[global] Hint Resolve barren_replaceWorkerProcess barren_start : respects.
Lemma barren_worker_emit key e : respects barren (worker_emit key e).
Proof. unfold worker_emit. destruct e; respects_go; try barren_leaf. Qed.
#[global] Hint Resolve barren_worker_emit : respects.
Lemma barren_onExit key exitCode signalCode :
  respects barren (onExit key exitCode signalCode).
Proof. unfold onExit, process_nextTick. respects_go; try barren_leaf. Qed.
Lemma barren_workerInternalMessageHandler key message :
  respects barren (workerInternalMessageHandler key message).
Proof. unfold workerInternalMessageHandler. respects_go. Qed.
#[global] Hint Resolve barren_onExit barren_workerInternalMessageHandler : respects.
Lemma barren_settle o thens : respects barren (settle o thens).
Proof.
  revert o. induction thens as [|[h1 h2] thens IH]; intros o; simpl;
    unfold runHandler, killProcesses; respects_go;
    try (destruct (then_ h1 h2 o); respects_go); try barren_leaf.
Qed.
#[global] Hint Resolve barren_settle : respects.
Lemma barren_stop : respects barren stop.
Proof.
  unfold stop, gentleStop, internalSend, worker_send. respects_go; try barren_leaf.
Qed.
Lemma barren_onRaceTimeout i listenerThrows :
  respects barren (onRaceTimeout i listenerThrows).
Proof.
  unfold onRaceTimeout, runTimeoutCallback, setPromise.
  respects_go; try barren_leaf; try (destruct (onTimeout _); respects_go).
Qed.
Lemma barren_runReactions i : respects barren (runReactions i).
Proof. unfold runReactions, setPromise. respects_go; try barren_leaf. Qed.
#[global] Hint Resolve barren_stop barren_onRaceTimeout barren_runReactions : respects.
Lemma barren_drain : respects barren drain.
Proof.
  unfold drain, runNextTicks, runMicrotasks, onAllReady, scheduleMonitor.
  respects_go; try barren_leaf.
Qed.
Lemma barren_handle i : respects barren (handle i).
Proof. destruct i; simpl; respects_go. Qed.

Lemma barren_run inputs s : barren s (run inputs s).
Proof.
  induction inputs as [|i inputs IH] using rev_ind; [reflexivity|].
  rewrite run_snoc. etrans; [exact IH|]. unfold step.
  etrans; [apply barren_handle|apply barren_drain].
Qed.

(** X10. A pool that was created without workers never gets any: whatever
    is called and whatever happens afterwards, further [start()] calls and
    a later [configure] included, the worker table stays empty and no
    process is ever launched. *)
Theorem X10_empty_pool_stays_empty (s : Supervisor) (inputs : list Input) :
  workers s = [] → workerPoolCreated s = true →
  workers (run inputs s) = []
  ∧ forks (trace (run inputs s)) = forks (trace s).
Proof.
  intros Hw Hc. destruct (barren_run inputs s) as [[? _] ?]; done.
Qed.

Lemma X10_empty_pool_stays_empty_witness :
  let s := step CallStart (newSupervisor everySecond) in
  let inputs := [CallConfigure (poolOf 3) emptySettings; CallStart; CallStop;
                 CallStart; MonitorTimer] in
  workers s = [] ∧ workerPoolCreated s = true
  ∧ configured (run inputs s) = true
  ∧ forks (trace (run inputs s)) = [].
Proof.
  split; [reflexivity|]. split; [reflexivity|]. split; [by vm_compute|].
  exact (proj2 (X10_empty_pool_stays_empty
    (step CallStart (newSupervisor everySecond))
    [CallConfigure (poolOf 3) emptySettings; CallStart; CallStop;
     CallStart; MonitorTimer] eq_refl eq_refl)).
Defined.

(** ** The up-count that a transition reports *)

Definition isUp (w : Worker) : Z := if decide (worker_state w = up) then 1 else 0.

Lemma upCount_alter_state (v : WorkerState) key o w :
  obj_get key o = Some w →
  Z.of_nat (length (filter (λ w, worker_state w = up)
                      (Object_values (obj_alter (set_worker_state v) key o))))
  = Z.of_nat (length (filter (λ w, worker_state w = up) (Object_values o)))
    - isUp w + (if decide (v = up) then 1 else 0).
Proof.
  unfold Object_values, isUp. induction o as [|[k w'] o IH]; [done|]. simpl.
  destruct (decide (k = key)) as [->|Hne].
  - intros [= ->]. csimpl. rewrite !filter_cons. simpl.
    destruct (decide (v = up)), (decide (worker_state w = up)); simpl; lia.
  - intros Hg. csimpl. rewrite !filter_cons.
    destruct (decide (worker_state w' = up)); simpl; rewrite ?Nat2Z.inj_succ;
      specialize (IH Hg); lia.
Qed.

Lemma upCount_bounds s : 0 ≤ upCount s ≤ Z.of_nat (length (workers s)).
Proof.
  unfold upCount, Object_values. split; [lia|].
  apply inj_le. etrans; [apply length_filter|]. by rewrite length_fmap.
Qed.

Lemma upCount_alter_process f key s :
  (∀ w, worker_state (f w) = worker_state w) →
  upCount (set_workers (obj_alter f key (workers s)) s) = upCount s.
Proof.
  intros Hf. unfold upCount, Object_values. simpl. f_equal.
  induction (workers s) as [|[k w] o IH]; [done|]. simpl.
  destruct (decide (k = key)); csimpl; rewrite !filter_cons, ?Hf;
    destruct (decide (worker_state w = up)); simpl; by rewrite ?IH.
Qed.

(** X11. The pool-health recomputation that a transition triggers already
    counts the transition, because the worker's state is written before the
    event is emitted.  A ["ready"] message of a tracked worker reports the
    previous up-count plus one, or the same count when the worker was
    already up (the message is then still republished and the health is
    still broadcast); the exit of a live worker reports the previous
    up-count minus one, or the same count when the worker was not up.  The
    up-count lies between 0 and the number of tracked workers. *)
Theorem X11_transition_up_count (s : Supervisor) (key : string) (worker : Worker) :
  obj_get key (workers s) = Some worker →
  let count := workerCount (settings s) in
  let minCount := minWorkerCount (settings s) in
  let report e n :=
    Emit e :: Emit (info_workersUpCount n count minCount)
    :: broadcast (poolHealth n count minCount (initializing s))
         (Object_keys (workers s)) in
  0 ≤ upCount s ≤ Z.of_nat (length (workers s))
  ∧ (let s' := (handle (ProcessMessage key ready) s).2 in
     upCount s' = upCount s - isUp worker + 1
     ∧ trace s' = trace s ++ report (workerUp key) (upCount s'))
  ∧ (∀ exitCode signalCode,
       isDead worker = false → exitListener (worker_process worker) = true →
       let s' := (handle (ProcessExit key exitCode signalCode) s).2 in
       upCount s' = upCount s - isUp worker
       ∧ trace s'
         = trace s ++ report (workerDown key exitCode signalCode) (upCount s')
           ++ (if decide (exitCode = Some 0)
               then [Emit (workerTerminated key)] else [])).
Proof.
  intros Hg count minCount report. split; [apply upCount_bounds|].
  assert (∀ e t, changesHealth e = true →
            Object_keys (workers t) = Object_keys (workers s) →
            settings t = settings s → initializing t = initializing s →
            trace t = trace s →
            (emit e t).1 = Ok ()
            ∧ upCount (emit e t).2 = upCount t
            ∧ workers (emit e t).2 = workers t
            ∧ trace (emit e t).2 = trace s ++ report e (upCount t)) as Hemit.
  { intros e t He Hk Hs Hi Ht. rewrite emit_changesHealth by done. simpl.
    split; [done|]. split; [done|]. split; [done|].
    unfold recomputation, report, count, minCount. by rewrite Hk, Hs, Hi, Ht. }
  split.
  - cbv zeta. unfold handle, withWorker. erewrite bind_Ok; [|reflexivity].
    rewrite Hg, workerInternalMessageHandler_ready. unfold alterWorker, worker_emit.
    erewrite bind_Ok; [|reflexivity].
    set (s1 := set_workers (obj_alter (set_worker_state up) key (workers s)) s).
    assert (upCount s1 = upCount s - isUp worker + 1) as Hu1.
    { unfold s1, upCount. simpl. rewrite (upCount_alter_state up key _ worker Hg).
      by rewrite decide_True. }
    destruct (Hemit (workerUp key) s1) as (Hok & Hu & Hw & Ht); try done.
    { unfold s1. simpl. apply obj_alter_keys. }
    rewrite bind_total by done.
    set (s2 := (emit (workerUp key) s1).2) in *.
    change (upCount (modify (λ t, set_readyJoin (resolveFor key <$> readyJoin t) t) s2).2)
      with (upCount s2).
    change (trace (modify (λ t, set_readyJoin (resolveFor key <$> readyJoin t) t) s2).2)
      with (trace s2).
    rewrite Hu, Hu1. split; [done|]. by rewrite Ht, Hu1.
  - intros exitCode signalCode Hd Hl. cbv zeta.
    rewrite (handle_exit key worker) by done. rewrite onExit_eq.
    unfold downed, worker_emit.
    set (s1 := set_workers (obj_alter (set_worker_state down) key
                              (workers (exiting key worker s)))
                           (exiting key worker s)).
    assert (upCount s1 = upCount s - isUp worker) as Hu1.
    { assert (∃ w1, obj_get key (workers (exiting key worker s)) = Some w1
                    ∧ isUp w1 = isUp worker) as (w1 & Hg1 & Hi1).
      { unfold exiting. simpl. rewrite obj_get_alter, decide_True, Hg by done.
        simpl. eauto. }
      unfold s1, upCount at 1. cbn [workers set_workers].
      rewrite (upCount_alter_state down key _ w1 Hg1), Hi1.
      rewrite decide_False by done.
      pose proof (upCount_alter_process
        (λ w, setProcess (markExited (worker_process worker)) w) key s
        ltac:(done)) as Hp.
      unfold upCount in Hp at 1. cbn [workers set_workers] in Hp.
      unfold exiting. cbn [workers set_workers]. rewrite Hp. lia. }
    destruct (Hemit (workerDown key exitCode signalCode) s1)
      as (Hok & Hu & Hw & Ht); try done.
    { unfold s1, exiting. simpl. by rewrite !obj_alter_keys. }
    rewrite bind_total by done.
    set (s2 := (emit (workerDown key exitCode signalCode) s1).2) in *.
    set (s3 := (modify (λ t, set_promises (resolveDown key <$> promises t) t) s2).2).
    assert (upCount s3 = upCount s - isUp worker) as Hu3.
    { change (upCount s3) with (upCount s2). by rewrite Hu. }
    assert (trace s3 = trace s ++ report (workerDown key exitCode signalCode)
                                    (upCount s - isUp worker)) as Ht3.
    { change (trace s3) with (trace s2). by rewrite Ht, Hu1. }
    destruct (decide (exitCode = Some 0)).
    + change (upCount (emit (workerTerminated key) s3).2) with (upCount s3).
      change (trace (emit (workerTerminated key) s3).2)
        with (trace s3 ++ [Emit (workerTerminated key)]).
      rewrite Hu3, Ht3. split; [done|]. by rewrite <- app_assoc.
    + change (upCount (process_nextTick key s3).2) with (upCount s3).
      change (trace (process_nextTick key s3).2) with (trace s3).
      rewrite Hu3, Ht3. split; [done|]. by rewrite app_nil_r.
Qed.

Lemma X11_transition_up_count_witness :
  let s := run [CallConfigure (poolOf 2) emptySettings; CallStart;
                ProcessMessage "1" ready] (newSupervisor everySecond) in
  let worker := {| worker_id := "1"; worker_state := up;
                   worker_process := {| pid := 0; exited := false;
                                        exitListener := true |} |} in
  obj_get "1" (workers s) = Some worker
  ∧ upCount s = 1
  ∧ upCount (handle (ProcessMessage "1" ready) s).2 = 1
  ∧ upCount (handle (ProcessExit "1" (Some 1) None) s).2 = 0.
Proof.
  split; [reflexivity|]. split; [reflexivity|].
  destruct (X11_transition_up_count
    (run [CallConfigure (poolOf 2) emptySettings; CallStart;
          ProcessMessage "1" ready] (newSupervisor everySecond)) "1"
    {| worker_id := "1"; worker_state := up;
       worker_process := {| pid := 0; exited := false; exitListener := true |} |}
    eq_refl) as (_ & [Hup _] & Hexit).
  split; [exact Hup|].
  exact (proj1 (Hexit (Some 1) None eq_refl eq_refl)).
Defined.

(** ** The environment of a worker process *)

(** X12. [createWorkerProcess] launches one process, whose environment is
    [settings.env] overridden by [settings.workerEnv(id)], overridden in
    turn by the two variables of the pool: whatever the settings say,
    [POOL_HALL_ID] is the worker id and [POOL_HALL_HEARTBEAT_INTERVAL] the
    configured worker interval.  The handle it returns is fresh. *)
Theorem X12_worker_environment (s : Supervisor) (id : string)
    (perWorker : string → gmap string string) (flags : list string) :
  workerEnv (settings s) = Some perWorker →
  execArgv (settings s) = Some flags →
  ∃ environment,
    createWorkerProcess id s
    = (Ok {| pid := nextPid s; exited := false; exitListener := false |},
       set_trace (trace s ++ [Fork (nextPid s) (exec (settings s)) (args (settings s))
                                environment flags])
         (set_nextPid (S (nextPid s)) s))
    ∧ environment !! "POOL_HALL_ID" = Some id
    ∧ environment !! "POOL_HALL_HEARTBEAT_INTERVAL"
      = Some (template (heartbeatWorkerInterval (settings s)))
    ∧ ∀ name, name ≠ "POOL_HALL_ID" → name ≠ "POOL_HALL_HEARTBEAT_INTERVAL" →
        environment !! name
        = match perWorker id !! name with
          | Some value => Some value
          | None => default ∅ (env (settings s)) !! name
          end.
Proof.
  intros He Ha. rewrite createWorkerProcess_eq, He, Ha. unfold launch.
  eexists. split; [reflexivity|]. split; [|split].
  - rewrite lookup_insert_ne by done. by rewrite lookup_insert_eq.
  - by rewrite lookup_insert_eq.
  - intros name H1 H2. rewrite !lookup_insert_ne by done.
    rewrite lookup_union.
    by destruct (perWorker id !! name), (default ∅ (env (settings s)) !! name).
Qed.

Lemma X12_worker_environment_witness :
  let s := step (CallConfigure (poolOf 2) emptySettings) (newSupervisor everySecond) in
  ∃ environment,
    trace (createWorkerProcess "7" s).2
    = [Fork 0 (Some "worker.js") (Some []) environment []]
    ∧ environment !! "POOL_HALL_ID" = Some "7"
    ∧ environment !! "POOL_HALL_HEARTBEAT_INTERVAL" = Some "500".
Proof.
  destruct (X12_worker_environment
    (step (CallConfigure (poolOf 2) emptySettings) (newSupervisor everySecond))
    "7" (λ _, ∅) [] eq_refl eq_refl) as (environment & Hc & Hid & Hint & _).
  exists environment. cbv zeta. rewrite Hc. split; [reflexivity|].
  split; [exact Hid|exact Hint].
Defined.

(** ** What [start()] launches *)

(** The processes launched for [ids], the first with handle [p]. *)
Fixpoint poolLaunches (cfg : Settings) (perWorker : string → gmap string string)
    (flags : list string) (p : nat) (ids : list Z) : list Effect :=
  match ids with
  | [] => []
  | id :: ids' =>
      Fork p (exec cfg) (args cfg)
        (<["POOL_HALL_HEARTBEAT_INTERVAL" := template (heartbeatWorkerInterval cfg)]>
           (<["POOL_HALL_ID" := pretty id]>
              (perWorker (pretty id) ∪ default ∅ (env cfg))))
        flags
      :: poolLaunches cfg perWorker flags (S p) ids'
  end.

(** The workers tracked for [ids]. *)
Fixpoint poolWorkers (p : nat) (ids : list Z) : list (string * Worker) :=
  match ids with
  | [] => []
  | id :: ids' =>
      (pretty id,
       {| worker_id := pretty id; worker_state := down;
          worker_process := {| pid := p; exited := false; exitListener := true |} |})
      :: poolWorkers (S p) ids'
  end.

Lemma poolWorkers_keys p ids : Object_keys (poolWorkers p ids) = pretty <$> ids.
Proof.
  revert p. induction ids as [|id ids IH]; intros p; [done|].
  unfold Object_keys in *. csimpl. by rewrite IH.
Qed.

Lemma obj_set_fresh k w o : k ∉ Object_keys o → obj_set k w o = o ++ [(k, w)].
Proof.
  unfold Object_keys. induction o as [|[k' w'] o IH]; [done|]. csimpl.
  intros [Hk Ho]%not_elem_of_cons. rewrite decide_False by done.
  by rewrite IH.
Qed.

Lemma Supervisor_eq (s t : Supervisor) :
  configured s = configured t → initializing s = initializing t →
  workerPoolCreated s = workerPoolCreated t → workers s = workers t →
  settings s = settings t → closing s = closing t →
  heartbeatTimestamps s = heartbeatTimestamps t →
  heartbeatTimeout s = heartbeatTimeout t →
  heartbeatStartedAt s = heartbeatStartedAt t → readyJoin s = readyJoin t →
  promises s = promises t → nextTickQueue s = nextTickQueue t →
  nextPid s = nextPid t → hrtimeSource s = hrtimeSource t →
  hrtimeReads s = hrtimeReads t → trace s = trace t → s = t.
Proof. destruct s, t. simpl. by intros -> -> -> -> -> -> -> -> -> -> -> -> -> -> -> ->. Qed.

Lemma createWorkers_eq ids : ∀ acc s perWorker flags,
  workerEnv (settings s) = Some perWorker →
  execArgv (settings s) = Some flags →
  NoDup ids →
  (∀ id, id ∈ ids → pretty id ∉ Object_keys (workers s)) →
  createWorkers ids acc s
  = (Ok (acc ++ (pretty <$> ids)),
     set_workers (workers s ++ poolWorkers (nextPid s) ids)
       (set_trace (trace s ++ poolLaunches (settings s) perWorker flags (nextPid s) ids)
          (set_nextPid (nextPid s + length ids)%nat s))).
Proof.
  induction ids as [|id ids IH]; intros acc s perWorker flags He Ha Hnd Hfresh.
  - simpl. rewrite !app_nil_r, Nat.add_0_r. by destruct s.
  - apply NoDup_cons in Hnd as [Hid Hnd]. cbn [createWorkers].
    unfold mbind at 1, M_bind at 1. rewrite createWorkerProcess_eq, He, Ha.
    erewrite bind_Ok; [|reflexivity].
    erewrite IH; [|exact He|exact Ha|done|].
    + cbn [fmap list_fmap poolLaunches poolWorkers length].
      rewrite <- app_assoc. f_equal.
      apply Supervisor_eq; try reflexivity.
      * cbn [workers set_workers set_trace set_nextPid nextPid].
        rewrite obj_set_fresh by (apply Hfresh; left).
        by rewrite <- app_assoc.
      * cbn [nextPid set_workers set_trace set_nextPid]. lia.
      * cbn [trace settings nextPid set_workers set_trace set_nextPid].
        by rewrite <- app_assoc.
    + intros id' Hid'. simpl. rewrite obj_set_keys.
      rewrite decide_False by (apply Hfresh; left).
      rewrite not_elem_of_app. split; [apply Hfresh; by right|].
      rewrite list_elem_of_singleton. intros Heq%(inj pretty). congruence.
Qed.

Lemma poolWorkers_length p ids : length (poolWorkers p ids) = length ids.
Proof. revert p. induction ids as [|id ids IH]; intros p; simpl; by rewrite ?IH. Qed.



(** ** What a timeout of the shutdown sequence does *)

(** The event that the [onTimeout] callback of a race emits. *)
Definition timeoutEvent (callback : TimeoutCallback) (cfg : Settings) : PoolEvent :=
  match callback with
  | gentleStopTimedOut => info_gentleStopTimeout (gentleStopTimeout cfg)
  | killTimedOut signal => info_killTimeout signal (killTimeout cfg)
  end.

Lemma runTimeoutCallback_eq callback s :
  runTimeoutCallback callback s
  = (Ok (), set_trace (trace s ++ [Emit (timeoutEvent callback (settings s))]) s).
Proof. by destruct callback. Qed.

(** The signals of one sweep. *)
Definition sweep (signal : Signal) (live : list (string * Worker)) : list Effect :=
  Emit (info_liveWorkersAtKill signal (Z.of_nat (length live)))
  :: ((λ kw : string * Worker, Kill kw.1 (pid (worker_process kw.2)) signal) <$> live).

Lemma Quiescent_insert s i p :
  Quiescent s → waiting p →
  Quiescent (set_promises (<[i := p]> (promises s)) s).
Proof.
  intros [Hq Hj Hp] Hw. split; simpl; [done..|].
  apply Forall_insert; done.
Qed.

Lemma settle_link o signal thens s :
  settle o ((killSequence signal, killSequence signal) :: thens) s
  = match liveWorkers s with
    | [] => (Ok (Settled (Fulfilled false)), s)
    | _ :: _ =>
        (Ok (Pending {| awaited := Object_keys (liveWorkers s);
                        timeout := killTimeout (settings s);
                        onTimeout := killTimedOut signal |} thens),
         set_trace (trace s ++ sweep signal (liveWorkers s)) s)
    end.
Proof.
  cbn [settle].
  assert (then_ (killSequence signal) (killSequence signal) o = killSequence signal)
    as -> by (by destruct o).
  unfold runHandler, mbind, M_bind. rewrite killProcesses_eq.
  destruct (liveWorkers s) as [|kw live] eqn:Hl; simpl; [|done].
  rewrite settle_dead by done. by destruct thens.
Qed.

(** X14. When the timer of a race of the shutdown sequence fires, the
    timeout is reported and the next link of the chain runs whether or not
    a listener of the report throws: the next signal is sent to exactly the
    workers that are alive at that moment, once each and in table order,
    after their number has been reported, and the promise then waits for
    these workers with [killTimeout]; when no worker is alive, no signal is
    sent and the promise is fulfilled at once; when the fired race was the
    last one (SIGKILL), the promise settles, rejected exactly when a
    listener threw. *)
Theorem X14_timeout_escalation (s : Supervisor) (i : nat) (race : Race)
    (thens : list (Handler * Handler)) (listenerThrows : bool) :
  reachable s →
  promises s !! i = Some (Pending race thens) →
  let s' := step (RaceTimer i listenerThrows) s in
  let report := Emit (timeoutEvent (onTimeout race) (settings s)) in
  (handle (RaceTimer i listenerThrows) s).1 = Ok ()
  ∧ workers s' = workers s
  ∧ (∀ j, j ≠ i → promises s' !! j = promises s !! j)
  ∧ (∀ signal thens',
       thens = (killSequence signal, killSequence signal) :: thens' →
       if decide (liveWorkers s = []) then
         trace s' = trace s ++ [report]
         ∧ promises s' !! i = Some (Settled (Fulfilled false))
       else
         trace s' = trace s ++ report :: sweep signal (liveWorkers s)
         ∧ promises s' !! i
           = Some (Pending {| awaited := Object_keys (liveWorkers s);
                              timeout := killTimeout (settings s);
                              onTimeout := killTimedOut signal |} thens'))
  ∧ (thens = [] →
     trace s' = trace s ++ [report]
     ∧ promises s' !! i
       = Some (Settled (if listenerThrows then Rejected else Fulfilled true))).
Proof.
  intros Hr Hi s' report.
  pose proof (Quiescent_reachable s Hr) as HQ.
  assert (i < length (promises s))%nat as Hlt by (by eapply lookup_lt_Some).
  set (o := if listenerThrows then Rejected else Fulfilled true).
  set (s1 := set_trace (trace s ++ [report]) s).
  assert (∀ p s2, settle o thens s1 = (Ok p, s2) → promises s2 = promises s →
            nextTickQueue s2 = [] → readyJoin s2 = readyJoin s →
            handle (RaceTimer i listenerThrows) s
            = (Ok (), set_promises (<[i := p]> (promises s)) s2)
            ∧ s' = set_promises (<[i := p]> (promises s)) s2) as Hgo.
  { intros p s2 Hs Hp Hq Hj.
    assert (handle (RaceTimer i listenerThrows) s
            = (Ok (), set_promises (<[i := p]> (promises s)) s2)) as Hh.
    { unfold handle, onRaceTimeout. erewrite bind_Ok; [|reflexivity].
      rewrite Hi. erewrite bind_Ok; [|apply runTimeoutCallback_eq].
      fold report. fold s1. fold o. erewrite bind_Ok; [|exact Hs].
      unfold setPromise, modify. by rewrite Hp. }
    split; [done|]. unfold s'. rewrite step_idle; rewrite Hh; [done|]. simpl.
    rewrite <- Hp. apply (Quiescent_insert s2).
    - destruct HQ. split; [done|congruence|congruence].
    - by eapply settle_waiting. }
  assert (nextTickQueue s1 = [] ∧ readyJoin s1 = readyJoin s
          ∧ promises s1 = promises s) as (Hq1 & Hj1 & Hp1).
  { split; [apply HQ|done]. }
  assert (∀ p tr, settle o thens s1 = (Ok p, set_trace tr s1) →
            (handle (RaceTimer i listenerThrows) s).1 = Ok ()
            ∧ workers s' = workers s
            ∧ (∀ j, j ≠ i → promises s' !! j = promises s !! j)
            ∧ trace s' = tr
            ∧ promises s' !! i = Some p) as Hfin.
  { intros p tr Hs. destruct (Hgo p (set_trace tr s1) Hs) as [Hh ->]; try done.
    rewrite Hh. split; [done|]. split; [done|]. split; [|split; [done|]]; simpl.
    - intros j Hj. by rewrite list_lookup_insert_ne.
    - by rewrite list_lookup_insert_eq. }
  assert (set_trace (trace s1) s1 = s1) as Hid by (by destruct s).
  destruct thens as [|[h1 h2] thens'].
  - destruct (Hfin (Settled o) (trace s1)) as (H1 & H2 & H3 & H4 & H5).
    { by rewrite Hid. }
    split; [done|]. split; [done|]. split; [done|]. split; [by intros ? ? [=]|].
    intros _. split; done.
  - assert (∀ signal, h1 = killSequence signal → h2 = killSequence signal →
              ∃ p tr, settle o ((h1, h2) :: thens') s1 = (Ok p, set_trace tr s1)
                ∧ if decide (liveWorkers s = []) then
                    tr = trace s ++ [report] ∧ p = Settled (Fulfilled false)
                  else
                    tr = trace s ++ report :: sweep signal (liveWorkers s)
                    ∧ p = Pending {| awaited := Object_keys (liveWorkers s);
                                     timeout := killTimeout (settings s);
                                     onTimeout := killTimedOut signal |} thens')
      as Hlink.
    { intros signal -> ->. rewrite settle_link.
      change (liveWorkers s1) with (liveWorkers s).
      destruct (liveWorkers s) as [|kw live] eqn:Hl.
      - exists (Settled (Fulfilled false)), (trace s1). rewrite Hid.
        split; [done|]. by rewrite decide_True.
      - eexists _, _. split; [reflexivity|]. rewrite decide_False by done.
        simpl. split; [|done]. by rewrite <- app_assoc. }
    destruct h1 as [signal1], h2 as [signal2].
    destruct (settle_total o ((killSequence signal1, killSequence signal2) :: thens') s1)
      as (p & s2 & Hs & Hp & _).
    pose proof (calm_settle o ((killSequence signal1, killSequence signal2) :: thens') s1)
      as [Hj Hq].
    rewrite Hs in Hj, Hq. simpl in Hj, Hq, Hp.
    destruct (Hgo p s2 Hs) as [Hh Hs'];
      [by rewrite Hp|by rewrite Hq|by rewrite Hj|].
    assert (workers s2 = workers s) as Hw.
    { revert Hs. cbn [settle]. unfold runHandler, mbind, M_bind.
      destruct (then_ _ _ o) as [signal]. rewrite killProcesses_eq.
      change (liveWorkers s1) with (liveWorkers s).
      destruct (liveWorkers s) as [|kw live] eqn:Hl; simpl.
      - rewrite settle_dead by done. by intros [= _ <-].
      - by intros [= _ <-]. }
    split; [by rewrite Hh|]. split; [by rewrite Hs'|]. split.
    { intros j Hj'. rewrite Hs'. simpl. by rewrite list_lookup_insert_ne. }
    split; [|done].
    intros signal thens'' [= -> -> ->].
    destruct (Hlink signal eq_refl eq_refl) as (p' & tr & Hs2 & Hcase).
    destruct (Hfin p' tr Hs2) as (_ & _ & _ & Ht & Hpi).
    rewrite Ht, Hpi. destruct (decide _); destruct Hcase as [-> ->]; done.
Qed.

Lemma X14_timeout_escalation_witness :
  let s := run [CallConfigure (poolOf 2) emptySettings; CallStart;
                ProcessMessage "1" ready; ProcessExit "2" (Some 0) None; CallStop]
               (newSupervisor everySecond) in
  let s' := step (RaceTimer 0 true) s in
  reachable s
  ∧ drop (length (trace s)) (trace s')
    = [Emit (info_gentleStopTimeout (Some 5000));
       Emit (info_liveWorkersAtKill SIGTERM 1); Kill "1" 0 SIGTERM]
  ∧ promises s' !! 0%nat
    = Some (Pending {| awaited := ["1"]; timeout := Some 2000;
                       onTimeout := killTimedOut SIGTERM |}
              [(killSequence SIGKILL, killSequence SIGKILL)]).
Proof.
  set (s := run [CallConfigure (poolOf 2) emptySettings; CallStart;
                 ProcessMessage "1" ready; ProcessExit "2" (Some 0) None; CallStop]
                (newSupervisor everySecond)).
  assert (reachable s) as Hr.
  { by exists everySecond, [CallConfigure (poolOf 2) emptySettings; CallStart;
                ProcessMessage "1" ready; ProcessExit "2" (Some 0) None; CallStop]. }
  assert (promises s !! 0%nat
          = Some (Pending {| awaited := ["1"; "2"]; timeout := Some 5000;
                             onTimeout := gentleStopTimedOut |}
                    [(killSequence SIGTERM, killSequence SIGTERM);
                     (killSequence SIGKILL, killSequence SIGKILL)])) as Hi
    by (clear; vm_compute; reflexivity).
  destruct (X14_timeout_escalation s 0 _ _ true Hr Hi) as (_ & _ & _ & Hlink & _).
  specialize (Hlink SIGTERM _ eq_refl).
  destruct (decide (liveWorkers s = [])) as [Hl|_]; [vm_compute in Hl; discriminate Hl|].
  destruct Hlink as [Ht Hp]. split; [exact Hr|]. cbv zeta. rewrite Ht, Hp.
  rewrite drop_app_length. split; clear; vm_compute; reflexivity.
Defined.

(** ** A worker that is not replaced stays dead *)

Section Holding.
(** The worker [dormant], whose process [gone] has exited, and possibly a
    promise [held] whose race awaits that worker. *)
Context (dormant : string) (gone : ChildProcess) (held : option nat).
Hypothesis gone_exited : exited gone = true.

Record Held (s : Supervisor) : Prop := {
  held_created : workerPoolCreated s = true;
  held_process : worker_process <$> obj_get dormant (workers s) = Some gone;
  held_queue : dormant ∉ nextTickQueue s;
  held_promise : ∀ i, held = Some i →
    ∃ race thens, promises s !! i = Some (Pending race thens)
                  ∧ dormant ∈ awaited race
                  ∧ onTimeout race = gentleStopTimedOut;
}.

Definition holding (s s' : Supervisor) : Prop := Held s → Held s'.

#[local] Instance holding_preorder : PreOrder holding.
Proof. split; unfold holding; [by intros s|intros s1 s2 s3; auto]. Qed.

Ltac holding_leaf :=
  lazymatch goal with
  | |- holding _ _ => intros [Hc Hp Hq Hi]; split; simpl; try done
  end.

Lemma holding_perform e : respects holding (perform e).
Proof. intros s. holding_leaf. Qed.
Lemma holding_process_hrtime : respects holding process_hrtime.
Proof. intros s. holding_leaf. Qed.
#[local] Hint Resolve holding_perform holding_process_hrtime : respects.
Lemma holding_process_hrtime_since past : respects holding (process_hrtime_since past).
Proof. unfold process_hrtime_since. respects_go. Qed.
#[local] Hint Resolve holding_process_hrtime_since : respects.

Lemma holding_alter_state key v :
  respects holding (alterWorker key (set_worker_state v)).
Proof.
  intros s. holding_leaf. rewrite obj_get_alter.
  destruct (decide (key = dormant)) as [->|]; [|done].
  by destruct (obj_get dormant (workers s)).
Qed.
Lemma holding_alter_other key f :
  key ≠ dormant → respects holding (alterWorker key f).
Proof. intros Hne s. holding_leaf. by rewrite obj_get_alter, decide_False. Qed.
#[local] Hint Resolve holding_alter_state : respects.

Lemma holding_emit e : respects holding (emit e).
Proof.
  unfold emit, setPoolHealth, recordHeartbeat, internalSend, worker_send.
  destruct e; respects_go; try holding_leaf.
Qed.
#[local] Hint Resolve holding_emit : respects.
Lemma holding_monitorHeartbeat : respects holding monitorHeartbeat.
Proof. unfold monitorHeartbeat, scheduleMonitor. respects_go; try holding_leaf. Qed.
Lemma holding_configure settings' baseSettings :
  respects holding (configure settings' baseSettings).
Proof. unfold configure. respects_go; try holding_leaf. Qed.
Lemma holding_onAllReady : respects holding onAllReady.
Proof. unfold onAllReady, scheduleMonitor. respects_go; try holding_leaf. Qed.
#[local] Hint Resolve holding_monitorHeartbeat holding_configure holding_onAllReady
  : respects.

Lemma holding_start : respects holding start.
Proof.
  intros s [Hc Hp Hq Hi]. unfold start, createWorkerPool.
  erewrite bind_Ok; [|reflexivity]. erewrite bind_Ok; [|reflexivity].
  simpl. rewrite Hc. by split.
Qed.

Lemma holding_replaceWorkerProcess key :
  key ≠ dormant → respects holding (replaceWorkerProcess key).
Proof.
  intros Hne. unfold replaceWorkerProcess, createWorkerProcess, fork.
  respects_go; try holding_leaf; by apply holding_alter_other.
Qed.

Lemma holding_replacements queue :
  dormant ∉ queue → respects holding (forEach replaceWorkerProcess queue).
Proof.
  induction queue as [|key queue IH]; intros Hq; cbn [forEach].
  - apply (respects_ret holding).
  - apply (respects_bind holding).
    + apply holding_replaceWorkerProcess. intros ->. apply Hq. left.
    + intros _. apply IH. intros H. apply Hq. by right.
Qed.

Lemma holding_runNextTicks : respects holding runNextTicks.
Proof.
  intros s HH. unfold runNextTicks. erewrite bind_Ok; [|reflexivity].
  erewrite bind_Ok; [|reflexivity].
  apply holding_replacements; [apply (held_queue s HH)|].
  destruct HH. split; simpl; try done. apply not_elem_of_nil.
Qed.

Lemma holding_settle o thens : respects holding (settle o thens).
Proof.
  revert o. induction thens as [|[h1 h2] thens IH]; intros o; simpl;
    unfold runHandler, killProcesses; respects_go;
    try (destruct (then_ h1 h2 o); respects_go); try holding_leaf.
Qed.
#[local] Hint Resolve holding_settle : respects.

Lemma Held_setPromise s j p :
  held ≠ Some j → Held s → Held (set_promises (<[j := p]> (promises s)) s).
Proof.
  intros Hj [Hc Hp Hq Hi]. split; simpl; try done.
  intros i Hh. rewrite list_lookup_insert_ne by congruence. auto.
Qed.

Lemma holding_runReactions j : respects holding (runReactions j).
Proof.
  intros s HH. unfold runReactions. erewrite bind_Ok; [|reflexivity].
  destruct (promises s !! j) as [[race thens|o]|] eqn:Hj; try done.
  destruct (awaited race) eqn:Ha; [|done].
  assert (held ≠ Some j) as Hne.
  { intros Hh. destruct (held_promise s HH j Hh) as (race' & thens' & Hj' & Hin & _).
    rewrite Hj in Hj'. injection Hj' as <- <-. rewrite Ha in Hin.
    by apply elem_of_nil in Hin. }
  destruct (settle_total (Fulfilled false) thens s) as (p & s1 & Hs & Hp & _).
  pose proof (holding_settle (Fulfilled false) thens s HH) as H1.
  rewrite Hs in H1. erewrite bind_Ok; [|exact Hs]. simpl.
  by apply Held_setPromise.
Qed.
#[local] Hint Resolve holding_runReactions : respects.

Lemma holding_runMicrotasks : respects holding runMicrotasks.
Proof. unfold runMicrotasks. respects_go; try holding_leaf. Qed.

Lemma holding_drain : respects holding drain.
Proof.
  unfold drain. apply (respects_bind holding); [apply holding_runNextTicks|].
  intros _. apply holding_runMicrotasks.
Qed.

Lemma holding_stop : respects holding stop.
Proof.
  unfold stop, gentleStop, internalSend, worker_send. respects_go; try holding_leaf.
  intros i Hh. destruct (Hi i Hh) as (race & thens & Hl & Hin & Ht).
  exists race, thens. split; [|done]. by apply lookup_app_l_Some.
Qed.

Lemma holding_onRaceTimeout j listenerThrows :
  held ≠ Some j → respects holding (onRaceTimeout j listenerThrows).
Proof.
  intros Hne s HH. unfold onRaceTimeout. erewrite bind_Ok; [|reflexivity].
  destruct (promises s !! j) as [[race thens|o]|] eqn:Hj; try done.
  erewrite bind_Ok; [|apply runTimeoutCallback_eq].
  set (s1 := set_trace _ s).
  assert (Held s1) as HH1 by (destruct HH; by split).
  set (o := if listenerThrows then Rejected else Fulfilled true).
  destruct (settle_total o thens s1) as (p & s2 & Hs & Hp & _).
  pose proof (holding_settle o thens s1 HH1) as H2. rewrite Hs in H2.
  erewrite bind_Ok; [|exact Hs]. simpl. by apply Held_setPromise.
Qed.

Lemma holding_worker_emit key e :
  key ≠ dormant → respects holding (worker_emit key e).
Proof.
  intros Hne. unfold worker_emit. destruct e; respects_go; try holding_leaf.
  intros i Hh. destruct (Hi i Hh) as (race & thens & Hl & Hin & Ht).
  rewrite list_lookup_fmap, Hl. simpl. eexists _, _. split; [done|]. simpl.
  split; [|done].
  unfold resolveFor. apply list_elem_of_filter. split; [congruence|done].
Qed.

Lemma holding_message key message :
  respects holding (handle (ProcessMessage key message)).
Proof.
  simpl. unfold workerInternalMessageHandler, worker_emit.
  respects_go; try holding_leaf.
Qed.

Lemma holding_exit key exitCode signalCode :
  respects holding (handle (ProcessExit key exitCode signalCode)).
Proof.
  intros s HH. destruct (decide (key = dormant)) as [->|Hne].
  - pose proof (held_process s HH) as Hp.
    apply fmap_Some_inv in Hp as (w & Hw & Hp).
    rewrite (handle_exit_dead dormant w); [done..|].
    unfold isDead. by rewrite Hp.
  - revert s HH. change (respects holding (handle (ProcessExit key exitCode signalCode))).
    simpl. unfold onExit, process_nextTick. respects_go;
      try (by apply holding_alter_other); try (by apply holding_worker_emit).
    holding_leaf. rewrite not_elem_of_app, list_elem_of_singleton. split; congruence.
Qed.

Lemma holding_handle x :
  (∀ j listenerThrows, x = RaceTimer j listenerThrows → held ≠ Some j) →
  respects holding (handle x).
Proof.
  intros Hx. destruct x.
  - apply holding_configure.
  - apply holding_start.
  - simpl. apply (respects_bind holding); [apply holding_stop|].
    intros _. apply (respects_ret holding).
  - apply holding_exit.
  - apply holding_message.
  - simpl. respects_go.
  - simpl. apply holding_onRaceTimeout. by eapply Hx.
Qed.

Lemma holding_run inputs s :
  (∀ j listenerThrows, RaceTimer j listenerThrows ∈ inputs → held ≠ Some j) →
  holding s (run inputs s).
Proof.
  induction inputs as [|x inputs IH] using rev_ind; intros Hx; [reflexivity|].
  rewrite run_snoc. etrans; [apply IH|].
  - intros j b Hin. apply (Hx j b). apply elem_of_app. by left.
  - unfold step. etrans; [apply holding_handle|apply holding_drain].
    intros j b ->. apply (Hx j b). apply elem_of_app. right. left.
Qed.
End Holding.

(** X15. A worker whose process has exited and that was not replaced in
    the turn of the exit (it exited with code 0, or the supervisor was
    closing) is never replaced: whatever is called and whatever happens
    afterwards, a later [start()] included, the worker keeps its exited
    process. *)
Theorem X15_dead_worker_stays_dead (s : Supervisor) (key : string) (worker : Worker)
    (inputs : list Input) :
  reachable s →
  obj_get key (workers s) = Some worker →
  isDead worker = true →
  ∃ worker', obj_get key (workers (run inputs s)) = Some worker'
             ∧ worker_process worker' = worker_process worker
             ∧ isDead worker' = true.
Proof.
  intros Hr Hg Hd.
  assert (Held key (worker_process worker) None s) as HH.
  { split.
    - apply (inv_created s (Inv_reachable s Hr)). intros Hw. by rewrite Hw in Hg.
    - by rewrite Hg.
    - rewrite (reachable_queue s Hr). apply not_elem_of_nil.
    - by intros i [=]. }
  pose proof (holding_run key (worker_process worker) None Hd inputs s
                ltac:(done) HH) as [_ Hp _ _].
  apply fmap_Some_inv in Hp as (worker' & Hg' & Hp').
  exists worker'. split; [done|]. split; [done|]. unfold isDead. by rewrite Hp'.
Qed.

Lemma X15_dead_worker_stays_dead_witness :
  let s := run [CallConfigure (poolOf 2) emptySettings; CallStart;
                ProcessMessage "1" ready; ProcessMessage "2" ready;
                ProcessExit "2" (Some 0) None] (newSupervisor everySecond) in
  let worker := {| worker_id := "2"; worker_state := down;
                   worker_process := {| pid := 1; exited := true;
                                        exitListener := false |} |} in
  let inputs := [CallStop; CallStart; ProcessExit "1" (Some 1) None;
                 ProcessMessage "1" ready; CallStart] in
  reachable s
  ∧ obj_get "2" (workers s) = Some worker
  ∧ ∃ worker', obj_get "2" (workers (run inputs s)) = Some worker'
               ∧ worker_process worker' = worker_process worker
               ∧ isDead worker' = true.
Proof.
  assert (reachable (run [CallConfigure (poolOf 2) emptySettings; CallStart;
                ProcessMessage "1" ready; ProcessMessage "2" ready;
                ProcessExit "2" (Some 0) None] (newSupervisor everySecond))) as Hr.
  { by exists everySecond, [CallConfigure (poolOf 2) emptySettings; CallStart;
                ProcessMessage "1" ready; ProcessMessage "2" ready;
                ProcessExit "2" (Some 0) None]. }
  split; [exact Hr|]. split; [by vm_compute|].
  apply (X15_dead_worker_stays_dead _ "2" _ _ Hr); by vm_compute.
Defined.

(** X16. [gentleStop] waits for a ['down'] event of every tracked worker,
    dead or alive.  When a worker is already dead at the time of [stop()],
    that event never comes: whatever the other workers do, the promise that
    [stop()] returned is still in its gentle-stop race, waiting for that
    worker, until the timer of that race fires. *)
Theorem X16_gentle_stop_waits_for_dead (s : Supervisor) (key : string)
    (worker : Worker) (inputs : list Input) :
  reachable s →
  obj_get key (workers s) = Some worker →
  isDead worker = true →
  let i := length (promises s) in
  (∀ listenerThrows, RaceTimer i listenerThrows ∉ inputs) →
  ∃ race thens,
    promises (run inputs (step CallStop s)) !! i = Some (Pending race thens)
    ∧ key ∈ awaited race
    ∧ onTimeout race = gentleStopTimedOut.
Proof.
  intros Hr Hg Hd i Hin.
  assert (Held key (worker_process worker) (Some i) (step CallStop s)) as HH.
  { unfold step. apply holding_drain.
    unfold handle. erewrite bind_Ok; [|apply stop_eq]. simpl. split; simpl.
    - apply (inv_created s (Inv_reachable s Hr)). intros Hw. by rewrite Hw in Hg.
    - by rewrite Hg.
    - rewrite (reachable_queue s Hr). apply not_elem_of_nil.
    - intros j [= <-]. eexists _, _. split; [by apply list_lookup_middle|].
      simpl. split; [|done]. by eapply obj_get_Some_keys. }
  assert (Held key (worker_process worker) (Some i) (run inputs (step CallStop s)))
    as [_ _ _ Hp].
  { apply holding_run; [done| |done].
    intros j b Hj [= <-]. by apply (Hin b). }
  by apply Hp.
Qed.

Lemma X16_gentle_stop_waits_for_dead_witness :
  let s := run [CallConfigure (poolOf 2) emptySettings; CallStart;
                ProcessMessage "1" ready; ProcessMessage "2" ready;
                ProcessExit "2" (Some 0) None] (newSupervisor everySecond) in
  let inputs := [ProcessExit "1" (Some 0) None; MonitorTimer] in
  reachable s
  ∧ liveWorkers (run inputs (step CallStop s)) = []
  ∧ ∃ race thens,
      promises (run inputs (step CallStop s)) !! 0%nat = Some (Pending race thens)
      ∧ "2" ∈ awaited race
      ∧ onTimeout race = gentleStopTimedOut.
Proof.
  assert (reachable (run [CallConfigure (poolOf 2) emptySettings; CallStart;
                ProcessMessage "1" ready; ProcessMessage "2" ready;
                ProcessExit "2" (Some 0) None] (newSupervisor everySecond))) as Hr.
  { by exists everySecond, [CallConfigure (poolOf 2) emptySettings; CallStart;
                ProcessMessage "1" ready; ProcessMessage "2" ready;
                ProcessExit "2" (Some 0) None]. }
  split; [exact Hr|]. split; [by vm_compute|].
  apply (X16_gentle_stop_waits_for_dead _ "2"
           {| worker_id := "2"; worker_state := down;
              worker_process := {| pid := 1; exited := true;
                                   exitListener := false |} |}
           [ProcessExit "1" (Some 0) None; MonitorTimer] Hr).
  - by vm_compute.
  - reflexivity.
  - intros b Hin. repeat (apply elem_of_cons in Hin as [Hin|Hin]; [done|]).
    by apply elem_of_nil in Hin.
Defined.

(** ** A gentle stop that succeeds *)

(** What the ['exit'] handler of a live process leaves behind. *)
Lemma handle_exit_fields key worker exitCode signalCode s :
  obj_get key (workers s) = Some worker →
  isDead worker = false →
  exitListener (worker_process worker) = true →
  let s' := (handle (ProcessExit key exitCode signalCode) s).2 in
  workers s'
  = obj_alter (set_worker_state down) key
      (obj_alter (λ w, setProcess (markExited (worker_process worker)) w) key
         (workers s))
  ∧ promises s' = resolveDown key <$> promises s
  ∧ readyJoin s' = readyJoin s.
Proof.
  intros Hg Hd Hl. cbv zeta. rewrite (handle_exit key worker) by done.
  rewrite onExit_eq. unfold downed, worker_emit.
  rewrite bind_total by apply emit_Ok.
  rewrite (emit_changesHealth (workerDown key exitCode signalCode)) by done.
  by destruct (decide (exitCode = Some 0)).
Qed.

Section Easing.
(** The promise [i] of a [stop()] that found every worker alive. *)
Context (sent : list Effect) (i : nat).

(** The promise is fulfilled without a timeout, or its race awaits workers
    that are alive. *)
Definition onCourse (s : Supervisor) : Prop :=
  promises s !! i = Some (Settled (Fulfilled false))
  ∨ ∃ race thens,
      promises s !! i = Some (Pending race thens)
      ∧ ∀ k, k ∈ awaited race →
             ∃ w, obj_get k (workers s) = Some w ∧ isDead w = false.

Definition easing (s s' : Supervisor) : Prop :=
  Closing sent s ∧ onCourse s → Closing sent s' ∧ onCourse s'.

#[local] Instance easing_preorder : PreOrder easing.
Proof. split; unfold easing; [by intros s|intros s1 s2 s3; auto]. Qed.

Lemma onCourse_framed s s' :
  promises s' = promises s → processes s' = processes s →
  onCourse s → onCourse s'.
Proof.
  intros Hp Hw [H|(race & thens & Hi & Ha)]; [left; by rewrite Hp|].
  right. exists race, thens. rewrite Hp. split; [done|].
  intros k Hk. destruct (Ha k Hk) as (w & Hg & Hd).
  destruct (processes_alive s s' k w Hw Hg) as (w' & Hg' & Hd').
  exists w'. split; [done|]. congruence.
Qed.

Lemma easing_framed {A} (m : M A) :
  respects (framed isKill true false) m → respects keeps m →
  respects easing m.
Proof.
  intros Hf Hk s [HC Ho].
  destruct (winding_respects sent m Hf Hk s HC) as (HC' & _).
  split; [done|]. specialize (Hf s).
  apply (onCourse_framed s); [|by apply (fr_processes _ _ _ _ _ Hf)|done].
  by apply (fr_promises _ _ _ _ _ Hf).
Qed.

Lemma easing_replaceWorkerProcess key : respects easing (replaceWorkerProcess key).
Proof.
  intros s [HC Ho]. by rewrite replaceWorkerProcess_eq, (cl_closing _ _ HC).
Qed.

Lemma easing_runNextTicks : respects easing runNextTicks.
Proof.
  unfold runNextTicks. respects_go; [|apply easing_replaceWorkerProcess].
  intros [HC Ho]. split.
  - destruct HC as [[] ? ? ?]. split; [split|..]; done.
  - done.
Qed.

Lemma easing_runReactions j : respects easing (runReactions j).
Proof.
  intros s [HC Ho]. split; [by apply winding_runReactions|].
  unfold runReactions. erewrite bind_Ok; [|reflexivity].
  destruct (promises s !! j) as [[race thens|o]|] eqn:Hj; try done.
  destruct (awaited race) eqn:Ha; [|done].
  assert (allDead s) as Hdead.
  { intros k w Hw. eapply (cl_waits _ _ HC race thens k w); [|done|].
    - by eapply list_elem_of_lookup_2.
    - rewrite Ha. apply not_elem_of_nil. }
  erewrite bind_Ok;
    [|apply settle_dead, liveWorkers_dead; [apply (cl_inv _ _ HC)|done]].
  simpl. destruct (decide (j = i)) as [->|Hne].
  - left. simpl. rewrite list_lookup_insert_eq by (by eapply lookup_lt_Some).
    by destruct thens.
  - destruct Ho as [H|(race' & thens' & Hi & Hal)]; [left|right]; simpl.
    + by rewrite list_lookup_insert_ne.
    + exists race', thens'. by rewrite list_lookup_insert_ne.
Qed.

Lemma easing_runMicrotasks : respects easing runMicrotasks.
Proof.
  unfold runMicrotasks. respects_go; try apply easing_runReactions.
  - intros [HC Ho]. split; [|done]. destruct HC as [[] ? ? ?]. split; [split|..]; done.
  - apply easing_framed; [by apply framed_onAllReady|apply keeps_onAllReady].
Qed.

Lemma easing_drain : respects easing drain.
Proof.
  unfold drain. apply (respects_bind easing); [apply easing_runNextTicks|].
  intros _. apply easing_runMicrotasks.
Qed.

Lemma easing_exit key exitCode signalCode :
  respects easing (handle (ProcessExit key exitCode signalCode)).
Proof.
  intros s [HC Ho]. split; [by apply closing_exit|].
  destruct (obj_get key (workers s)) as [worker|] eqn:Hg;
    [|by rewrite handle_exit_untracked].
  destruct (isDead worker) eqn:Hd; [by rewrite (handle_exit_dead key worker)|].
  destruct (handle_exit_fields key worker exitCode signalCode s Hg Hd)
    as (Hw & Hp & _); [by apply (inv_listener s (cl_inv _ _ HC) key worker)|].
  destruct Ho as [H|(race & thens & Hi & Hal)]; [left|right].
  - by rewrite Hp, list_lookup_fmap, H.
  - exists {| awaited := resolveFor key (awaited race); timeout := timeout race;
              onTimeout := onTimeout race |}, thens.
    split; [by rewrite Hp, list_lookup_fmap, Hi|].
    intros k [Hne Hk]%list_elem_of_filter. rewrite Hw.
    rewrite !obj_get_alter, !decide_False by done. auto.
Qed.

Lemma easing_configure settings' baseSettings :
  respects easing (handle (CallConfigure settings' baseSettings)).
Proof.
  intros s [HC Ho]. split; [by apply closing_configure|]. simpl.
  destruct (configure_frame settings' baseSettings s) as (_ & _ & Hp & Hw & _).
  apply (onCourse_framed s); [done| |done]. unfold processes. by rewrite Hw.
Qed.

Lemma easing_stop : respects easing (handle CallStop).
Proof.
  intros s [HC Ho]. split; [by apply closing_again|].
  unfold handle. erewrite bind_Ok; [|apply stop_eq]. simpl.
  destruct Ho as [H|(race & thens & Hi & Hal)]; [left|right]; simpl.
  - by apply lookup_app_l_Some.
  - exists race, thens. split; [by apply lookup_app_l_Some|done].
Qed.

Lemma easing_step x s : unhurried x = true → easing s (step x s).
Proof.
  intros Hx. unfold step. etrans; [|apply easing_drain].
  destruct x; try done.
  - apply easing_configure.
  - apply easing_stop.
  - apply easing_exit.
  - apply easing_framed; [|apply keeps_handle].
    simpl. apply (respects_withWorker (framed isKill true false)). intros _.
    by apply framed_workerInternalMessageHandler.
  - apply easing_framed; [|apply keeps_handle].
    simpl. apply (respects_bind (framed isKill true false));
      [apply (respects_gets (framed isKill true false))|].
    intros [t|]; [by apply framed_monitorHeartbeat|].
    apply (respects_ret (framed isKill true false)).
Qed.

Lemma easing_run inputs s :
  Forall (λ x, unhurried x = true) inputs → easing s (run inputs s).
Proof.
  induction inputs as [|x inputs IH] using rev_ind; intros Hin; [reflexivity|].
  apply Forall_app in Hin as [Hin Hx]. apply Forall_inv in Hx.
  rewrite run_snoc. etrans; [by apply IH|by apply easing_step].
Qed.
End Easing.

Lemma reachable_run inputs s : reachable s → reachable (run inputs s).
Proof.
  intros (clock & inputs0 & ->). exists clock, (inputs0 ++ inputs).
  unfold run. by rewrite foldl_app.
Qed.

(** X17. A [stop()] that finds every tracked worker alive, on a supervisor
    with no earlier shutdown pending, is fulfilled as soon as the last
    worker has exited, provided that until then [start()] is not called
    and no timer of a race fires (further calls of [stop()] and
    [configure()] do not matter): the promise is then settled without a
    timeout, and no signal has been sent. *)
Theorem X17_gentle_stop_succeeds (s : Supervisor) (gentle : list Input) :
  reachable s →
  Forall (λ p, ∃ o, p = Settled o) (promises s) →
  (∀ k w, obj_get k (workers s) = Some w → isDead w = false) →
  Forall (λ x, unhurried x = true) gentle →
  let s' := run gentle (step CallStop s) in
  allDead s' →
  promises s' !! length (promises s) = Some (Settled (Fulfilled false))
  ∧ kills (trace s') = kills (trace s).
Proof.
  intros Hr Hsettled Halive Hgentle s' Hdead.
  pose proof (Inv_reachable s Hr) as HI.
  set (i := length (promises s)).
  assert (Closing (kills (trace s)) (handle CallStop s).2
          ∧ onCourse i (handle CallStop s).2) as Hstart.
  { unfold handle. erewrite bind_Ok; [|apply stop_eq]. simpl. split; [split|]; simpl.
    - pose proof (keeps_stop s HI) as H. by rewrite stop_eq in H.
    - done.
    - unfold kills. rewrite filter_app.
      assert (filter (λ e, isKill e = true)
                ((λ k, Send k shutdown) <$> Object_keys (workers s)) = []) as ->.
      { induction (Object_keys (workers s)); [done|]. csimpl.
        by rewrite filter_cons_False. }
      by rewrite app_nil_r.
    - intros race thens k w Hin Hw Hk. simpl in Hin, Hw.
      apply elem_of_app in Hin as [Hin|Hin].
      + rewrite Forall_forall in Hsettled. by destruct (Hsettled _ Hin).
      + apply list_elem_of_singleton in Hin. injection Hin as -> _.
        destruct Hk. simpl. by eapply obj_get_Some_keys.
    - right. eexists _, _. split; [by apply list_lookup_middle|]. simpl.
      intros k Hk. destruct (obj_get k (workers s)) as [w|] eqn:Hw; [eauto|].
      by apply obj_get_None_keys in Hw. }
  assert (Closing (kills (trace s)) s' ∧ onCourse i s') as [HC Ho].
  { apply easing_run; [done|]. unfold step. by apply easing_drain. }
  split; [|apply (cl_kills _ _ HC)].
  destruct Ho as [H|(race & thens & Hi & Hal)]; [done|].
  assert (reachable s') as Hr'.
  { apply reachable_run. by apply (reachable_run [CallStop]). }
  pose proof (qui_promises s' (Quiescent_reachable s' Hr')) as Hw.
  rewrite Forall_lookup in Hw. specialize (Hw i _ Hi). simpl in Hw.
  destruct (awaited race) as [|k l] eqn:Ha; [done|].
  destruct (Hal k) as (w & Hg & Hd); [left|].
  by rewrite (Hdead k w Hg) in Hd.
Qed.

Lemma X17_gentle_stop_succeeds_witness :
  let s := run [CallConfigure (poolOf 2) emptySettings; CallStart;
                ProcessMessage "1" ready; ProcessMessage "2" ready]
               (newSupervisor everySecond) in
  let gentle := [ProcessExit "2" (Some 0) None; CallStop;
                 ProcessMessage "1" heartbeat;
                 ProcessExit "1" None (Some "SIGINT")] in
  reachable s
  ∧ promises (run gentle (step CallStop s)) !! 0%nat
    = Some (Settled (Fulfilled false))
  ∧ kills (trace (run gentle (step CallStop s))) = [].
Proof.
  set (s := run [CallConfigure (poolOf 2) emptySettings; CallStart;
                 ProcessMessage "1" ready; ProcessMessage "2" ready]
                (newSupervisor everySecond)).
  set (gentle := [ProcessExit "2" (Some 0) None; CallStop;
                  ProcessMessage "1" heartbeat;
                  ProcessExit "1" None (Some "SIGINT")]).
  assert (reachable s) as Hr.
  { by exists everySecond, [CallConfigure (poolOf 2) emptySettings; CallStart;
                            ProcessMessage "1" ready; ProcessMessage "2" ready]. }
  split; [exact Hr|].
  apply (X17_gentle_stop_succeeds s gentle Hr).
  - constructor.
  - intros k w. replace (workers s)
      with [("1", {| worker_id := "1"; worker_state := up;
                     worker_process := {| pid := 0; exited := false;
                                          exitListener := true |} |});
            ("2", {| worker_id := "2"; worker_state := up;
                     worker_process := {| pid := 1; exited := false;
                                          exitListener := true |} |})]
      by (clear; vm_compute; reflexivity).
    simpl. destruct (decide ("1" = k)); [by intros [= <-]|].
    destruct (decide ("2" = k)); [by intros [= <-]|done].
  - repeat constructor.
  - intros k w. replace (workers (run gentle (step CallStop s)))
      with [("1", {| worker_id := "1"; worker_state := down;
                     worker_process := {| pid := 0; exited := true;
                                          exitListener := false |} |});
            ("2", {| worker_id := "2"; worker_state := down;
                     worker_process := {| pid := 1; exited := true;
                                          exitListener := false |} |})]
      by (clear; vm_compute; reflexivity).
    simpl. destruct (decide ("1" = k)); [by intros [= <-]|].
    destruct (decide ("2" = k)); [by intros [= <-]|done].
Defined.

(** ** What [stop()] does at once *)

Lemma forEach_app {A} (f : A → M unit) (l1 l2 : list A) s s1 :
  forEach f l1 s = (Ok (), s1) → forEach f (l1 ++ l2) s = forEach f l2 s1.
Proof.
  revert s. induction l1 as [|x l1 IH]; intros s; simpl.
  - by intros [= ->].
  - unfold mbind, M_bind. destruct (f x s) as [[[]|e] s']; [|done]. apply IH.
Qed.



(** ** When [workerAllUp] is emitted *)

(** The worker has reported ready at least once. *)
Definition everUp (tr : list Effect) (key : string) : Prop :=
  Emit (workerUp key) ∈ tr.

#[global] Instance everUp_dec tr key : Decision (everUp tr key).
Proof. unfold everUp. apply _. Defined.

(** [Promise.all(workerReadyPromises)] awaits the workers that have not
    reported ready yet; once it has resolved, all have. *)
Record Ready (s : Supervisor) : Prop := {
  ready_join : ∀ l, readyJoin s = Some l →
    l = filter (λ k, ¬ everUp (trace s) k) (Object_keys (workers s));
  ready_done : readyJoin s = None →
    ∀ k, k ∈ Object_keys (workers s) → everUp (trace s) k;
  ready_announced : Object_keys (workers s) ≠ [] → readyJoin s = None →
    Emit workerAllUp ∈ trace s;
}.

Definition readying (s s' : Supervisor) : Prop := Ready s → Ready s'.

#[global] Instance readying_preorder : PreOrder readying.
Proof. split; unfold readying; [by intros s|intros s1 s2 s3; auto]. Qed.

Lemma Ready_append s s' tr :
  Object_keys (workers s') = Object_keys (workers s) →
  readyJoin s' = readyJoin s →
  trace s' = trace s ++ tr →
  (∀ k, Emit (workerUp k) ∉ tr) →
  readying s s'.
Proof.
  intros Hk Hj Ht Hno [H1 H2 H3].
  assert (∀ k, everUp (trace s') k ↔ everUp (trace s) k) as Hiff.
  { intros k. unfold everUp. rewrite Ht, elem_of_app. specialize (Hno k). tauto. }
  split; rewrite Hk, Hj.
  - intros l Hl. rewrite (H1 l Hl). apply list_filter_iff. intros k. by rewrite Hiff.
  - intros Hn k Hin. apply Hiff. by apply H2.
  - intros Hw Hn. rewrite Ht, elem_of_app. left. by apply H3.
Qed.

Ltac readying_leaf :=
  lazymatch goal with
  | |- readying ?s _ =>
      first
        [ apply (Ready_append s _ []);
          [simpl; by rewrite ?obj_alter_keys|done|simpl; by rewrite app_nil_r
          |intros ?; apply not_elem_of_nil]
        | eapply (Ready_append s _ [_]);
          [simpl; by rewrite ?obj_alter_keys|done|done
          |intros ? ?%list_elem_of_singleton; done] ]
  end.

Lemma readying_process_hrtime : respects readying process_hrtime.
Proof. intros s. readying_leaf. Qed.
Lemma readying_alterWorker key f : respects readying (alterWorker key f).
Proof. intros s. readying_leaf. Qed.
#[global] Hint Resolve readying_process_hrtime readying_alterWorker : respects.
Lemma readying_process_hrtime_since past : respects readying (process_hrtime_since past).
Proof. unfold process_hrtime_since. respects_go. Qed.
#[global] Hint Resolve readying_process_hrtime_since : respects.

Lemma recomputation_no_up s k : Emit (workerUp k) ∉ recomputation s.
Proof.
  unfold recomputation, broadcast. intros [|Hin]%elem_of_cons; [done|].
  apply list_elem_of_fmap in Hin as (? & ? & _). done.
Qed.

Lemma readying_emit e : (∀ k, e ≠ workerUp k) → respects readying (emit e).
Proof.
  intros He. destruct (changesHealth e) eqn:Hc.
  - intros s. rewrite emit_changesHealth by done.
    apply (Ready_append s _ (Emit e :: recomputation s)); try done.
    intros k [[=]|Hin]%elem_of_cons; [by eapply He|].
    by eapply recomputation_no_up.
  - assert (∀ k, Emit e ≠ Emit (workerUp k)) as He' by (intros k [=]; by eapply He).
    unfold emit, recordHeartbeat.
    destruct e; try done; respects_go; try readying_leaf;
      eapply (Ready_append _ _ [_]); try done;
      intros ? ?%list_elem_of_singleton; by eapply He'.
Qed.
#[global] Hint Extern 1 (respects readying (emit _)) =>
  apply readying_emit; intros ?; discriminate : respects.

Lemma readying_monitorHeartbeat : respects readying monitorHeartbeat.
Proof. unfold monitorHeartbeat, scheduleMonitor. respects_go; try readying_leaf. Qed.
Lemma readying_configure settings' baseSettings :
  respects readying (configure settings' baseSettings).
Proof. unfold configure. respects_go; try readying_leaf. Qed.
Lemma readying_onAllReady : respects readying onAllReady.
Proof. unfold onAllReady, scheduleMonitor. respects_go; try readying_leaf. Qed.
#[global] Hint Resolve readying_monitorHeartbeat readying_configure readying_onAllReady
  : respects.
Lemma readying_replaceWorkerProcess key : respects readying (replaceWorkerProcess key).
Proof.
  unfold replaceWorkerProcess, createWorkerProcess, fork.
  respects_go; try readying_leaf.
Qed.
#[global] Hint Resolve readying_replaceWorkerProcess : respects.
Lemma readying_settle o thens : respects readying (settle o thens).
Proof.
  revert o. induction thens as [|[h1 h2] thens IH]; intros o; simpl;
    unfold runHandler, killProcesses; respects_go;
    try (destruct (then_ h1 h2 o); respects_go); try readying_leaf.
Qed.
#[global] Hint Resolve readying_settle : respects.
Lemma readying_stop : respects readying stop.
Proof.
  unfold stop, gentleStop, internalSend, worker_send. respects_go; try readying_leaf.
Qed.
Lemma readying_onRaceTimeout i listenerThrows :
  respects readying (onRaceTimeout i listenerThrows).
Proof.
  unfold onRaceTimeout, runTimeoutCallback, setPromise.
  respects_go; try readying_leaf; try (destruct (onTimeout _); respects_go).
Qed.
Lemma readying_runReactions i : respects readying (runReactions i).
Proof. unfold runReactions, setPromise. respects_go; try readying_leaf. Qed.
#[global] Hint Resolve readying_stop readying_onRaceTimeout readying_runReactions
  : respects.
Lemma readying_runNextTicks : respects readying runNextTicks.
Proof. unfold runNextTicks. respects_go; try readying_leaf. Qed.
#[global] Hint Resolve readying_runNextTicks : respects.

(** The conjunction has resolved: every worker has reported ready. *)
Lemma readying_allReady s :
  readyJoin s = Some [] →
  readying s ((modify (set_readyJoin None);; onAllReady) s).2.
Proof.
  intros Hj [H1 H2 H3]. erewrite bind_Ok; [|reflexivity]. rewrite onAllReady_eq.
  specialize (H1 [] Hj). symmetry in H1.
  assert (∀ k, k ∈ Object_keys (workers s) → everUp (trace s) k) as Hall.
  { intros k Hk. destruct (decide (everUp (trace s) k)) as [|Hn]; [done|].
    assert (k ∈ filter (λ k, ¬ everUp (trace s) k) (Object_keys (workers s))) as Hin
      by (by apply list_elem_of_filter).
    rewrite H1 in Hin. by apply elem_of_nil in Hin. }
  split; simpl; [done| |].
  - intros _ k Hk. unfold everUp. rewrite elem_of_app. left. by apply Hall.
  - intros _ _. rewrite elem_of_app. right. left.
Qed.

Lemma readying_runMicrotasks : respects readying runMicrotasks.
Proof.
  intros s. unfold runMicrotasks. erewrite bind_Ok; [|reflexivity].
  apply (respects_bind_at readying); [|intros _; respects_go].
  destruct (readyJoin s) as [[|k join]|] eqn:Hj; try reflexivity.
  by apply readying_allReady.
Qed.

Lemma readying_drain : respects readying drain.
Proof.
  unfold drain. apply (respects_bind readying); [apply readying_runNextTicks|].
  intros _. apply readying_runMicrotasks.
Qed.

(** A worker reports ready: its promise leaves the conjunction. *)
Lemma readying_worker_up key : respects readying (worker_emit key worker_up).
Proof.
  intros s [H1 H2 H3]. unfold worker_emit. rewrite bind_total by apply emit_Ok.
  rewrite emit_changesHealth by done. simpl.
  assert (∀ k, everUp (trace s ++ Emit (workerUp key) :: recomputation s) k
               ↔ k = key ∨ everUp (trace s) k) as Hiff.
  { intros k. unfold everUp. rewrite elem_of_app, elem_of_cons.
    pose proof (recomputation_no_up s k). split.
    - intros [|[[= ->]|]]; auto. done.
    - intros [->|]; auto. }
  split; simpl.
  - intros l Hl. destruct (readyJoin s) as [l0|] eqn:Hj; [|done].
    injection Hl as <-. rewrite (H1 l0 eq_refl). unfold resolveFor.
    rewrite list_filter_filter. apply list_filter_iff. intros k.
    rewrite Hiff. tauto.
  - intros Hn k Hk. apply Hiff. right. apply H2; [|done].
    by destruct (readyJoin s).
  - intros Hw Hn. rewrite elem_of_app. left. apply H3; [done|].
    by destruct (readyJoin s).
Qed.

Lemma readying_worker_emit key e :
  respects readying (worker_emit key e).
Proof.
  destruct e; [apply readying_worker_up|..]; unfold worker_emit; respects_go.
  readying_leaf.
Qed.
#[global] Hint Resolve readying_worker_emit : respects.

Lemma readying_handle x :
  x ≠ CallStart → respects readying (handle x).
Proof.
  intros Hx. destruct x; try done; simpl;
    unfold workerInternalMessageHandler, onExit, process_nextTick;
    respects_go; try readying_leaf.
Qed.

Lemma filter_all {A} (P : A → Prop) `{∀ x, Decision (P x)} (l : list A) :
  (∀ x, x ∈ l → P x) → filter P l = l.
Proof.
  induction l as [|x l IH]; intros Hl; [done|].
  rewrite filter_cons_True by (apply Hl; left).
  f_equal. apply IH. intros y Hy. apply Hl. by right.
Qed.

Lemma no_up_in_health tr k : health tr = [] → ¬ everUp tr k.
Proof.
  intros Hh Hin. assert (Emit (workerUp k) ∈ health tr) as Hin'.
  { unfold health. by apply list_elem_of_filter. }
  rewrite Hh in Hin'. by apply elem_of_nil in Hin'.
Qed.

Lemma poolLaunches_no_up cfg perWorker flags p ids k :
  Emit (workerUp k) ∉ poolLaunches cfg perWorker flags p ids.
Proof.
  revert p. induction ids as [|id ids IH]; intros p; simpl.
  - apply not_elem_of_nil.
  - intros [|Hin]%elem_of_cons; [done|]. by eapply IH.
Qed.

(** Pool creation: the conjunction awaits every worker. *)
Lemma Ready_start s : reachable s → Ready s → Ready (handle CallStart s).2.
Proof.
  intros Hr HR. pose proof (Inv_reachable s Hr) as HI.
  unfold handle, start, createWorkerPool.
  erewrite bind_Ok; [|reflexivity]. erewrite bind_Ok; [|reflexivity]. simpl.
  destruct (workerPoolCreated s) eqn:Hc.
  { revert HR. apply (Ready_append s _ []); try done. simpl. by rewrite app_nil_r.
    intros k. apply not_elem_of_nil. }
  assert (workers s = []) as Hw.
  { destruct (workers s) eqn:Hw; [done|].
    rewrite (inv_created s HI) in Hc; [done|]. by rewrite Hw. }
  assert (∀ k, ¬ everUp (trace s) k) as Hfresh.
  { intros k. apply no_up_in_health.
    apply (tally_fresh s (Tally_reachable s Hr)). by rewrite Hw. }
  assert (readyJoin s = None) as Hj.
  { apply (mon_fresh s (Mon_reachable s Hr) Hc). }
  erewrite bind_Ok; [|reflexivity]. erewrite bind_Ok; [|reflexivity].
  set (s0 := set_workerPoolCreated true (set_closing false s)).
  match goal with |- context [createWorkers ?l] => remember l as ids eqn:Hids end.
  assert (NoDup ids) as Hnd by (rewrite Hids; apply NoDup_seqZ).
  clear Hids.
  assert (Ready s0) as HR0.
  { revert HR. apply (Ready_append s _ []); try done. simpl. by rewrite app_nil_r.
    intros k. apply not_elem_of_nil. }
  assert (ids = [] ∨
          (∃ id ids', ids = id :: ids'
             ∧ (workerEnv (settings s) = None ∨ execArgv (settings s) = None))
          ∨ ∃ perWorker flags, workerEnv (settings s) = Some perWorker
                               ∧ execArgv (settings s) = Some flags)
    as [->|[(id & ids' & -> & Hmiss)|(perWorker & flags & He & Ha)]].
  { destruct ids; [by left|right].
    destruct (workerEnv (settings s)), (execArgv (settings s)); eauto 10. }
  - unfold s0. simpl. split; simpl; rewrite Hw; try done.
    by intros l [= <-].
  - cbn [createWorkers]. unfold mbind, M_bind.
    rewrite createWorkerProcess_eq.
    assert (settings s0 = settings s) as -> by done.
    assert (∃ e, match workerEnv (settings s), execArgv (settings s) with
                 | Some perWorker, Some flags =>
                     (Ok {| pid := nextPid s0; exited := false; exitListener := false |},
                      set_trace (trace s0 ++ [launch s0 perWorker flags (pretty id)])
                        (set_nextPid (S (nextPid s0)) s0))
                 | None, _ =>
                     (Throw (TypeError "this.settings.workerEnv is not a function"), s0)
                 | Some _, None =>
                     (Throw (TypeError "this.settings.execArgv is not iterable"), s0)
                 end = (Throw e, s0)) as [e ->].
    { destruct (workerEnv (settings s)), (execArgv (settings s));
        try (by destruct Hmiss); eauto. }
    done.
  - erewrite bind_Ok;
      [|apply (createWorkers_eq ids [] s0 perWorker flags He Ha); [done|]].
    2:{ intros id' _. simpl. rewrite Hw. apply not_elem_of_nil. }
    simpl. rewrite Hw. simpl. split; simpl.
    + intros l [= <-]. rewrite poolWorkers_keys.
      symmetry. apply filter_all. intros k _.
      unfold everUp. rewrite elem_of_app.
      intros [Hin|Hin]; [by apply (Hfresh k)|by eapply poolLaunches_no_up].
    + done.
    + done.
Qed.

Lemma Ready_new clock : Ready (newSupervisor clock).
Proof. split; simpl; try done. intros _ k Hk. by apply elem_of_nil in Hk. Qed.

Lemma Ready_reachable s : reachable s → Ready s.
Proof.
  intros (clock & inputs & ->).
  induction inputs as [|x inputs IH] using rev_ind; [apply Ready_new|].
  rewrite run_snoc. unfold step. apply readying_drain.
  assert (reachable (run inputs (newSupervisor clock))) as Hr by (by eexists _, _).
  destruct x; try (by apply readying_handle).
  by apply Ready_start.
Qed.

Lemma occurrences_elem_of e tr : e ∈ tr → occurrences e tr ≠ 0%nat.
Proof.
  intros Hin. unfold occurrences.
  assert (e ∈ filter (λ e', e' = e) tr) as Hf by (by apply list_elem_of_filter).
  destruct (filter _ tr); [by apply elem_of_nil in Hf|done].
Qed.

(** X19. [workerAllUp] means that every tracked worker has reported ready
    at least once since the pool was created, not that all workers are up:
    on a pool with workers, the event has been emitted exactly when the
    trace holds a [workerUp] of every tracked worker, whether or not some of
    them have gone down since; until then the supervisor waits for exactly
    the workers that have never reported ready. *)
Theorem X19_workerAllUp_meaning (s : Supervisor) :
  reachable s →
  workers s ≠ [] →
  (Emit workerAllUp ∈ trace s
   ↔ ∀ k, k ∈ Object_keys (workers s) → Emit (workerUp k) ∈ trace s)
  ∧ (Emit workerAllUp ∈ trace s ∨
     ∃ l, readyJoin s = Some l ∧ l ≠ []
          ∧ ∀ k, k ∈ l ↔ k ∈ Object_keys (workers s) ∧ Emit (workerUp k) ∉ trace s).
Proof.
  intros Hr Hw.
  pose proof (Ready_reachable s Hr) as [H1 H2 H3].
  pose proof (Mon_reachable s Hr) as [Hidle Hrun _ _].
  pose proof (Quiescent_reachable s Hr) as [_ Hj _].
  assert (Object_keys (workers s) ≠ []) as Hk by (by destruct (workers s)).
  destruct (readyJoin s) as [l|] eqn:Hl.
  - assert (Emit workerAllUp ∉ trace s) as Hno.
    { intros Hin. apply occurrences_elem_of in Hin.
      destruct (heartbeatStartedAt s) eqn:Hs.
      - by destruct Hrun as (_ & _ & ?); [eauto|].
      - by destruct (Hidle eq_refl) as [_ ?]. }
    assert (l ≠ []) as Hne by congruence.
    assert (∀ k, k ∈ l ↔ k ∈ Object_keys (workers s) ∧ Emit (workerUp k) ∉ trace s)
      as Hiff.
    { intros k. rewrite (H1 l eq_refl), list_elem_of_filter. unfold everUp. tauto. }
    split; [|right; eauto]. split; [done|]. intros Hall.
    destruct l as [|k l]; [done|].
    destruct (proj1 (Hiff k)) as [Hin Hn]; [left|]. destruct Hn. by apply Hall.
  - split; [|left; by apply H3]. split; [intros _; by apply H2|].
    intros _. by apply H3.
Qed.

Lemma X19_workerAllUp_meaning_witness :
  let s := run [CallConfigure (poolOf 2) emptySettings; CallStart;
                ProcessMessage "1" ready; ProcessExit "1" (Some 0) None;
                ProcessMessage "2" ready] (newSupervisor everySecond) in
  reachable s
  ∧ upCount s = 1
  ∧ Emit workerAllUp ∈ trace s.
Proof.
  set (s := run [CallConfigure (poolOf 2) emptySettings; CallStart;
                 ProcessMessage "1" ready; ProcessExit "1" (Some 0) None;
                 ProcessMessage "2" ready] (newSupervisor everySecond)).
  assert (reachable s) as Hr.
  { by exists everySecond, [CallConfigure (poolOf 2) emptySettings; CallStart;
                 ProcessMessage "1" ready; ProcessExit "1" (Some 0) None;
                 ProcessMessage "2" ready]. }
  split; [exact Hr|]. split; [by vm_compute|].
  apply (X19_workerAllUp_meaning s Hr); [by vm_compute|].
  intros k Hk. replace (Object_keys (workers s)) with ["1"; "2"] in Hk
    by (by vm_compute).
  apply elem_of_cons in Hk as [->|Hk]; [|apply list_elem_of_singleton in Hk as ->].
  - apply (list_elem_of_lookup_2 _ 2%nat). by vm_compute.
  - apply (list_elem_of_lookup_2 _ 11%nat). by vm_compute.
Defined.

(** * The three phases of [stop()] *)

(** ** The shape of the chain *)

(** The signal of the sweep that follows a race, by the [onTimeout]
    callback of the race: [raceTo(gentleStop(), ...)] is followed by
    [killSequence('SIGTERM')], that by [killSequence('SIGKILL')], and that by
    nothing. *)
Definition escalation (callback : TimeoutCallback) : option Signal :=
  match callback with
  | gentleStopTimedOut => Some SIGTERM
  | killTimedOut SIGTERM => Some SIGKILL
  | killTimedOut SIGKILL => None
  end.

(** The [.then] links that follow a race in the chain of [stop()]. *)
Definition chain (callback : TimeoutCallback) : list (Handler * Handler) :=
  match callback with
  | gentleStopTimedOut =>
      [(killSequence SIGTERM, killSequence SIGTERM);
       (killSequence SIGKILL, killSequence SIGKILL)]
  | killTimedOut SIGTERM => [(killSequence SIGKILL, killSequence SIGKILL)]
  | killTimedOut SIGKILL => []
  end.

(** A promise of [stop()] is settled or in one of the three phases. *)
Definition phased (p : Promise) : Prop :=
  match p with
  | Pending race thens => thens = chain (onTimeout race)
  | Settled _ => True
  end.

Lemma chain_escalation callback :
  chain callback
  = match escalation callback with
    | Some signal => (killSequence signal, killSequence signal)
                     :: chain (killTimedOut signal)
    | None => []
    end.
Proof. by destruct callback as [|[|]]. Qed.

Lemma settle_phased o callback s p s' :
  settle o (chain callback) s = (Ok p, s') → phased p.
Proof.
  rewrite chain_escalation. destruct (escalation callback) as [signal|].
  - rewrite settle_link. destruct (liveWorkers s); by intros [= <- _].
  - by intros [= <- _].
Qed.

Definition phasing (s s' : Supervisor) : Prop :=
  Forall phased (promises s) → Forall phased (promises s').

#[global] Instance phasing_preorder : PreOrder phasing.
Proof. split; unfold phasing; [by intros s|intros s1 s2 s3; auto]. Qed.

Ltac phasing_leaf := intros ?; simpl; done.

Lemma phasing_perform e : respects phasing (perform e).
Proof. intros s. phasing_leaf. Qed.
Lemma phasing_process_hrtime : respects phasing process_hrtime.
Proof. intros s. phasing_leaf. Qed.
Lemma phasing_alterWorker key f : respects phasing (alterWorker key f).
Proof. intros s. phasing_leaf. Qed.
#[global] Hint Resolve phasing_perform phasing_process_hrtime phasing_alterWorker
  : respects.
Lemma phasing_process_hrtime_since past : respects phasing (process_hrtime_since past).
Proof. unfold process_hrtime_since. respects_go. Qed.
#[global] Hint Resolve phasing_process_hrtime_since : respects.
Lemma phasing_emit e : respects phasing (emit e).
Proof.
  unfold emit, setPoolHealth, recordHeartbeat, internalSend, worker_send.
  destruct e; respects_go; try phasing_leaf.
Qed.
#[global] Hint Resolve phasing_emit : respects.
Lemma phasing_monitorHeartbeat : respects phasing monitorHeartbeat.
Proof. unfold monitorHeartbeat, scheduleMonitor. respects_go; try phasing_leaf. Qed.
Lemma phasing_configure settings' baseSettings :
  respects phasing (configure settings' baseSettings).
Proof. unfold configure. respects_go; try phasing_leaf. Qed.
Lemma phasing_onAllReady : respects phasing onAllReady.
Proof. unfold onAllReady, scheduleMonitor. respects_go; try phasing_leaf. Qed.
#[global] Hint Resolve phasing_monitorHeartbeat phasing_configure phasing_onAllReady
  : respects.
Lemma phasing_createWorkerProcess id : respects phasing (createWorkerProcess id).
Proof. unfold createWorkerProcess, fork. respects_go; try phasing_leaf. Qed.
#[global] Hint Resolve phasing_createWorkerProcess : respects.
Lemma phasing_replaceWorkerProcess key : respects phasing (replaceWorkerProcess key).
Proof. unfold replaceWorkerProcess. respects_go. Qed.
#[global] Hint Resolve phasing_replaceWorkerProcess : respects.
Lemma phasing_createWorkers ids acc : respects phasing (createWorkers ids acc).
Proof.
  revert acc. induction ids as [|id ids IH]; intros acc; simpl; respects_go;
  try phasing_leaf.
Qed.
#[global] Hint Resolve phasing_createWorkers : respects.
Lemma phasing_start : respects phasing start.
Proof. unfold start, createWorkerPool. respects_go; try phasing_leaf. Qed.
#[global] Hint Resolve phasing_start : respects.

(** A worker going down resolves its part of every race; the race stays
    the race of its phase. *)
Lemma phasing_worker_emit key e : respects phasing (worker_emit key e).
Proof.
  unfold worker_emit. destruct e; respects_go; try phasing_leaf.
  intros H. simpl. apply Forall_fmap. eapply Forall_impl; [exact H|].
  by intros [race thens|o].
Qed.
#[global] Hint Resolve phasing_worker_emit : respects.

Lemma phasing_settle o thens : respects phasing (settle o thens).
Proof.
  revert o. induction thens as [|[h1 h2] thens IH]; intros o; simpl;
    unfold runHandler, killProcesses; respects_go;
    try (destruct (then_ h1 h2 o); respects_go); try phasing_leaf.
Qed.

(** [stop()] starts a chain in its first phase. *)
Lemma phasing_stop : respects phasing stop.
Proof.
  intros s H. rewrite stop_eq. simpl. apply Forall_app. split; [done|].
  by repeat constructor.
Qed.

(** A link that runs leaves the promise in the phase of that link. *)
Lemma phasing_next o i race thens s :
  promises s !! i = Some (Pending race thens) →
  phasing s ((p ← settle o thens; setPromise i p) s).2.
Proof.
  intros Hi H. destruct (settle_total o thens s) as (p & s1 & Hs & Hp & _).
  erewrite bind_Ok; [|exact Hs]. simpl. rewrite Hp.
  apply Forall_insert; [done|].
  rewrite Forall_lookup in H. specialize (H i _ Hi). simpl in H. subst thens.
  by eapply settle_phased.
Qed.

Lemma phasing_onRaceTimeout i listenerThrows :
  respects phasing (onRaceTimeout i listenerThrows).
Proof.
  intros s. unfold onRaceTimeout. erewrite bind_Ok; [|reflexivity].
  destruct (promises s !! i) as [[race thens|o]|] eqn:Hi; try reflexivity.
  erewrite bind_Ok; [|apply runTimeoutCallback_eq].
  etrans; [|by eapply phasing_next]. by intros ?.
Qed.

Lemma phasing_runReactions i : respects phasing (runReactions i).
Proof.
  intros s. unfold runReactions. erewrite bind_Ok; [|reflexivity].
  destruct (promises s !! i) as [[race thens|o]|] eqn:Hi; try reflexivity.
  destruct (awaited race); [|reflexivity]. by eapply phasing_next.
Qed.
#[global] Hint Resolve phasing_stop phasing_onRaceTimeout phasing_runReactions
  : respects.

Lemma phasing_drain : respects phasing drain.
Proof. unfold drain, runNextTicks, runMicrotasks. respects_go; try phasing_leaf. Qed.

Lemma phasing_handle i : respects phasing (handle i).
Proof.
  destruct i; simpl; unfold workerInternalMessageHandler, onExit, process_nextTick;
    respects_go; try phasing_leaf.
Qed.

Lemma phasing_run inputs s : phasing s (run inputs s).
Proof.
  induction inputs as [|i inputs IH] using rev_ind; [reflexivity|].
  rewrite run_snoc. etrans; [exact IH|]. unfold step.
  etrans; [apply phasing_handle|apply phasing_drain].
Qed.

(** In every state the supervisor can reach, every promise of [stop()] is
    settled or in one of the three phases. *)
Lemma phased_reachable s : reachable s → Forall phased (promises s).
Proof. intros (clock & inputs & ->). by apply phasing_run. Qed.

(** ** What the turns of the sequence do *)

(** The state after [stop()], and after the reactions of the turn. *)
Definition stopping (s : Supervisor) : Supervisor :=
  set_promises
    (promises s
     ++ [if decide (workers s = []) then Settled (Fulfilled false)
         else Pending (raceTo (Object_keys (workers s))
                              (gentleStopTimeout (settings s)) gentleStopTimedOut)
                (chain gentleStopTimedOut)])
    (set_trace (trace s ++ ((λ k, Send k shutdown) <$> Object_keys (workers s)))
       (set_closing true s)).

Lemma stop_turn s :
  reachable s →
  (handle CallStop s).1 = Ok () ∧ step CallStop s = stopping s.
Proof.
  intros Hr. pose proof (Quiescent_reachable s Hr) as [Hq Hj Hp].
  set (i := length (promises s)).
  set (gentle := Pending (raceTo (Object_keys (workers s))
                                 (gentleStopTimeout (settings s)) gentleStopTimedOut)
                   (chain gentleStopTimedOut)).
  set (s1 := set_promises (promises s ++ [gentle])
               (set_trace (trace s ++ ((λ k, Send k shutdown) <$> Object_keys (workers s)))
                  (set_closing true s))).
  assert (handle CallStop s = (Ok (), s1)) as Hh.
  { unfold handle. erewrite bind_Ok; [|apply stop_eq]. done. }
  rewrite Hh. split; [done|]. unfold step, stopping. rewrite Hh. simpl.
  destruct (decide (workers s = [])) as [Hw|Hw].
  - set (s2 := set_promises (<[i := Settled (Fulfilled false)]> (promises s1)) s1).
    assert (drain s1 = (Ok (), s2)) as Hd.
    { unfold drain, runNextTicks.
      erewrite bind_Ok; [|erewrite bind_Ok; [|reflexivity];
                           erewrite bind_Ok; [|reflexivity];
                           simpl; rewrite Hq; reflexivity].
      rewrite set_nextTickQueue_id by done.
      unfold runMicrotasks. erewrite bind_Ok; [|reflexivity].
      assert (match readyJoin s1 with
              | Some [] => modify (set_readyJoin None);; onAllReady
              | _ => mret ()
              end s1 = (Ok (), s1)) as Hm.
      { change (readyJoin s1) with (readyJoin s).
        destruct (readyJoin s) as [[|]|]; done. }
      erewrite bind_Ok; [|exact Hm]. erewrite bind_Ok; [|reflexivity].
      assert (length (promises s1) = S i) as ->.
      { unfold s1. simpl. rewrite length_app. simpl. lia. }
      rewrite seq_S. simpl.
      erewrite forEach_app.
      2:{ apply forEach_idle. intros j Hin%elem_of_seq. apply runReactions_waiting.
          intros p Hl. unfold s1 in Hl. simpl in Hl.
          rewrite lookup_app_l in Hl by (unfold i in *; lia).
          rewrite Forall_lookup in Hp. by eapply Hp. }
      cbn [forEach]. unfold runReactions.
      erewrite bind_Ok; [|erewrite bind_Ok; [|reflexivity]].
      2:{ unfold s1 at 1. cbn [promises set_promises].
          rewrite list_lookup_middle by done. unfold gentle, raceTo.
          cbn [awaited]. rewrite Hw. cbn [Object_keys fmap list_fmap].
          erewrite bind_Ok; [|apply settle_dead].
          - reflexivity.
          - unfold liveWorkers. change (workers s1) with (workers s).
            by rewrite Hw. }
      done. }
    rewrite Hd. unfold s2, s1. simpl.
    rewrite insert_app_r_alt by (unfold i; lia).
    by replace (i - length (promises s))%nat with 0%nat by (unfold i; lia).
  - assert (Quiescent s1) as HQ1.
    { split; [done|done|]. unfold s1. simpl. apply Forall_app. split; [done|].
      constructor; [|constructor]. simpl. destruct (workers s); done. }
    by rewrite drain_idle.
Qed.

(** The state after the timer of the pending race of promise [i] has fired:
    what the turn adds to the trace, and what has become of the promise. *)
Definition afterTimer (i : nat) (added : list Effect) (p : Promise) (s : Supervisor)
  : Supervisor :=
  set_promises (<[i := p]> (promises s)) (set_trace (trace s ++ added) s).

Lemma raceTimer_turn i listenerThrows race s :
  reachable s →
  promises s !! i = Some (Pending race (chain (onTimeout race))) →
  let report := Emit (timeoutEvent (onTimeout race) (settings s)) in
  (handle (RaceTimer i listenerThrows) s).1 = Ok ()
  ∧ step (RaceTimer i listenerThrows) s
    = match escalation (onTimeout race) with
      | Some signal =>
          match liveWorkers s with
          | [] => afterTimer i [report] (Settled (Fulfilled false)) s
          | _ :: _ =>
              afterTimer i (report :: sweep signal (liveWorkers s))
                (Pending (raceTo (Object_keys (liveWorkers s))
                                 (killTimeout (settings s)) (killTimedOut signal))
                   (chain (killTimedOut signal))) s
          end
      | None =>
          afterTimer i [report]
            (Settled (if listenerThrows then Rejected else Fulfilled true)) s
      end.
Proof.
  intros Hr Hi report. pose proof (Quiescent_reachable s Hr) as HQ.
  set (o := if listenerThrows then Rejected else Fulfilled true).
  set (s1 := set_trace (trace s ++ [report]) s).
  assert (∀ p s2, settle o (chain (onTimeout race)) s1 = (Ok p, s2) →
            handle (RaceTimer i listenerThrows) s
            = (Ok (), set_promises (<[i := p]> (promises s2)) s2)) as Hh.
  { intros p s2 Hs. unfold handle, onRaceTimeout. erewrite bind_Ok; [|reflexivity].
    rewrite Hi. erewrite bind_Ok; [|apply runTimeoutCallback_eq].
    fold report. fold s1. fold o. by erewrite bind_Ok; [|exact Hs]. }
  assert (∀ added p,
            settle o (chain (onTimeout race)) s1
            = (Ok p, set_trace (trace s ++ added) s) →
            (handle (RaceTimer i listenerThrows) s).1 = Ok ()
            ∧ step (RaceTimer i listenerThrows) s = afterTimer i added p s) as Hgo.
  { intros added p Hs. rewrite step_idle; rewrite (Hh _ _ Hs); [done|]. simpl.
    apply (Quiescent_insert (set_trace (trace s ++ added) s)).
    - by destruct HQ.
    - by eapply settle_waiting. }
  rewrite chain_escalation in Hgo.
  destruct (escalation (onTimeout race)) as [signal|].
  - rewrite settle_link in Hgo. change (liveWorkers s1) with (liveWorkers s) in Hgo.
    destruct (liveWorkers s) as [|kw live]; [by apply Hgo|].
    apply Hgo. unfold s1. simpl. by rewrite <- app_assoc.
  - by apply Hgo.
Qed.

(** ** C3: [stop()] settles *)

(** C3. The promise that [stop()] returns always settles, phase by phase.
    In every state the supervisor can reach:
    - [stop()] does not throw, sends ["shutdown"] to every tracked worker
      and returns a promise in its first phase, the gentle stop: a race
      between the ['down'] events of all tracked workers and a timer of
      [gentleStopTimeout] (a pool without workers is fulfilled at once);
    - whatever happens afterwards, the promise is settled or in one of the
      three phases, gentle stop, SIGTERM sweep or SIGKILL sweep, each a
      race with a timer of its own; when that timer fires, the timeout is
      reported and, whether or not a listener of the report throws, the
      next phase runs: after the gentle stop the SIGTERM sweep, after that
      the SIGKILL sweep, each signalling the workers alive at that moment
      and racing their ['down'] events against [killTimeout] (with no
      worker alive the promise is fulfilled at once); after the SIGKILL
      phase the promise settles;
    - if all three timers fire while the workers stay alive, the workers
      are signalled with SIGTERM and then with SIGKILL, and the promise
      settles with the third timeout although they are still alive.
    And in any state whatsoever, whatever else happens, three timeouts of
    its races settle the promise; it is fulfilled unless a listener of a
    timeout report threw. *)
Theorem C3_stop_settles (s : Supervisor) :
  let i := length (promises s) in
  let s0 := step CallStop s in
  (reachable s →
   (* the gentle-stop phase, bounded by [gentleStopTimeout] *)
   ((handle CallStop s).1 = Ok ()
    ∧ trace s0 = trace s ++ ((λ k, Send k shutdown) <$> Object_keys (workers s))
    ∧ promises s0 !! i
      = Some (if decide (workers s = []) then Settled (Fulfilled false)
              else Pending {| awaited := Object_keys (workers s);
                              timeout := gentleStopTimeout (settings s);
                              onTimeout := gentleStopTimedOut |}
                     (chain gentleStopTimedOut)))
   (* afterwards the promise is settled or in one of the three phases, and
      the timer of its race makes the next phase run *)
   ∧ (∀ inputs,
        let t := run inputs s0 in
        (∃ o, promises t !! i = Some (Settled o))
        ∨ ∃ race,
            promises t !! i = Some (Pending race (chain (onTimeout race)))
            ∧ awaited race ≠ []
            ∧ ∀ listenerThrows,
                let t' := step (RaceTimer i listenerThrows) t in
                let report := Emit (timeoutEvent (onTimeout race) (settings t)) in
                workers t' = workers t
                ∧ match escalation (onTimeout race) with
                  | Some signal =>
                      match liveWorkers t with
                      | [] =>
                          trace t' = trace t ++ [report]
                          ∧ promises t' !! i = Some (Settled (Fulfilled false))
                      | _ :: _ =>
                          trace t' = trace t ++ report :: sweep signal (liveWorkers t)
                          ∧ promises t' !! i
                            = Some (Pending {| awaited := Object_keys (liveWorkers t);
                                               timeout := killTimeout (settings t);
                                               onTimeout := killTimedOut signal |}
                                      (chain (killTimedOut signal)))
                      end
                  | None =>
                      trace t' = trace t ++ [report]
                      ∧ promises t' !! i
                        = Some (Settled (if listenerThrows then Rejected
                                         else Fulfilled true))
                  end)
   (* all three timeouts elapse with live workers remaining *)
   ∧ (∀ b1 b2 b3,
        liveWorkers s ≠ [] →
        let t := run [RaceTimer i b1; RaceTimer i b2; RaceTimer i b3] s0 in
        trace t
        = trace s0
          ++ Emit (info_gentleStopTimeout (gentleStopTimeout (settings s)))
          :: sweep SIGTERM (liveWorkers s)
          ++ Emit (info_killTimeout SIGTERM (killTimeout (settings s)))
          :: sweep SIGKILL (liveWorkers s)
          ++ [Emit (info_killTimeout SIGKILL (killTimeout (settings s)))]
        ∧ promises t !! i = Some (Settled (if b3 then Rejected else Fulfilled true))
        ∧ liveWorkers t = liveWorkers s))
  (* whatever else happens, three timeouts settle the promise *)
  ∧ (∀ inputs,
       (3 ≤ timeouts i inputs)%nat →
       ∃ o, promises (run inputs s0) !! i = Some (Settled o)
            ∧ (Forall (λ x, throwing x = false) inputs →
               ∃ timedOut, o = Fulfilled timedOut)).
Proof.
  intros i s0. split.
  - intros Hr. destruct (stop_turn s Hr) as [Hok Hs0].
    assert (reachable s0) as Hr0 by (by apply (reachable_run [CallStop])).
    assert (promises s0 !! i
            = Some (if decide (workers s = []) then Settled (Fulfilled false)
                    else Pending (raceTo (Object_keys (workers s))
                                    (gentleStopTimeout (settings s)) gentleStopTimedOut)
                           (chain gentleStopTimedOut))) as Hi0.
    { unfold s0. rewrite Hs0. simpl. by apply list_lookup_middle. }
    split; [|split].
    + split; [done|]. split; [|done]. unfold s0. by rewrite Hs0.
    + intros inputs t.
      assert (reachable t) as Hrt by (by apply reachable_run).
      destruct (promise_stays inputs s0 i) as [p Hp]; [by rewrite Hi0|].
      fold t in Hp. destruct p as [race thens|o]; [right|eauto].
      pose proof (phased_reachable t Hrt) as Hph.
      rewrite Forall_lookup in Hph. specialize (Hph i _ Hp). simpl in Hph.
      subst thens.
      pose proof (qui_promises t (Quiescent_reachable t Hrt)) as Hw.
      rewrite Forall_lookup in Hw. specialize (Hw i _ Hp). simpl in Hw.
      exists race. split; [done|]. split; [done|]. intros listenerThrows t' report.
      destruct (raceTimer_turn i listenerThrows race t Hrt Hp) as [_ Ht'].
      fold t' report in Ht'. apply lookup_lt_Some in Hp.
      destruct (escalation (onTimeout race)) as [signal|];
        [destruct (liveWorkers t) as [|kw live]|];
        rewrite Ht'; unfold afterTimer; simpl; rewrite list_lookup_insert_eq by done;
        done.
    + intros b1 b2 b3 Hlive t.
      assert (workers s ≠ []) as Hw.
      { intros Hw. unfold liveWorkers in Hlive. by rewrite Hw in Hlive. }
      rewrite decide_False in Hi0 by done.
      assert (i < length (promises s0))%nat as Hlt by (by eapply lookup_lt_Some).
      assert (∀ (A : Type) (x y : A),
                match liveWorkers s with [] => x | _ :: _ => y end = y) as Hmatch.
      { intros A x y. by destruct (liveWorkers s). }
      (* the gentle-stop timeout *)
      destruct (raceTimer_turn i b1 _ s0 Hr0 Hi0) as [_ H1].
      assert (liveWorkers s0 = liveWorkers s) as Hl0 by (unfold s0; by rewrite Hs0).
      assert (settings s0 = settings s) as Hc0 by (unfold s0; by rewrite Hs0).
      cbn [raceTo onTimeout escalation timeoutEvent] in H1.
      rewrite Hl0, Hc0, Hmatch in H1.
      set (t1 := step (RaceTimer i b1) s0) in *.
      assert (reachable t1) as Hr1 by (by apply (reachable_run [RaceTimer i b1])).
      (* the SIGTERM timeout *)
      pose proof (raceTimer_turn i b2 (raceTo (Object_keys (liveWorkers s))
                    (killTimeout (settings s)) (killTimedOut SIGTERM)) t1 Hr1) as H2.
      rewrite H1 in H2 at 1. unfold afterTimer in H2 at 1.
      cbn [promises set_promises set_trace] in H2.
      rewrite list_lookup_insert_eq in H2 by done.
      destruct (H2 eq_refl) as [_ H2']. clear H2.
      assert (liveWorkers t1 = liveWorkers s) as Hl1 by (by rewrite H1).
      assert (settings t1 = settings s) as Hc1 by (by rewrite H1).
      cbn [raceTo onTimeout escalation timeoutEvent] in H2'.
      rewrite Hl1, Hc1, Hmatch in H2'.
      set (t2 := step (RaceTimer i b2) t1) in *.
      assert (reachable t2) as Hr2 by (by apply (reachable_run [RaceTimer i b2])).
      assert (length (promises t1) = length (promises s0)) as Hn1.
      { rewrite H1. unfold afterTimer. cbn [promises set_promises set_trace].
        by rewrite length_insert. }
      (* the SIGKILL timeout *)
      pose proof (raceTimer_turn i b3 (raceTo (Object_keys (liveWorkers s))
                    (killTimeout (settings s)) (killTimedOut SIGKILL)) t2 Hr2) as H3.
      rewrite H2' in H3 at 1. unfold afterTimer in H3 at 1.
      cbn [promises set_promises set_trace] in H3.
      rewrite list_lookup_insert_eq in H3 by lia.
      destruct (H3 eq_refl) as [_ H3']. clear H3.
      assert (settings t2 = settings s) as Hc2 by (by rewrite H2').
      cbn [raceTo onTimeout escalation timeoutEvent] in H3'.
      rewrite Hc2 in H3'.
      change t with (step (RaceTimer i b3) t2). rewrite H3'.
      unfold afterTimer. cbn [promises trace set_promises set_trace].
      rewrite list_lookup_insert_eq
        by (rewrite H2'; unfold afterTimer; cbn [promises set_promises set_trace];
            rewrite length_insert; lia).
      split; [|split; [done|]].
      * rewrite H2'. unfold afterTimer. cbn [trace set_promises set_trace].
        rewrite H1. unfold afterTimer. cbn [trace set_promises set_trace].
        rewrite <- !app_assoc. reflexivity.
      * unfold liveWorkers, afterTimer. cbn [workers set_promises set_trace].
        by rewrite H2', H1.
  - intros inputs Hn.
    assert (∃ p, promises s0 !! i = Some p ∧ (rank (Some p) ≤ 3)%nat)
      as (p & Hp & Hr).
    { unfold s0, step.
      pose proof (steady_drain false (handle CallStop s).2) as Hd.
      pose proof (ev_rank _ _ _ (steady_evolves _ _ _ Hd) i) as Hr.
      pose proof (ev_promises _ _ _ (steady_evolves _ _ _ Hd)) as Hl.
      set (s1 := (handle CallStop s).2) in *.
      assert (promises s1 !! i
              = Some (Pending (raceTo (Object_keys (workers s))
                                 (gentleStopTimeout (settings s)) gentleStopTimedOut)
                        (chain gentleStopTimedOut))) as Hi.
      { unfold s1, handle. erewrite bind_Ok; [|apply stop_eq]. simpl.
        by apply list_lookup_middle. }
      rewrite Hi in Hr. simpl in Hr.
      destruct (promises (drain s1).2 !! i) as [p|] eqn:Hp.
      - exists p. split; [done|]. done.
      - apply lookup_ge_None in Hp. apply lookup_lt_Some in Hi. lia. }
    pose proof (timeouts_settle inputs s0 i ltac:(by rewrite Hp)) as Hrank.
    rewrite Hp in Hrank.
    destruct (rank_settled (promises (run inputs s0)) i) as [o Ho].
    { apply promise_stays. by rewrite Hp. }
    { lia. }
    exists o. split; [done|]. intros Hpolite.
    destruct o as [timedOut|]; [by eexists|].
    pose proof (ev_rejected _ _ _ (evolves_run true inputs s0 (λ _, Hpolite)) eq_refl i Ho)
      as H0.
    pose proof (ev_rejected _ _ _ (evolves_step true CallStop s ltac:(done)) eq_refl i H0)
      as H1.
    apply lookup_lt_Some in H1. unfold i in H1. lia.
Qed.

Lemma C3_stop_settles_witness :
  let s := run [CallConfigure (poolOf 2) emptySettings; CallStart;
                ProcessMessage "1" ready; ProcessMessage "2" ready]
               (newSupervisor everySecond) in
  let t := run [RaceTimer 0 false; RaceTimer 0 true; RaceTimer 0 false]
               (step CallStop s) in
  reachable s
  ∧ drop (length (trace s)) (trace t)
    = [Send "1" shutdown; Send "2" shutdown;
       Emit (info_gentleStopTimeout (Some 5000));
       Emit (info_liveWorkersAtKill SIGTERM 2);
       Kill "1" 0 SIGTERM; Kill "2" 1 SIGTERM;
       Emit (info_killTimeout SIGTERM (Some 2000));
       Emit (info_liveWorkersAtKill SIGKILL 2);
       Kill "1" 0 SIGKILL; Kill "2" 1 SIGKILL;
       Emit (info_killTimeout SIGKILL (Some 2000))]
  ∧ promises t !! 0%nat = Some (Settled (Fulfilled true)).
Proof.
  set (s := run [CallConfigure (poolOf 2) emptySettings; CallStart;
                 ProcessMessage "1" ready; ProcessMessage "2" ready]
                (newSupervisor everySecond)).
  assert (reachable s) as Hr.
  { by exists everySecond, [CallConfigure (poolOf 2) emptySettings; CallStart;
                            ProcessMessage "1" ready; ProcessMessage "2" ready]. }
  assert (length (promises s) = 0%nat) as Hn by (clear; vm_compute; reflexivity).
  assert (liveWorkers s ≠ []) as Hlive by (clear; vm_compute; discriminate).
  assert (liveWorkers s
          = [("1", {| worker_id := "1"; worker_state := up;
                      worker_process := {| pid := 0; exited := false;
                                           exitListener := true |} |});
             ("2", {| worker_id := "2"; worker_state := up;
                      worker_process := {| pid := 1; exited := false;
                                           exitListener := true |} |})]) as Hl
    by (clear; vm_compute; reflexivity).
  assert (Object_keys (workers s) = ["1"; "2"]) as Hk
    by (clear; vm_compute; reflexivity).
  assert (settings s = set_minWorkerCount (Some 2) (spread DEFAULT_SETTINGS (poolOf 2)))
    as Hc by (clear; vm_compute; reflexivity).
  split; [exact Hr|].
  destruct (proj1 (C3_stop_settles s) Hr) as ((_ & Ht0 & _) & _ & H3).
  destruct (H3 false true false Hlive) as (Ht & Hp & _).
  rewrite Hn in Ht, Hp. cbv zeta. split; [|exact Hp].
  rewrite Ht, Ht0, <- app_assoc, drop_app_length, Hl, Hk, Hc. reflexivity.
Defined.
